(** * BitChat relay daemon: a shallow embedding of the Go sources

    The relay daemon (package [main] of [WiFi_mesh/relay-daemon]) is
    embedded function by function.  Go values are modelled as follows:

    - [[]byte], [[N]byte] and [string] are [list byte];
    - [int], [uint8], [uint32], [uint64] are [Z], with every truncating
      conversion written out; the width of [int] (32 bits on the MIPS
      routers, 64 on a native build) is a parameter where a value can
      exceed it;
    - a Go map used as a set is a [gset], the objects behind [*Client]
      pointers live in a [gmap] from addresses to [Client] records;
    - a [nil] slice is [None], so that [packets[idx] != nil] can be tested;
    - what a function gets from the operating system (socket input, files,
      the random source) is an explicit argument, what it hands to it
      (socket writes) an explicit result; a run-time panic is [None];
    - a [float64] is a binary64 number of IEEE 754, as the standard
      library's [SpecFloat] has them, and every operation on it rounds to
      the nearest, ties to even; a reading of the monotonic clock is a
      number of nanoseconds;
    - [log.Printf] lines are left out, and so are the goroutines: every
      function is embedded as it runs on its own, under its mutex. *)

From Stdlib Require Import ZArith List Lia Bool.
From Stdlib Require Import Strings.Byte Strings.String.
From Stdlib Require DecimalString.
From Stdlib Require SpecFloat QArith Qpower.
From Stdlib Require Import Sorted.
From stdpp Require Import base decidable countable list gmap.

Import ListNotations.
Local Open Scope Z_scope.

(** ** Part I: the embedding *)

(** *** Go's built-in slice and integer operations *)

Module Go.

Abbreviation bytes := (list byte).

#[export] Instance byte_eq_dec : EqDecision byte := Byte.byte_eq_dec.
#[export] Instance byte_countable : Countable byte :=
  inj_countable Byte.to_N Byte.of_N Byte.of_to_N.

(** [byte(x)] for an integer [x]: the low eight bits. *)
Definition byte_of_Z (x : Z) : byte :=
  match Byte.of_N (Z.to_N (x mod 256)) with
  | Some b => b
  | None => x00
  end.

(** [int(b)], [uint32(b)], ... for a byte [b]. *)
Definition Z_of_byte (b : byte) : Z := Z.of_N (Byte.to_N b).

(** [make([]byte, n)]: [n] zero bytes. *)
Definition make (n : nat) : bytes := repeat x00 n.

(** [copy(dst, src)]: overwrites the first [min(len(dst), len(src))]
    elements of [dst]; the value is [dst] afterwards. *)
Definition copy {A} (dst src : list A) : list A :=
  take (length dst) src ++ drop (length src) dst.

(** [s[lo:hi]] *)
Definition slice {A} (s : list A) (lo hi : nat) : list A :=
  take (hi - lo) (drop lo s).

(** [copy(dst[lo:hi], src)] and any other write through the sub-slice
    [dst[lo:hi]], seen from [dst]: [upd] is the sub-slice afterwards. *)
Definition with_slice {A} (dst : list A) (lo hi : nat) (upd : list A) : list A :=
  take lo dst ++ upd ++ drop hi dst.

Definition copy_range {A} (dst : list A) (lo hi : nat) (src : list A) : list A :=
  with_slice dst lo hi (copy (slice dst lo hi) src).

(** [int(x)] for an unsigned [x], on a target whose [int] has [intSize]
    bits: two's complement wrap-around. *)
Definition to_int (intSize : Z) (x : Z) : Z :=
  let y := x mod 2 ^ intSize in
  if decide (y < 2 ^ (intSize - 1)) then y else y - 2 ^ intSize.

(** [uint32(n)] and [uint64(n)] of an [int]. *)
Definition uint32 (n : Z) : Z := n mod 2 ^ 32.
Definition uint64 (n : Z) : Z := n mod 2 ^ 64.
Definition uint8 (n : Z) : Z := n mod 2 ^ 8.

(** [binary.BigEndian.PutUint32(b, v)]: writes four bytes at the start of
    [b].  (Go panics when [len(b) < 4]; every caller here passes a slice of
    exactly four bytes.) *)
Definition PutUint32 (b : bytes) (v : Z) : bytes :=
  copy b [byte_of_Z (Z.shiftr v 24); byte_of_Z (Z.shiftr v 16);
          byte_of_Z (Z.shiftr v 8); byte_of_Z v].

(** [binary.BigEndian.Uint32(b)] for [len(b) >= 4]. *)
Definition Uint32 (b : bytes) : Z :=
  match b with
  | b0 :: b1 :: b2 :: b3 :: _ =>
      Z.lor (Z.lor (Z.lor (Z_of_byte b3) (Z.shiftl (Z_of_byte b2) 8))
                   (Z.shiftl (Z_of_byte b1) 16))
            (Z.shiftl (Z_of_byte b0) 24)
  | _ => 0
  end.

(** [binary.BigEndian.PutUint64(b, v)] *)
Definition PutUint64 (b : bytes) (v : Z) : bytes :=
  copy b [byte_of_Z (Z.shiftr v 56); byte_of_Z (Z.shiftr v 48);
          byte_of_Z (Z.shiftr v 40); byte_of_Z (Z.shiftr v 32);
          byte_of_Z (Z.shiftr v 24); byte_of_Z (Z.shiftr v 16);
          byte_of_Z (Z.shiftr v 8); byte_of_Z v].

(** [binary.BigEndian.Uint64(b)] for [len(b) >= 8]. *)
Definition Uint64 (b : bytes) : Z :=
  match b with
  | b0 :: b1 :: b2 :: b3 :: b4 :: b5 :: b6 :: b7 :: _ =>
      Z.lor (Z.lor (Z.lor (Z.lor (Z.lor (Z.lor (Z.lor
        (Z_of_byte b7) (Z.shiftl (Z_of_byte b6) 8))
        (Z.shiftl (Z_of_byte b5) 16)) (Z.shiftl (Z_of_byte b4) 24))
        (Z.shiftl (Z_of_byte b3) 32)) (Z.shiftl (Z_of_byte b2) 40))
        (Z.shiftl (Z_of_byte b1) 48)) (Z.shiftl (Z_of_byte b0) 56)
  | _ => 0
  end.

End Go.

Export Go.

(** *** protocol.go: the frame codec *)

Module Frame.

Definition FrameHello : byte := x01.
Definition FrameChallenge : byte := x02.
Definition FrameSolution : byte := x03.
Definition FrameAccept : byte := x04.
Definition FrameReject : byte := x05.
Definition FrameData : byte := x10.
Definition FramePing : byte := x20.
Definition FramePong : byte := x21.

Definition ProtocolVersion : Z := 1.

Record Frame := { Type_ : byte; Payload : bytes }.

Inductive error :=
| ErrReadHeader
| ErrFrameTooLarge (length maxPayload : Z)
| ErrReadPayload.

(** The reading side of a [net.Conn]: the bytes that will still arrive
    before the stream ends (by EOF, reset or deadline). *)
Abbreviation conn := (list byte) (only parsing).

(** [io.ReadFull(conn, buf)] with [len(buf) = n]: all [n] bytes or an
    error; the second component is what is left of the stream. *)
Definition ReadFull (c : conn) (n : nat) : option bytes * conn :=
  if decide (n <= length c)%nat then (Some (take n c), drop n c)
  else (None, []).

(** [ReadFrame]: the frame or the error, and what is left of the stream.
    [None] is the panic of [make([]byte, length)] on a length that is no
    [int] (the size check compares [int(length)], which is negative then). *)
Definition ReadFrame (intSize : Z) (c : conn) (maxPayload : Z)
  : option ((Frame + error) * conn) :=
  match ReadFull c 5 with
  | (None, c1) => Some (inr ErrReadHeader, c1)
  | (Some header, c1) =>
      let frameType := nth 0 header x00 in
      let length := Uint32 (slice header 1 5) in
      if decide (to_int intSize length > maxPayload) then
        Some (inr (ErrFrameTooLarge length maxPayload), c1)
      else if decide (2 ^ (intSize - 1) <= length) then None
      else if decide (length > 0) then
        match ReadFull c1 (Z.to_nat length) with
        | (None, c2) => Some (inr ErrReadPayload, c2)
        | (Some payload, c2) =>
            Some (inl {| Type_ := frameType; Payload := payload |}, c2)
        end
      else
        Some (inl {| Type_ := frameType;
                     Payload := make (Z.to_nat length) |}, c1)
  end.

(** The buffer [WriteFrame] hands to [conn.Write] in one call. *)
Definition WriteFrame_buf (frameType : byte) (payload : bytes) : bytes :=
  let buf := make (5 + length payload) in
  let buf := <[0%nat := frameType]> buf in
  let buf := with_slice buf 1 5
               (PutUint32 (slice buf 1 5) (uint32 (Z.of_nat (length payload)))) in
  copy_range buf 5 (length buf) payload.

End Frame.


(** *** crypto/sha256

    [sha256.Sum256] belongs to Go's standard library; it is written out
    here after FIPS 180-4 so that the daemon's functions can be run. *)

Module SHA256.

(** 32-bit words: the low 32 bits are kept by masking. *)
Definition mask32 : Z := 0xffffffff.

Definition add32 (x y : Z) : Z := Z.land (x + y) mask32.

Definition rotr (n x : Z) : Z :=
  Z.lor (Z.shiftr x n) (Z.land (Z.shiftl x (32 - n)) mask32).

Definition not32 (x : Z) : Z := Z.lxor x mask32.

Definition Ch (x y z : Z) : Z := Z.lxor (Z.land x y) (Z.land (not32 x) z).
Definition Maj (x y z : Z) : Z :=
  Z.lxor (Z.lxor (Z.land x y) (Z.land x z)) (Z.land y z).
Definition Sigma0 (x : Z) : Z :=
  Z.lxor (Z.lxor (rotr 2 x) (rotr 13 x)) (rotr 22 x).
Definition Sigma1 (x : Z) : Z :=
  Z.lxor (Z.lxor (rotr 6 x) (rotr 11 x)) (rotr 25 x).
Definition sigma0 (x : Z) : Z :=
  Z.lxor (Z.lxor (rotr 7 x) (rotr 18 x)) (Z.shiftr x 3).
Definition sigma1 (x : Z) : Z :=
  Z.lxor (Z.lxor (rotr 17 x) (rotr 19 x)) (Z.shiftr x 10).

(** The round constants and the initial chaining value are the first 32
    bits of the fractional parts of the cube roots of the first 64 primes
    and of the square roots of the first 8 primes. *)
Definition is_prime (n : nat) : bool :=
  forallb (fun d => negb (n mod d =? 0)%nat) (seq 2 (n - 2)).

Definition primes (count : nat) : list Z :=
  map Z.of_nat (take count (filter (fun n => is_prime n = true) (seq 2 400))).

(** The integer cube root of [n], bit by bit from bit [bits - 1] down. *)
Fixpoint cube_root (n : Z) (bits : nat) (r : Z) : Z :=
  match bits with
  | O => r
  | S b =>
      let c := r + 2 ^ Z.of_nat b in
      if c * c * c <=? n then cube_root n b c else cube_root n b r
  end.

Definition K : list Z :=
  Eval vm_compute in
    map (fun p => Z.land (cube_root (p * 2 ^ 96) 40 0) 0xffffffff) (primes 64).

(** The eight working variables, also the chaining value. *)
Definition state : Type := Z * Z * Z * Z * Z * Z * Z * Z.

Definition init_words : list Z :=
  Eval vm_compute in
    map (fun p => Z.land (Z.sqrt (p * 2 ^ 64)) 0xffffffff) (primes 8).

Definition init : state :=
  match init_words with
  | [a; b; c; d; e; f; g; h] => (a, b, c, d, e, f, g, h)
  | _ => (0, 0, 0, 0, 0, 0, 0, 0)
  end.

(** Padding: a one bit, zeros up to 56 mod 64, the bit length on 64 bits. *)
Definition pad (m : bytes) : bytes :=
  m ++ [x80]
    ++ make (Z.to_nat ((55 - Z.of_nat (length m)) mod 64))
    ++ PutUint64 (make 8) (uint64 (8 * Z.of_nat (length m))).

Fixpoint chunks (n : nat) (m : bytes) : list bytes :=
  match n with
  | O => []
  | S k => take 64 m :: chunks k (drop 64 m)
  end.

Fixpoint words (b : bytes) : list Z :=
  match b with
  | b0 :: b1 :: b2 :: b3 :: t => Uint32 [b0; b1; b2; b3] :: words t
  | _ => []
  end.

(** Message schedule: [n] more words after the ones in [w]. *)
Fixpoint schedule (w : list Z) (n : nat) : list Z :=
  match n with
  | O => w
  | S k =>
      let t := length w in
      let at_ i := nth (t - i) w 0 in
      schedule (w ++ [add32 (add32 (add32 (sigma1 (at_ 2%nat)) (at_ 7%nat))
                                   (sigma0 (at_ 15%nat))) (at_ 16%nat)]) k
  end.

Definition round (s : state) (kw : Z * Z) : state :=
  let '(a, b, c, d, e, f, g, h) := s in
  let '(k, w) := kw in
  let t1 := add32 (add32 (add32 (add32 h (Sigma1 e)) (Ch e f g)) k) w in
  let t2 := add32 (Sigma0 a) (Maj a b c) in
  (add32 t1 t2, a, b, c, add32 d t1, e, f, g).

Definition block (s : state) (chunk : bytes) : state :=
  let w := schedule (words chunk) 48 in
  let '(a, b, c, d, e, f, g, h) := fold_left round (combine K w) s in
  let '(a0, b0, c0, d0, e0, f0, g0, h0) := s in
  (add32 a0 a, add32 b0 b, add32 c0 c, add32 d0 d,
   add32 e0 e, add32 f0 f, add32 g0 g, add32 h0 h).

Definition digest (s : state) : bytes :=
  let '(a, b, c, d, e, f, g, h) := s in
  flat_map (PutUint32 (make 4)) [a; b; c; d; e; f; g; h].

Definition Sum256 (data : bytes) : bytes :=
  let m := pad data in
  digest (fold_left block (chunks (length m / 64) m) init).

End SHA256.

(** *** encoding/hex *)

Module Hex.

Definition hextable : bytes := list_byte_of_string "0123456789abcdef".

(** [hex.EncodeToString]: two lower-case digits per byte. *)
Definition EncodeToString (src : bytes) : bytes :=
  flat_map (fun v =>
      [nth (Z.to_nat (Z.shiftr (Z_of_byte v) 4)) hextable x00;
       nth (Z.to_nat (Z.land (Z_of_byte v) 0x0f)) hextable x00]) src.

Definition fromHexChar (c : byte) : option Z :=
  let n := Z_of_byte c in
  if decide (48 <= n <= 57) then Some (n - 48)
  else if decide (97 <= n <= 102) then Some (n - 97 + 10)
  else if decide (65 <= n <= 70) then Some (n - 65 + 10)
  else None.

(** [hex.DecodeString]: [None] stands for a non-nil error (a byte that is
    no hexadecimal digit, or an odd length). *)
Fixpoint DecodeString (s : bytes) : option bytes :=
  match s with
  | [] => Some []
  | [_] => None
  | a :: b :: t =>
      match fromHexChar a, fromHexChar b with
      | Some x, Some y =>
          match DecodeString t with
          | Some r => Some (byte_of_Z (Z.lor (Z.shiftl x 4) y) :: r)
          | None => None
          end
      | _, _ => None
      end
  end.

End Hex.

(** *** pow.go: proof of work *)

Module PoW.

Import SHA256.

Definition byte_and (a b : byte) : byte :=
  byte_of_Z (Z.land (Z_of_byte a) (Z_of_byte b)).

(** The loop [for i := uint8(0); i < full; i++] of [hasLeadingZeros], with
    [todo = full - i] iterations left.  [None] is the run-time panic of an
    index out of range. *)
Fixpoint zero_bytes_from (hash : bytes) (i : Z) (todo : nat) : option bool :=
  match todo with
  | O => Some true
  | S k =>
      match hash !! Z.to_nat i with
      | None => None
      | Some b =>
          if decide (b <> x00) then Some false
          else zero_bytes_from hash (uint8 (i + 1)) k
      end
  end.

Definition hasLeadingZeros (hash : bytes) (n : Z) : option bool :=
  let full := n / 8 in
  let rem := n mod 8 in
  match zero_bytes_from hash 0 (Z.to_nat full) with
  | None => None
  | Some false => Some false
  | Some true =>
      if decide (rem > 0) then
        let mask := byte_of_Z (Z.shiftl 0xFF (8 - rem)) in
        match hash !! Z.to_nat full with
        | None => None
        | Some b =>
            if decide (byte_and b mask <> x00) then Some false else Some true
        end
      else Some true
  end.

(** [buf] of [VerifyPoW] and [SolvePoW] once nonce and solution are in. *)
Definition pow_buf (nonce : bytes) (solution : Z) : bytes :=
  let buf := make 40 in
  let buf := copy_range buf 0 32 nonce in
  with_slice buf 32 40 (PutUint64 (slice buf 32 40) solution).

Definition VerifyPoW (nonce : bytes) (solution : Z) (difficulty : Z)
  : option bool :=
  hasLeadingZeros (Sum256 (pow_buf nonce solution)) difficulty.

Inductive error := ErrExhausted.

(** The search loop of [SolvePoW] from [sol] on; it ends after at most
    [2^64 - sol] iterations, [fuel] bounds their number ([None]: more
    iterations are needed, or [hasLeadingZeros] panicked). *)
Fixpoint SolvePoW_from (nonce : bytes) (difficulty : Z) (fuel : nat) (sol : Z)
  : option (Z + error) :=
  match fuel with
  | O => None
  | S k =>
      match hasLeadingZeros (Sum256 (pow_buf nonce sol)) difficulty with
      | None => None
      | Some true => Some (inl sol)
      | Some false =>
          if decide (sol = 2 ^ 64 - 1) then Some (inr ErrExhausted)
          else SolvePoW_from nonce difficulty k (uint64 (sol + 1))
      end
  end.

Definition SolvePoW (nonce : bytes) (difficulty : Z) (fuel : nat)
  : option (Z + error) :=
  SolvePoW_from nonce difficulty fuel 0.

(** What the specification says, in its words: the bits of a byte string
    are counted from the most significant bit of byte 0. *)
Definition bit_of (hash : bytes) (k : nat) : bool :=
  match hash !! (k / 8)%nat with
  | Some b => Z.testbit (Z_of_byte b) (7 - Z.of_nat (k mod 8))
  | None => true
  end.

(** Number of zero bits before the first one bit, among the bits from [k]
    on ([todo] of them are left). *)
Fixpoint zero_run (hash : bytes) (k todo : nat) : nat :=
  match todo with
  | O => O
  | S t => if bit_of hash k then O else S (zero_run hash (S k) t)
  end.

Definition leading_zero_bits (hash : bytes) : nat :=
  zero_run hash 0 (8 * length hash).

(** The 8-byte big-endian encoding of [s]. *)
Definition be64 (s : Z) : bytes :=
  map (fun i => byte_of_Z (s / 256 ^ (7 - Z.of_nat i))) (seq 0 8).

End PoW.

(** *** dedup.go: the deduplication filter *)

Module Dedup.

Import SHA256.

(** [[8]byte] values, the keys of the [seen] map. *)
Abbreviation hash8 := (list byte) (only parsing).

Definition PacketHash (data : bytes) : hash8 :=
  let h := Sum256 data in
  let id := make 8 in
  copy id (slice h 0 8).

(** [seen] is a [map[[8]byte]struct{}]: a set. *)
Record DedupFilter := { seen : gset bytes; max : Z }.

Definition NewDedupFilter (maxEntries : Z) : DedupFilter :=
  {| seen := ∅; max := maxEntries |}.

(** The result and the filter afterwards. *)
Definition IsDuplicate (d : DedupFilter) (hash : hash8) : bool * DedupFilter :=
  if decide (hash ∈ seen d) then (true, d)
  else
    let d1 :=
      if decide (Z.of_nat (size (seen d)) >= max d)
      then {| seen := ∅; max := max d |}
      else d in
    (false, {| seen := {[hash]} ∪ seen d1; max := max d1 |}).

(** The call [IsDuplicate(hash)] empties the set before it inserts. *)
Definition clears (d : DedupFilter) (hash : hash8) : Prop :=
  (hash ∉ seen d) /\ Z.of_nat (size (seen d)) >= max d.

(** None of the calls for [hs], made in this order from [d] on, empties
    the set. *)
Fixpoint never_clears (d : DedupFilter) (hs : list hash8) : Prop :=
  match hs with
  | [] => True
  | h :: t => ~ clears d h /\ never_clears (IsDuplicate d h).2 t
  end.

(** A sequence of calls, oldest first: the answers and the final filter. *)
Fixpoint IsDuplicate_all (d : DedupFilter) (hs : list hash8)
  : list bool * DedupFilter :=
  match hs with
  | [] => ([], d)
  | h :: t =>
      let '(r, d1) := IsDuplicate d h in
      let '(rs, d2) := IsDuplicate_all d1 t in
      (r :: rs, d2)
  end.

End Dedup.

(** *** buffer.go: the store-and-forward ring buffer *)

Module Buffer.

(** A slot of [packets] is [nil] ([None]) until it is first written.  All
    operations may panic (index out of range, division by zero): [None]. *)
Record PacketBuffer := {
  packets : list (option bytes);
  size : Z;
  head : Z;
  count : Z
}.

Definition NewPacketBuffer (size : Z) : option PacketBuffer :=
  if decide (size < 0) then None
  else Some {| packets := repeat None (Z.to_nat size);
               size := size; head := 0; count := 0 |}.

Definition Add (pb : PacketBuffer) (data : bytes) : option PacketBuffer :=
  let pkt := copy (make (length data)) data in
  if decide (0 <= head pb < Z.of_nat (length (packets pb))) then
    let packets1 := <[Z.to_nat (head pb) := Some pkt]> (packets pb) in
    if decide (size pb = 0) then None
    else
      let head1 := Z.rem (head pb + 1) (size pb) in
      let count1 :=
        if decide (count pb < size pb) then count pb + 1 else count pb in
      Some {| packets := packets1; size := size pb;
              head := head1; count := count1 |}
  else None.

(** The loop of [GetAll] from [i] on, [todo = count - i] iterations left. *)
Fixpoint GetAll_from (pb : PacketBuffer) (start i : Z) (todo : nat)
    (result : list bytes) : option (list bytes) :=
  match todo with
  | O => Some result
  | S k =>
      if decide (size pb = 0) then None
      else
        let idx := Z.rem (start + i) (size pb) in
        if decide (0 <= idx) then
          match packets pb !! Z.to_nat idx with
          | None => None
          | Some None => GetAll_from pb start (i + 1) k result
          | Some (Some pkt) => GetAll_from pb start (i + 1) k (result ++ [pkt])
          end
        else None
  end.

Definition GetAll (pb : PacketBuffer) : option (list bytes) :=
  let start := head pb - count pb in
  let start := if decide (start < 0) then start + size pb else start in
  GetAll_from pb start 0 (Z.to_nat (count pb)) [].

(** The buffer of capacity [N] after the packets of [l] were added, oldest
    first: the packet added at position [i] sits in slot [i mod N] as long
    as fewer than [N] packets came after it. *)
Definition holds (N : nat) (l : list bytes) (pb : PacketBuffer) : Prop :=
  size pb = Z.of_nat N /\
  length (packets pb) = N /\
  head pb = Z.of_nat (length l mod N) /\
  count pb = Z.of_nat (Nat.min (length l) N) /\
  forall i p, l !! i = Some p -> (length l <= i + N)%nat ->
              packets pb !! (i mod N)%nat = Some (Some p).

(** [Add] called for each packet of [l], oldest first. *)
Fixpoint Add_all (pb : PacketBuffer) (l : list bytes) : option PacketBuffer :=
  match l with
  | [] => Some pb
  | p :: t => match Add pb p with
              | Some pb1 => Add_all pb1 t
              | None => None
              end
  end.

End Buffer.

(** *** config.go *)

Module Config.

(** The fields the embedded functions read.  (The rate and time settings
    are [float64] and [time.Duration] values used by the token bucket and
    the socket deadlines.) *)
Record Config := {
  MaxClients : Z;
  MaxPacketSize : Z;
  PoWDifficulty : Z;
  BufferSize : Z;
  DedupMaxEntries : Z;
  KeyDir : bytes;
  CAPubKey : bytes;
  CRLPath : bytes
}.

Definition DefaultConfig : Config := {|
  MaxClients := 20;
  MaxPacketSize := 65536;
  PoWDifficulty := 20;
  BufferSize := 1000;
  DedupMaxEntries := 10000;
  KeyDir := list_byte_of_string "/etc/bitchat";
  CAPubKey := [];
  CRLPath := list_byte_of_string "/etc/bitchat/revoked.crl"
|}.

End Config.

(** *** client.go: one connected phone *)

Module Session.

Import Frame.

Record writeMsg := { frameType : byte; payload : bytes }.

(** [writeCh] is a buffered channel of capacity 64: the frames that wait
    for [WriteLoop], oldest first.  ([conn], [limiter] and [lastActive] are
    the socket, a token bucket and a clock reading.) *)
Record Client := {
  peerID : bytes;
  addr : bytes;
  closed : bool;
  writeCh : list writeMsg
}.

Definition writeCh_cap : nat := 64.

Definition NewClient (peerID addr : bytes) : Client :=
  {| peerID := peerID; addr := addr; closed := false; writeCh := [] |}.

(** [Send]: nothing on a closed client; otherwise the [select] puts the
    frame on the channel when there is room and drops it when not. *)
Definition Send (c : Client) (frameType : byte) (payload : bytes) : Client :=
  if closed c then c
  else if decide (length (writeCh c) < writeCh_cap)%nat then
    {| peerID := peerID c; addr := addr c; closed := closed c;
       writeCh := writeCh c ++
                  [{| frameType := frameType; payload := payload |}] |}
  else c.

Definition SendData (c : Client) (data : bytes) : Client :=
  Send c FrameData data.

(** One iteration of [WriteLoop] on an open channel that is not empty: the
    oldest frame leaves the channel and is written to the socket. *)
Definition WriteLoop_step (c : Client) : option (bytes * Client) :=
  match writeCh c with
  | [] => None
  | msg :: rest =>
      Some (WriteFrame_buf (frameType msg) (payload msg),
            {| peerID := peerID c; addr := addr c; closed := closed c;
               writeCh := rest |})
  end.

Definition Close (c : Client) : Client :=
  if closed c then c
  else {| peerID := peerID c; addr := addr c; closed := true;
          writeCh := writeCh c |}.

(** The payloads of the DATA frames that wait on the channel. *)
Definition queued (c : Client) : list bytes := map payload (writeCh c).

End Session.

(** *** crypto/ed25519

    Signing and verification are the standard library's; the daemon's
    functions are embedded over any implementation of them. *)

Class Ed25519 := {
  ed25519_Sign : bytes -> bytes -> bytes;           (* privateKey, message *)
  ed25519_Verify : bytes -> bytes -> bytes -> bool  (* publicKey, message, sig *)
}.

Module Ed.
Definition PublicKeySize : nat := 32.
Definition PrivateKeySize : nat := 64.
Definition SignatureSize : nat := 64.

(** [PrivateKey.Public()]: a copy of the last 32 bytes. *)
Definition Public (priv : bytes) : bytes := copy (make 32) (drop 32 priv).
End Ed.

(** *** strings, path/filepath, os *)

Module Strings.

(** White space and letter case of ASCII.  (Go's functions also know the
    Unicode white space and letters of multi-byte runes.) *)
Definition isSpace (c : byte) : bool :=
  let n := Z_of_byte c in
  bool_decide (n = 32 \/ 9 <= n <= 13).

Fixpoint TrimLeft (s : bytes) : bytes :=
  match s with
  | c :: t => if isSpace c then TrimLeft t else s
  | [] => []
  end.

Definition TrimSpace (s : bytes) : bytes :=
  rev (TrimLeft (rev (TrimLeft s))).

Definition toLower (c : byte) : byte :=
  let n := Z_of_byte c in
  if decide (65 <= n <= 90) then byte_of_Z (n + 32) else c.

Definition ToLower (s : bytes) : bytes := map toLower s.

(** [strings.Split(s, "\n")] *)
Fixpoint SplitLines (s : bytes) : list bytes :=
  match s with
  | [] => [[]]
  | c :: t =>
      if decide (c = x0a) then [] :: SplitLines t
      else match SplitLines t with
           | l :: ls => (c :: l) :: ls
           | [] => [[c]]
           end
  end.

Definition HasPrefix (s prefix : bytes) : bool :=
  bool_decide (take (length prefix) s = prefix).

(** [filepath.Join(dir, name)] for a plain file name (path cleaning aside). *)
Definition Join (dir name : bytes) : bytes :=
  match dir with
  | [] => name
  | _ => dir ++ [x2f] ++ name
  end.

End Strings.

Module OS.

(** Regular files by path: contents, permission bits, modification time. *)
Record file := { data : bytes; perm : Z; modTime : Z }.

Abbreviation fs := (gmap bytes file) (only parsing).

(** [os.ReadFile]: the contents, or an error ([None]) without the file. *)
Definition ReadFile (files : fs) (path : bytes) : option bytes :=
  data <$> files !! path.

(** A successful [os.WriteFile] at time [now]: an existing file keeps its
    permission bits. *)
Definition WriteFile (files : fs) (path content : bytes) (perm now : Z)
  : gmap bytes file :=
  match files !! path with
  | Some f => <[path := {| data := content; perm := OS.perm f;
                           modTime := now |}]> files
  | None => <[path := {| data := content; perm := perm;
                         modTime := now |}]> files
  end.

(** What the system answers to the calls of [NewRelayAuth]: the key pair
    [ed25519.GenerateKey] draws (public, private) unless it fails, whether
    [os.MkdirAll] and [os.WriteFile] succeed, and the clock. *)
Record Env := {
  generated : option (bytes * bytes);
  mkdir_ok : bool;
  write_ok : bool;
  now : Z
}.

End OS.

(** *** auth.go: the relay identity, the CA and the revocation list *)

(** The observable calls of a run of the receive loop: the
    calls of [ed25519.Verify] and of [Router.RouteFromMesh], in order. *)
Inductive Event :=
| EvVerify (publicKey message sig : bytes)
| EvRouteFromMesh (data : bytes).

Module Auth.

Import Strings OS.

(** [revokedKeys] and [certCache] are [map[string]bool] whose entries are
    all [true]: sets of hexadecimal strings.  [CAPubKey] is [nil] ([None])
    in open mode; [crlModTime] is the zero [time.Time] ([None]) until the
    list is first loaded. *)
Record RelayAuth := {
  PrivateKey : bytes;
  PublicKey : bytes;
  Certificate : bytes;
  CAPubKey : option bytes;
  revokedKeys : gset bytes;
  crlPath : bytes;
  crlModTime : option Z;
  certCache : gset bytes
}.

Inductive error :=
| ErrInvalidCAKey
| ErrGenerateKey
| ErrCreateKeyDir
| ErrSaveKey.

Definition set_revoked (a : RelayAuth) (r : gset bytes) (t : option Z)
  : RelayAuth :=
  {| PrivateKey := PrivateKey a; PublicKey := PublicKey a;
     Certificate := Certificate a; CAPubKey := CAPubKey a;
     revokedKeys := r; crlPath := crlPath a; crlModTime := t;
     certCache := certCache a |}.

Definition set_certCache (a : RelayAuth) (c : gset bytes) : RelayAuth :=
  {| PrivateKey := PrivateKey a; PublicKey := PublicKey a;
     Certificate := Certificate a; CAPubKey := CAPubKey a;
     revokedKeys := revokedKeys a; crlPath := crlPath a;
     crlModTime := crlModTime a; certCache := c |}.

(** The lines of the list that count: trimmed, lower case, neither empty
    nor a comment. *)
Definition crl_entries (content : bytes) : gset bytes :=
  list_to_set
    (filter (fun line => line <> [] /\ HasPrefix line [x23] = false)
            (map (fun line => TrimSpace (ToLower line)) (SplitLines content))).

Definition loadCRL (a : RelayAuth) (files : fs) : RelayAuth :=
  if decide (crlPath a = []) then a
  else
    match files !! crlPath a with
    | None => a
    | Some info =>
        if decide (Some (modTime info) = crlModTime a) then a
        else set_revoked a (crl_entries (data info)) (Some (modTime info))
    end.

(** The blocks of [NewRelayAuth], in its order.  "Load CA public key": *)
Definition load_ca (caKeyHex : bytes) : option bytes + error :=
  if decide (caKeyHex <> []) then
    match Hex.DecodeString (TrimSpace caKeyHex) with
    | Some caPub =>
        if decide (length caPub <> Ed.PublicKeySize) then inr ErrInvalidCAKey
        else inl (Some caPub)
    | None => inr ErrInvalidCAKey
    end
  else inl None.

(** The [else] branch of "Load or generate relay keypair": a new pair
    (private, public) is drawn and the private key saved. *)
Definition generate_and_save (keyPath : bytes) (files : fs) (env : Env)
  : (bytes * bytes + error) * gmap bytes file :=
  match generated env with
  | None => (inr ErrGenerateKey, files)
  | Some (pub, priv) =>
      if negb (mkdir_ok env) then (inr ErrCreateKeyDir, files)
      else if negb (write_ok env) then (inr ErrSaveKey, files)
      else (inl (priv, pub),
            WriteFile files keyPath priv 384 (now env))  (* 0600 *)
  end.

(** "Load or generate relay keypair": the file is used when it can be read
    and has the size of a private key, otherwise the [else] branch runs. *)
Definition load_or_generate (keyPath : bytes) (files : fs) (env : Env)
  : (bytes * bytes + error) * gmap bytes file :=
  match ReadFile files keyPath with
  | Some data =>
      if decide (length data = Ed.PrivateKeySize)
      then (inl (data, Ed.Public data), files)
      else generate_and_save keyPath files env
  | None => generate_and_save keyPath files env
  end.

(** "Load relay certificate": [nil] without a well-formed file. *)
Definition load_cert (certPath : bytes) (files : fs) : bytes :=
  match ReadFile files certPath with
  | Some certData =>
      match Hex.DecodeString (TrimSpace certData) with
      | Some cert =>
          if decide (length cert = Ed.SignatureSize) then cert else []
      | None => []
      end
  | None => []
  end.

(** [NewRelayAuth]: the result and the files afterwards.  (The reload loop
    it starts runs [loadCRL] every 60 seconds.) *)
Definition NewRelayAuth (keyDir caKeyHex crlPath : bytes)
    (files : fs) (env : Env) : (RelayAuth + error) * gmap bytes file :=
  match load_ca caKeyHex with
  | inr e => (inr e, files)
  | inl ca =>
      let keyPath := Join keyDir (list_byte_of_string "relay_ed25519.key") in
      match load_or_generate keyPath files env with
      | (inr e, files1) => (inr e, files1)
      | (inl (priv, pub), files1) =>
          let certPath := Join keyDir (list_byte_of_string "relay.cert") in
          let auth := {| PrivateKey := priv; PublicKey := pub;
                         Certificate := load_cert certPath files1;
                         CAPubKey := ca;
                         revokedKeys := ∅; crlPath := crlPath;
                         crlModTime := None; certCache := ∅ |} in
          (inl (loadCRL auth files1), files1)
      end
  end.

Section WithEd25519.

Context `{Ed25519}.

Definition Sign (a : RelayAuth) (data : bytes) : bytes :=
  ed25519_Sign (PrivateKey a) data.

Definition Verify (a : RelayAuth) (pubKey signature data : bytes)
  : bool * list Event :=
  if decide (length pubKey <> Ed.PublicKeySize \/
             length signature <> Ed.SignatureSize)
  then (false, [])
  else (ed25519_Verify pubKey data signature,
        [EvVerify pubKey data signature]).

Definition IsSelf (a : RelayAuth) (pubKey : bytes) : bool :=
  bool_decide (Hex.EncodeToString pubKey = Hex.EncodeToString (PublicKey a)).

Definition IsRevoked (a : RelayAuth) (pubKey : bytes) : bool :=
  bool_decide (Hex.EncodeToString pubKey ∈ revokedKeys a).

Definition IsTrustedLegacy (a : RelayAuth) (pubKey : bytes) : bool :=
  if IsSelf a pubKey then false else negb (IsRevoked a pubKey).

(** [VerifyCertificate]: [None] is the panic of [ed25519.Verify] on a CA
    key that is not 32 bytes long. *)
Definition VerifyCertificate (a : RelayAuth) (pubKey cert : bytes)
  : option (bool * RelayAuth * list Event) :=
  match CAPubKey a with
  | None => Some (false, a, [])
  | Some ca =>
      if decide (length cert <> Ed.SignatureSize) then Some (false, a, [])
      else if decide (length ca <> Ed.PublicKeySize) then None
      else if negb (ed25519_Verify ca pubKey cert)
      then Some (false, a, [EvVerify ca pubKey cert])
      else Some (true,
                 set_certCache a ({[Hex.EncodeToString pubKey]} ∪ certCache a),
                 [EvVerify ca pubKey cert])
  end.

Definition PublicKeyHex (a : RelayAuth) : bytes :=
  Hex.EncodeToString (PublicKey a).

Definition HasCertificate (a : RelayAuth) : bool :=
  bool_decide (length (Certificate a) = Ed.SignatureSize).

Definition HasCA (a : RelayAuth) : bool :=
  bool_decide (CAPubKey a <> None).

End WithEd25519.

End Auth.

(** *** router.go and mesh.go: the router and the mesh link

    The daemon has one [Router] and at most one [MeshLink]; they point at
    each other ([Router.mesh], [MeshLink.router]) and at the [Client]
    objects.  The pointers to the two singletons are kept as flags (set or
    [nil]), the pointers to clients as addresses into [objs]. *)

Module Relay.

Import Buffer Dedup Auth Config.

Definition pubKeyLen : nat := 32.
Definition certLen : nat := 64.
Definition sigLen : nat := 64.
Definition caHeaderLen : nat := pubKeyLen + certLen + sigLen.

(** [sent]: the datagrams handed to [sendConn.Write], oldest first. *)
Record MeshLink := {
  auth : option RelayAuth;
  router : bool;
  sent : list bytes;
  cfg : Config
}.

(** [clients] is a [map[*Client]bool] whose entries are all [true].
    ([GlobalLimiter] is a token bucket.) *)
Record Router := {
  clients : gset nat;
  mesh : bool;
  buffer : PacketBuffer;
  dedup : DedupFilter
}.

Record World := {
  theRouter : Router;
  theMesh : MeshLink;
  objs : gmap nat Session.Client
}.

Definition NewRouter (cfg : Config) : option Router :=
  match NewPacketBuffer (BufferSize cfg) with
  | Some pb => Some {| clients := ∅; mesh := false; buffer := pb;
                       dedup := NewDedupFilter (DedupMaxEntries cfg) |}
  | None => None
  end.

Definition SetMesh (r : Router) : Router :=
  {| clients := clients r; mesh := true;
     buffer := buffer r; dedup := dedup r |}.

Definition SetRouter (m : MeshLink) : MeshLink :=
  {| auth := auth m; router := true; sent := sent m; cfg := cfg m |}.

Definition SetAuth (m : MeshLink) (a : RelayAuth) : MeshLink :=
  {| auth := Some a; router := router m; sent := sent m; cfg := cfg m |}.

(** [c.SendData(data)] on the client at address [c]. *)
Definition send_to (c : nat) (data : bytes)
    (h : gmap nat Session.Client) : gmap nat Session.Client :=
  alter (fun cl => Session.SendData cl data) c h.

(** [AddClient], first part: under [r.mu] the client enters the set; the
    lock is released before the replay. *)
Definition AddClient_register (w : World) (c : nat) : World :=
  let r := theRouter w in
  {| theRouter := {| clients := {[c]} ∪ clients r; mesh := mesh r;
                     buffer := buffer r; dedup := dedup r |};
     theMesh := theMesh w; objs := objs w |}.

(** [AddClient], second part: the loop over [r.buffer.GetAll()], which
    runs without [r.mu]; [None] when [GetAll] panics. *)
Definition AddClient_replay (w : World) (c : nat) : option World :=
  match GetAll (buffer (theRouter w)) with
  | None => None
  | Some pkts =>
      Some {| theRouter := theRouter w; theMesh := theMesh w;
              objs := foldl (fun h pkt => send_to c pkt h) (objs w) pkts |}
  end.

(** [AddClient] when no other goroutine routes a packet between the two
    parts.  (One that does sees the client in the set already: the steps
    of such a run are [AddClient_register], the routing calls, then
    [AddClient_replay].) *)
Definition AddClient (w : World) (c : nat) : option World :=
  AddClient_replay (AddClient_register w c) c.

Definition RemoveClient (w : World) (c : nat) : World :=
  let r := theRouter w in
  {| theRouter := {| clients := clients r ∖ {[c]}; mesh := mesh r;
                     buffer := buffer r; dedup := dedup r |};
     theMesh := theMesh w; objs := objs w |}.

Definition ClientCount (w : World) : Z :=
  Z.of_nat (base.size (clients (theRouter w))).

(** The loops [for client := range r.clients]: every client of the set but
    [sender] is sent [data] (the order of a map range is not fixed, and
    does not matter: each send changes its own client only). *)
Definition fanout (cs : gset nat) (sender : option nat) (data : bytes)
    (h : gmap nat Session.Client) : gmap nat Session.Client :=
  set_fold (fun c h1 => if decide (Some c = sender) then h1
                        else send_to c data h1) h cs.

Section WithEd25519.

Context `{Ed25519}.

(** [MeshLink.Send] *)
Definition Send (m : MeshLink) (data : bytes) : MeshLink :=
  match auth m with
  | None => m
  | Some a =>
      let sig := Sign a data in
      let msg :=
        if HasCA a && HasCertificate a then
          let msg := make (caHeaderLen + length data) in
          let msg := copy_range msg 0 pubKeyLen (PublicKey a) in
          let msg := copy_range msg pubKeyLen (pubKeyLen + certLen)
                                (Certificate a) in
          let msg := copy_range msg (pubKeyLen + certLen) caHeaderLen sig in
          copy_range msg caHeaderLen (length msg) data
        else
          let legacyHeaderLen := (pubKeyLen + sigLen)%nat in
          let msg := make (legacyHeaderLen + length data) in
          let msg := copy_range msg 0 pubKeyLen (PublicKey a) in
          let msg := copy_range msg pubKeyLen legacyHeaderLen sig in
          copy_range msg legacyHeaderLen (length msg) data in
      {| auth := auth m; router := router m;
         sent := sent m ++ [msg]; cfg := cfg m |}
  end.

(** [RouteFromClient]: [None] when [Add] panics. *)
Definition RouteFromClient (w : World) (sender : nat) (data : bytes)
  : option World :=
  let r := theRouter w in
  let hash := PacketHash data in
  let '(dup, dedup1) := IsDuplicate (dedup r) hash in
  if dup then
    Some {| theRouter := {| clients := clients r; mesh := mesh r;
                            buffer := buffer r; dedup := dedup1 |};
            theMesh := theMesh w; objs := objs w |}
  else
    match Add (buffer r) data with
    | None => None
    | Some buffer1 =>
        Some {| theRouter := {| clients := clients r; mesh := mesh r;
                                buffer := buffer1; dedup := dedup1 |};
                theMesh := if mesh r then Send (theMesh w) data
                           else theMesh w;
                objs := fanout (clients r) (Some sender) data (objs w) |}
    end.

Definition RouteFromMesh (w : World) (data : bytes) : option World :=
  let r := theRouter w in
  let hash := PacketHash data in
  let '(dup, dedup1) := IsDuplicate (dedup r) hash in
  if dup then
    Some {| theRouter := {| clients := clients r; mesh := mesh r;
                            buffer := buffer r; dedup := dedup1 |};
            theMesh := theMesh w; objs := objs w |}
  else
    match Add (buffer r) data with
    | None => None
    | Some buffer1 =>
        Some {| theRouter := {| clients := clients r; mesh := mesh r;
                                buffer := buffer1; dedup := dedup1 |};
                theMesh := theMesh w;
                objs := fanout (clients r) None data (objs w) |}
    end.

Definition with_auth (w : World) (a : RelayAuth) : World :=
  {| theRouter := theRouter w;
     theMesh := {| auth := Some a; router := router (theMesh w);
                   sent := sent (theMesh w); cfg := cfg (theMesh w) |};
     objs := objs w |}.

(** The last steps of an iteration of [RecvLoop], the same in both modes:
    the packet signature, then the router. *)
Definition verify_and_route (w : World) (a : RelayAuth)
    (pubKey sig data : bytes) (tr : list Event)
  : option (World * list Event) :=
  let '(ok, tr2) := Verify a pubKey sig data in
  if negb ok then Some (w, tr ++ tr2)
  else if router (theMesh w) then
    match RouteFromMesh w data with
    | Some w1 => Some (w1, tr ++ tr2 ++ [EvRouteFromMesh data])
    | None => None
    end
  else Some (w, tr ++ tr2).

(** One iteration of the loop of [RecvLoop]: [input] is what
    [ReadFromUDP] returns, an error ([None]) or a datagram, of which the
    buffer takes [MaxPacketSize + caHeaderLen] bytes at most.  The result is
    the state afterwards with the calls made, or [None] for a panic. *)
Definition RecvLoop_iter (w : World) (input : option bytes)
  : option (World * list Event) :=
  let m := theMesh w in
  match input with
  | None => Some (w, [])
  | Some datagram =>
      let buf := take (Z.to_nat (MaxPacketSize (cfg m)
                                 + Z.of_nat caHeaderLen)) datagram in
      let n := length buf in
      match auth m with
      | None => Some (w, [])
      | Some a =>
          if decide (n <= pubKeyLen + sigLen)%nat then Some (w, [])
          else
            let pubKey := copy (make pubKeyLen) (slice buf 0 pubKeyLen) in
            if IsSelf a pubKey then Some (w, [])
            else if IsRevoked a pubKey then Some (w, [])
            else if HasCA a then
              if decide (n <= caHeaderLen)%nat then Some (w, [])
              else
                let cert := copy (make certLen)
                              (slice buf pubKeyLen (pubKeyLen + certLen)) in
                let sig := copy (make sigLen)
                              (slice buf (pubKeyLen + certLen) caHeaderLen) in
                let data := copy (make (n - caHeaderLen))
                              (slice buf caHeaderLen n) in
                match VerifyCertificate a pubKey cert with
                | None => None
                | Some (ok, a1, tr1) =>
                    if negb ok then Some (with_auth w a1, tr1)
                    else verify_and_route (with_auth w a1) a1
                           pubKey sig data tr1
                end
            else
              let legacyHeaderLen := (pubKeyLen + sigLen)%nat in
              if decide (n <= legacyHeaderLen)%nat then Some (w, [])
              else
                let sig := copy (make sigLen)
                              (slice buf pubKeyLen legacyHeaderLen) in
                let data := copy (make (n - legacyHeaderLen))
                              (slice buf legacyHeaderLen n) in
                verify_and_route w a pubKey sig data []
      end
  end.

(** The loop over what the socket delivers, one trace per iteration. *)
Fixpoint RecvLoop (w : World) (inputs : list (option bytes))
  : option (World * list (list Event)) :=
  match inputs with
  | [] => Some (w, [])
  | input :: rest =>
      match RecvLoop_iter w input with
      | None => None
      | Some (w1, tr) =>
          match RecvLoop w1 rest with
          | None => None
          | Some (w2, trs) => Some (w2, tr :: trs)
          end
      end
  end.

(** A packet that comes in, from the client at address [sender] or from
    the mesh ([None]). *)
Definition Route (w : World) (op : option nat * bytes) : option World :=
  match op.1 with
  | Some sender => RouteFromClient w sender op.2
  | None => RouteFromMesh w op.2
  end.

(** Packets coming in one after the other. *)
Fixpoint Route_all (w : World) (ops : list (option nat * bytes))
  : option World :=
  match ops with
  | [] => Some w
  | op :: rest => match Route w op with
                  | Some w1 => Route_all w1 rest
                  | None => None
                  end
  end.

End WithEd25519.

(** [handleConn] after the handshake: the new [Client] object is made at
    the free address [c] and registered; its [WriteLoop] only starts when
    [AddClient] has returned. *)
Definition handleConn_register (w : World) (c : nat) (peerID addr : bytes)
  : option World :=
  AddClient {| theRouter := theRouter w; theMesh := theMesh w;
               objs := <[c := Session.NewClient peerID addr]> (objs w) |} c.

(** [main] when no mesh link could be opened: a router and no client. *)
Definition standalone (cfg : Config) : option World :=
  match NewRouter cfg with
  | Some r => Some {| theRouter := r;
                      theMesh := {| auth := None; router := false;
                                    sent := []; cfg := cfg |};
                      objs := ∅ |}
  | None => None
  end.

(** [main] with the mesh link open and the relay identity [a]. *)
Definition with_mesh (cfg : Config) (a : RelayAuth) : option World :=
  match NewRouter cfg with
  | Some r => Some {| theRouter := SetMesh r;
                      theMesh := {| auth := Some a; router := true;
                                    sent := []; cfg := cfg |};
                      objs := ∅ |}
  | None => None
  end.

(** The buffer holds the packets of [l] and the filter has seen no hash
    but theirs. *)
Definition buffered (N : nat) (l : list bytes) (w : World) : Prop :=
  holds N l (buffer (theRouter w)) /\
  forall h, h ∈ seen (dedup (theRouter w)) -> h ∈ map PacketHash l.

End Relay.

(** A stand-in for Ed25519 to run the functions on examples: the public
    half of a private key signs by hashing.  (No property below depends on
    it; they hold for every implementation.) *)
Definition stub_ed25519 : Ed25519 := {|
  ed25519_Sign priv msg :=
    SHA256.Sum256 (drop 32 priv ++ msg) ++ SHA256.Sum256 (msg ++ drop 32 priv);
  ed25519_Verify pub msg sig :=
    bool_decide (sig = SHA256.Sum256 (pub ++ msg) ++ SHA256.Sum256 (msg ++ pub))
|}.

(** *** Sample data to run the daemon on *)

Module Fixtures.

Import Config.

Definition small_config : Config := {|
  MaxClients := 20;
  MaxPacketSize := 65536;
  PoWDifficulty := 8;
  BufferSize := 3;
  DedupMaxEntries := 100;
  KeyDir := [];
  CAPubKey := [];
  CRLPath := []
|}.

Import Auth Relay.

(** A relay in open mode whose key bytes are all [b]. *)
Definition relay (b : byte) (revoked : gset bytes) : RelayAuth := {|
  PrivateKey := repeat b 64;
  PublicKey := repeat b 32;
  Certificate := [];
  CAPubKey := None;
  revokedKeys := revoked;
  crlPath := [];
  crlModTime := None;
  certCache := ∅
|}.

(** This relay has the key [00..00] and revokes the key [01..01]. *)
Definition this_relay : RelayAuth :=
  relay x00 {[ Hex.EncodeToString (repeat x01 32) ]}.

(** The datagram the relay with key bytes [b] sends for [payload]. *)
Definition datagram_from (b : byte) (payload : bytes) : bytes :=
  let m := {| auth := Some (relay b ∅); router := true; sent := [];
              cfg := small_config |} in
  concat (sent (Send (H := stub_ed25519) m payload)).

Definition hello : bytes := list_byte_of_string "hello".

(** The daemon right after start, as [with_mesh small_config this_relay]
    and as [standalone Config.DefaultConfig] make it. *)
Definition world_open : World := {|
  theRouter := {| clients := ∅; mesh := true;
                  buffer := {| Buffer.packets := repeat None 3;
                               Buffer.size := 3; Buffer.head := 0;
                               Buffer.count := 0 |};
                  dedup := Dedup.NewDedupFilter 100 |};
  theMesh := {| auth := Some this_relay; router := true; sent := [];
                cfg := small_config |};
  objs := ∅
|}.

(** [world_open] when the packet [hello] has been routed before. *)
Definition world_seen : World := {|
  theRouter := {| clients := {[ 7%nat ]}; mesh := true;
                  buffer := {| Buffer.packets :=
                                 [Some hello; None; None];
                               Buffer.size := 3; Buffer.head := 1;
                               Buffer.count := 1 |};
                  dedup := {| Dedup.seen := {[ Dedup.PacketHash hello ]};
                              Dedup.max := 100 |} |};
  theMesh := {| auth := Some this_relay; router := true; sent := [];
                cfg := small_config |};
  objs := {[ 7%nat := Session.NewClient hello [] ]}
|}.

(** [world_open] with a CA key configured. *)
Definition world_ca : World := {|
  theRouter := theRouter world_open;
  theMesh := {| auth := Some {| PrivateKey := PrivateKey this_relay;
                                PublicKey := PublicKey this_relay;
                                Certificate := [];
                                Auth.CAPubKey := Some (repeat x09 32);
                                revokedKeys := revokedKeys this_relay;
                                crlPath := []; crlModTime := None;
                                certCache := ∅ |};
                router := true; sent := []; cfg := small_config |};
  objs := ∅
|}.

Definition world_default : World := {|
  theRouter := {| clients := ∅; mesh := false;
                  buffer := {| Buffer.packets := repeat None 1000;
                               Buffer.size := 1000; Buffer.head := 0;
                               Buffer.count := 0 |};
                  dedup := Dedup.NewDedupFilter 10000 |};
  theMesh := {| auth := None; router := false; sent := [];
                cfg := Config.DefaultConfig |};
  objs := ∅
|}.

(** From this relay itself, from the revoked relay, from a third relay,
    and a receive error. *)
Definition inputs : list (option bytes) :=
  [Some (datagram_from x00 hello); Some (datagram_from x01 hello);
   Some (datagram_from x02 hello); None].

(** The packets [A], [B], [C], [D]. *)
Definition four_packets : list (option nat * bytes) :=
  [(None, [x41]); (None, [x42]); (None, [x43]); (None, [x44])].

(** 65 packets of one byte each, all from the mesh. *)
Definition many_packets : list (option nat * bytes) :=
  map (fun i => (None, [byte_of_Z (Z.of_nat i)])) (seq 0 65).

End Fixtures.

(** *** net: a connection, as one goroutine sees it *)

Module Net.

(** [input]: the bytes that will still arrive before the stream ends;
    [output]: the buffers of the calls of [Write] that went through, oldest
    first; [failing]: for the coming calls of [Write], whether they return
    an error (none does once the list is used up).  A call that fails
    sends nothing. *)
Record Conn := { input : bytes; output : list bytes; failing : list bool }.

(** [conn.Write(buf)]: whether it went through ([err == nil]). *)
Definition Write (c : Conn) (buf : bytes) : bool * Conn :=
  match failing c with
  | true :: later =>
      (false, {| input := input c; output := output c; failing := later |})
  | false :: later =>
      (true, {| input := input c; output := output c ++ [buf];
                failing := later |})
  | [] =>
      (true, {| input := input c; output := output c ++ [buf];
                failing := [] |})
  end.

(** [WriteFrame(conn, frameType, payload)] *)
Definition WriteFrame (c : Conn) (frameType : byte) (payload : bytes)
  : bool * Conn :=
  Write c (Frame.WriteFrame_buf frameType payload).

(** [ReadFrame(conn, maxPayload)] *)
Definition ReadFrame (intSize : Z) (c : Conn) (maxPayload : Z)
  : option ((Frame.Frame + Frame.error) * Conn) :=
  match Frame.ReadFrame intSize (input c) maxPayload with
  | Some (r, rest) =>
      Some (r, {| input := rest; output := output c; failing := failing c |})
  | None => None
  end.

End Net.

(** *** handshake.go: the server side of the handshake *)

Module Handshake.

Import Frame Net Config.

(** [binary.BigEndian.Uint16(b)] for [len(b) >= 2]. *)
Definition Uint16 (b : bytes) : Z :=
  match b with
  | b0 :: b1 :: _ => Z.lor (Z_of_byte b1) (Z.shiftl (Z_of_byte b0) 8)
  | _ => 0
  end.

(** [fmt.Sprintf("%d", n)] *)
Definition Itoa (n : Z) : bytes :=
  list_byte_of_string (DecimalString.NilZero.string_of_int (Z.to_int n)).

(** The errors of [PerformHandshake], in the order of its [return]s. *)
Inductive error :=
| ErrReadHello (e : Frame.error)
| ErrExpectedHello (got : byte)
| ErrHelloTooShort (len : nat)
| ErrPeerIDOverflow
| ErrUnsupportedVersion (version : Z)
| ErrRejectedCertHash (certHashHex peerID : bytes)
| ErrCertHashRequired (peerID : bytes)
| ErrGenerateChallenge
| ErrWriteChallenge
| ErrReadSolution (e : Frame.error)
| ErrExpectedSolution (got : byte)
| ErrSolutionSize (len : nat)
| ErrInvalidPoW (peerID : bytes)
| ErrWriteAccept.

(** pow.go, [GenerateChallenge]: [rnd] is what [rand.Read] puts into the
    32-byte array, [None] when it fails. *)
Definition GenerateChallenge (rnd : option bytes) : option bytes :=
  match rnd with
  | Some r => Some (copy (make 32) r)
  | None => None
  end.

(** A [REJECT] frame with a reason; the error of the write is dropped. *)
Definition reject (conn : Conn) (reason : bytes) : Conn :=
  (WriteFrame conn FrameReject reason).2.

(** "Step 1b: Verify APK cert hash": the error and the connection, or the
    connection to go on with.  [AllowedCertHashes] is a [map[string]bool];
    a key that is absent reads as [false]. *)
Definition check_cert_hash (conn : Conn) (payload peerID : bytes)
    (peerIDLen : nat) (AllowedCertHashes : gmap bytes bool)
  : error * Conn + Conn :=
  let certHashOffset := (3 + peerIDLen)%nat in
  if decide (certHashOffset + 32 <= length payload)%nat then
    let certHash := slice payload certHashOffset (certHashOffset + 32) in
    let certHashHex := Hex.EncodeToString certHash in
    if decide (0 < base.size AllowedCertHashes)%nat then
      if negb (default false (AllowedCertHashes !! certHashHex)) then
        inl (ErrRejectedCertHash certHashHex peerID,
             reject conn (list_byte_of_string "certificate not authorized"))
      else inr conn
    else inr conn
  else if decide (0 < base.size AllowedCertHashes)%nat then
    inl (ErrCertHashRequired peerID,
         reject conn (list_byte_of_string "certificate hash required"))
  else inr conn.

(** Steps 2 to 5: the challenge, the solution, the verdict. *)
Definition challenge_response (intSize : Z) (conn : Conn) (cfg : Config)
    (peerID : bytes) (rnd : option bytes)
  : option ((bytes + error) * Conn) :=
  match GenerateChallenge rnd with
  | None => Some (inr ErrGenerateChallenge, conn)
  | Some nonce =>
      let challenge := make 33 in
      let challenge := copy_range challenge 0 32 nonce in
      let challenge := <[32%nat := byte_of_Z (PoWDifficulty cfg)]> challenge in
      match WriteFrame conn FrameChallenge challenge with
      | (false, conn) => Some (inr ErrWriteChallenge, conn)
      | (true, conn) =>
          match ReadFrame intSize conn (MaxPacketSize cfg) with
          | None => None
          | Some (inr e, conn) => Some (inr (ErrReadSolution e), conn)
          | Some (inl sol, conn) =>
              if decide (Type_ sol <> FrameSolution) then
                Some (inr (ErrExpectedSolution (Type_ sol)), conn)
              else if decide (length (Payload sol) <> 8%nat) then
                Some (inr (ErrSolutionSize (length (Payload sol))), conn)
              else
                let solution := Uint64 (Payload sol) in
                match PoW.VerifyPoW nonce solution (PoWDifficulty cfg) with
                | None => None
                | Some false =>
                    Some (inr (ErrInvalidPoW peerID),
                          reject conn
                            (list_byte_of_string "invalid proof of work"))
                | Some true =>
                    match WriteFrame conn FrameAccept [] with
                    | (false, conn) => Some (inr ErrWriteAccept, conn)
                    | (true, conn) => Some (inl peerID, conn)
                    end
                end
          end
      end
  end.

(** [PerformHandshake]: the peer ID or the error, and the connection
    afterwards; [None] is a panic.  (The deadline the function sets ends
    the input stream.) *)
Definition PerformHandshake (intSize : Z) (conn : Conn) (cfg : Config)
    (AllowedCertHashes : gmap bytes bool) (rnd : option bytes)
  : option ((bytes + error) * Conn) :=
  match ReadFrame intSize conn (MaxPacketSize cfg) with
  | None => None
  | Some (inr e, conn) => Some (inr (ErrReadHello e), conn)
  | Some (inl hello, conn) =>
      if decide (Type_ hello <> FrameHello) then
        Some (inr (ErrExpectedHello (Type_ hello)), conn)
      else if decide (length (Payload hello) < 3)%nat then
        Some (inr (ErrHelloTooShort (length (Payload hello))), conn)
      else
        let version := Uint16 (slice (Payload hello) 0 2) in
        let peerIDLen := Z.to_nat (Z_of_byte (nth 2 (Payload hello) x00)) in
        if decide (length (Payload hello) < 3 + peerIDLen)%nat then
          Some (inr ErrPeerIDOverflow, conn)
        else
          let peerID := slice (Payload hello) 3 (3 + peerIDLen) in
          if decide (version <> ProtocolVersion) then
            Some (inr (ErrUnsupportedVersion version),
                  reject conn (list_byte_of_string "unsupported version "
                               ++ Itoa version))
          else
            match check_cert_hash conn (Payload hello) peerID peerIDLen
                    AllowedCertHashes with
            | inl (e, conn) => Some (inr e, conn)
            | inr conn => challenge_response intSize conn cfg peerID rnd
            end
  end.

End Handshake.

(** *** client.go: the read loop and the write loop of a session *)

Module Loops.

Import Frame Net Relay Config.

(** The two token buckets a session asks, its own and the router's
    [GlobalLimiter]: the answer of the [n]-th call of [Allow] on each, which
    depends on the clock. *)
Record Limiters := {
  client_allows : nat -> bool;
  global_allows : nat -> bool
}.

(** [c.Send(frameType, payload)] on the client at address [c]. *)
Definition send_frame (w : World) (c : nat) (frameType : byte)
    (payload : bytes) : World :=
  {| theRouter := theRouter w; theMesh := theMesh w;
     objs := alter (fun cl => Session.Send cl frameType payload) c (objs w) |}.

(** The deferred calls of [ReadLoop]: [c.Close()], then
    [router.RemoveClient(c)]. *)
Definition leave (w : World) (c : nat) : World :=
  RemoveClient {| theRouter := theRouter w; theMesh := theMesh w;
                  objs := alter Session.Close c (objs w) |} c.

(** No channel holds more than its 64 frames. *)
Definition channels_bounded (w : World) : Prop :=
  forall c cl, objs w !! c = Some cl ->
    (length (Session.writeCh cl) <= Session.writeCh_cap)%nat.

Section WithEd25519.

Context `{Ed25519}.

Variable intSize : Z.
Variable cfg : Config.
Variable lim : Limiters.

(** The [switch] of [ReadLoop] for one frame from the client at address
    [c]; [nc] and [ng] count the calls of [Allow] made so far on the
    client's bucket and on the router's.  [None] is a panic. *)
Definition on_frame (w : World) (c : nat) (frame : Frame) (nc ng : nat)
  : option (World * nat * nat) :=
  if decide (Type_ frame = FrameData) then
    if negb (client_allows lim nc) then Some (w, S nc, ng)
    else if negb (global_allows lim ng) then Some (w, S nc, S ng)
    else
      match RouteFromClient w c (Payload frame) with
      | None => None
      | Some w1 => Some (w1, S nc, S ng)
      end
  else if decide (Type_ frame = FramePing) then
    Some (send_frame w c FramePong [], nc, ng)
  else Some (w, nc, ng).

(** The loop of [ReadLoop], with the bytes [stream] still to come on the
    connection (the read deadline ends the stream).  The result is the
    state when the function has returned, with the two counts; [None] is a
    panic, or [fuel] used up: an iteration that goes on has read five bytes
    at least, so that [S (length stream)] iterations are enough. *)
Fixpoint ReadLoop_from (fuel : nat) (w : World) (c : nat) (stream : bytes)
    (nc ng : nat) : option (World * nat * nat) :=
  match fuel with
  | O => None
  | S fuel1 =>
      match Frame.ReadFrame intSize stream (MaxPacketSize cfg) with
      | None => None
      | Some (inr _, _) => Some (leave w c, nc, ng)
      | Some (inl frame, rest) =>
          match on_frame w c frame nc ng with
          | None => None
          | Some (w1, nc1, ng1) => ReadLoop_from fuel1 w1 c rest nc1 ng1
          end
      end
  end.

Definition ReadLoop (w : World) (c : nat) (stream : bytes)
  : option (World * nat * nat) :=
  ReadLoop_from (S (length stream)) w c stream 0 0.

(** [on_frame] for the frames of a list, in the order they come in. *)
Fixpoint on_frames (w : World) (c : nat) (frames : list Frame) (nc ng : nat)
  : option (World * nat * nat) :=
  match frames with
  | [] => Some (w, nc, ng)
  | frame :: later =>
      match on_frame w c frame nc ng with
      | None => None
      | Some (w1, nc1, ng1) => on_frames w1 c later nc1 ng1
      end
  end.

End WithEd25519.

(** What the loop puts on the channel of its own client for one frame. *)
Definition reply (cl : Session.Client) (f : Frame) : Session.Client :=
  if decide (Type_ f = FramePing) then Session.Send cl FramePong [] else cl.

(** The calls of [Allow] on the client's bucket that were answered with
    [true], among the first [n]. *)
Definition let_through (lim : Limiters) (n : nat) : nat :=
  length (filter (fun i => client_allows lim i = true) (seq 0 n)).

(** The [DATA] frames among the frames that came in. *)
Definition data_frames (frames : list Frame) : list Frame :=
  filter (fun f => Type_ f = FrameData) frames.

(** The bytes of a sequence of frames on the wire. *)
Definition encode (frames : list Frame) : bytes :=
  concat (map (fun f => WriteFrame_buf (Type_ f) (Payload f)) frames).

(** [WriteLoop] over the frames [msgs] that wait on the channel: each is
    written to the connection; a write that fails closes the client and
    ends the loop, what is left stays on the channel. *)
Fixpoint WriteLoop_over (msgs : list Session.writeMsg) (c : Session.Client)
    (conn : Conn) : Session.Client * Conn :=
  match msgs with
  | [] =>
      ({| Session.peerID := Session.peerID c; Session.addr := Session.addr c;
          Session.closed := Session.closed c; Session.writeCh := [] |}, conn)
  | msg :: rest =>
      match WriteFrame conn (Session.frameType msg) (Session.payload msg) with
      | (true, conn1) => WriteLoop_over rest c conn1
      | (false, conn1) =>
          (Session.Close
             {| Session.peerID := Session.peerID c;
                Session.addr := Session.addr c;
                Session.closed := Session.closed c;
                Session.writeCh := rest |}, conn1)
      end
  end.

(** [WriteLoop] until the channel is empty (where it returns if the
    channel was closed, and waits if not). *)
Definition WriteLoop (c : Session.Client) (conn : Conn)
  : Session.Client * Conn :=
  WriteLoop_over (Session.writeCh c) c conn.

End Loops.

(** *** main.go: the settings read from the command line *)

Module Main.

Import Strings.

(** [strings.Split(s, sep)] for a separator of one byte. *)
Fixpoint Split (s : bytes) (sep : byte) : list bytes :=
  match s with
  | [] => [[]]
  | c :: t =>
      if decide (c = sep) then [] :: Split t sep
      else match Split t sep with
           | l :: ls => (c :: l) :: ls
           | [] => [[c]]
           end
  end.

(** [cfg.AllowedCertHashes] for the flag [-allowed-cert-hash]: [nil] (the
    empty map) for the empty string, otherwise the items between commas,
    trimmed and in lower case, the empty ones left out. *)
Definition AllowedCertHashes (certHashes : bytes) : gmap bytes bool :=
  if decide (certHashes <> []) then
    foldl (fun (m : gmap bytes bool) h =>
             let h := TrimSpace (ToLower h) in
             if decide (h <> []) then <[h := true]> m else m)
          ∅ (Split certHashes x2c)
  else ∅.

(** [cfg.PoWDifficulty = uint8( *difficulty )] for the flag
    [-pow-difficulty], an [int]. *)
Definition PoWDifficulty (difficulty : Z) : Z := uint8 difficulty.

End Main.

(** *** The phone's side of the wire (Kotlin): ProofOfWork.kt and the
    frames and the handshake of RelayConnection.kt

    A Kotlin [Byte] is a [byte] here as well, [Int] and [Long] are [Z] with
    their 32 and 64 bits written out where a value can leave the range; an
    exception is an explicit result. *)

Module Phone.

(** The exceptions; the last six are the [IOException]s of
    RelayConnection.kt, told apart by their messages. *)
Inductive thrown :=
| IllegalArgumentException
| IndexOutOfBoundsException
| BufferOverflowException
| EOFException
| PeerIDTooLong (size : nat)
| FrameTooLarge (length : Z)
| ExpectedChallenge (got : byte)
| ChallengeWrongSize (size : nat)
| HandshakeRejected (reason : bytes)
| UnexpectedFrame (got : byte).

(** [b.toInt()]: a [Byte] is signed. *)
Definition toInt (b : byte) : Z := to_int 8 (Z_of_byte b).

Module ProofOfWork.

(** The loop [for (i in 0 until fullBytes)] from [i] on, [todo]
    iterations left; [None] is the exception of an index out of bounds. *)
Fixpoint zero_until (hash : bytes) (i todo : nat) : option bool :=
  match todo with
  | O => Some true
  | S k =>
      match hash !! i with
      | None => None
      | Some b =>
          if decide (b <> x00) then Some false else zero_until hash (S i) k
      end
  end.

(** [hasLeadingZeros(hash, n)] for an [Int] [n]: [/] and [%] round
    towards zero. *)
Definition hasLeadingZeros (hash : bytes) (n : Z) : option bool :=
  let fullBytes := Z.quot n 8 in
  let remainBits := Z.rem n 8 in
  match zero_until hash 0 (Z.to_nat fullBytes) with
  | None => None
  | Some false => Some false
  | Some true =>
      if decide (remainBits > 0) then
        let mask := byte_of_Z (Z.shiftl 0xFF (8 - remainBits)) in
        if decide (fullBytes < 0) then None
        else
          match hash !! Z.to_nat fullBytes with
          | None => None
          | Some b =>
              if decide (Z.land (toInt b) (toInt mask) <> 0)
              then Some false else Some true
          end
      else Some true
  end.

(** [buf] with the nonce and the solution in: [System.arraycopy] takes 32
    bytes of the nonce and throws when there are fewer, [putLong] writes
    the 64 bits of the [Long], most significant byte first. *)
Definition fill (nonce : bytes) (solution : Z) : bytes + thrown :=
  if decide (length nonce < 32)%nat then inr IndexOutOfBoundsException
  else
    let buf := make 40 in
    let buf := copy_range buf 0 32 (take 32 nonce) in
    inl (with_slice buf 32 40 (PutUint64 (slice buf 32 40) (uint64 solution))).

(** [verify(nonce, solution, difficulty)] *)
Definition verify (nonce : bytes) (solution difficulty : Z)
  : bool + thrown :=
  match fill nonce solution with
  | inr e => inr e
  | inl buf =>
      match hasLeadingZeros (SHA256.Sum256 buf) difficulty with
      | Some b => inl b
      | None => inr IndexOutOfBoundsException
      end
  end.

(** The loop [while (true)] of [solve] from [solution] on; [None]: more
    than [fuel] iterations are needed. *)
Fixpoint solve_from (nonce : bytes) (difficulty : Z) (fuel : nat)
    (solution : Z) : option (Z + thrown) :=
  match fuel with
  | O => None
  | S k =>
      match fill nonce solution with
      | inr e => Some (inr e)
      | inl buf =>
          match hasLeadingZeros (SHA256.Sum256 buf) difficulty with
          | None => Some (inr IndexOutOfBoundsException)
          | Some true => Some (inl solution)
          | Some false =>
              solve_from nonce difficulty k (to_int 64 (solution + 1))
          end
      end
  end.

(** [solve(nonce, difficulty)]: the two [require]s, then the search. *)
Definition solve (nonce : bytes) (difficulty : Z) (fuel : nat)
  : option (Z + thrown) :=
  if decide (length nonce <> 32%nat) then Some (inr IllegalArgumentException)
  else if decide (difficulty < 1 \/ 64 < difficulty)
  then Some (inr IllegalArgumentException)
  else solve_from nonce difficulty fuel 0.

End ProofOfWork.

Module RelayConnection.

Import Frame.

Definition MAX_FRAME_PAYLOAD : Z := 65536.
Definition PROTOCOL_VERSION : Z := 1.
Definition CERT_HASH_SIZE : nat := 32.

(** The buffer [writeFrame] writes: [putInt] stores the 32 bits of the
    size, most significant byte first. *)
Definition writeFrame_buf (type : byte) (payload : bytes) : bytes :=
  let buf := make (5 + length payload) in
  let buf := <[0%nat := type]> buf in
  let buf := with_slice buf 1 5
               (PutUint32 (slice buf 1 5) (uint32 (Z.of_nat (length payload)))) in
  copy_range buf 5 (5 + length payload) payload.

(** [readFrame(input)]: the frame and what is left of the stream, or the
    exception; [readInt] reads a signed [Int]. *)
Definition readFrame (input : bytes) : (Frame * bytes) + thrown :=
  match input with
  | [] => inr EOFException
  | type :: input1 =>
      if decide (length input1 < 4)%nat then inr EOFException
      else
        let length_ := to_int 32 (Uint32 (take 4 input1)) in
        let input2 := drop 4 input1 in
        if decide (length_ < 0 \/ length_ > MAX_FRAME_PAYLOAD) then
          inr (FrameTooLarge length_)
        else if decide (length_ > 0) then
          if decide (length input2 < Z.to_nat length_)%nat
          then inr EOFException
          else inl ({| Type_ := type;
                       Payload := take (Z.to_nat length_) input2 |},
                    drop (Z.to_nat length_) input2)
        else inl ({| Type_ := type; Payload := make (Z.to_nat length_) |},
                  input2)
  end.

(** The two bytes [putShort] stores, most significant first. *)
Definition putShort (v : Z) : bytes :=
  [byte_of_Z (Z.shiftr v 8); byte_of_Z v].

(** A [ByteBuffer]: the array and the position; [put(src)]. *)
Definition put (b : bytes * nat) (src : bytes) : (bytes * nat) + thrown :=
  let '(array, position) := b in
  if decide (position + length src <= length array)%nat then
    inl (copy_range array position (position + length src) src,
         (position + length src)%nat)
  else inr BufferOverflowException.

(** The payload of the [HELLO] frame: version, length of the peer ID,
    peer ID, and the hash of the signing certificate when the system gives
    one. *)
Definition helloPayload (peerIdBytes : bytes) (certHash : option bytes)
  : bytes + thrown :=
  let payloadSize :=
    (3 + length peerIdBytes
     + match certHash with Some _ => CERT_HASH_SIZE | None => 0 end)%nat in
  let b := (make payloadSize, 0%nat) in
  match put b (putShort PROTOCOL_VERSION) with
  | inr e => inr e
  | inl b =>
      match put b [byte_of_Z (Z.of_nat (length peerIdBytes))] with
      | inr e => inr e
      | inl b =>
          match put b peerIdBytes with
          | inr e => inr e
          | inl b =>
              match certHash with
              | None => inl b.1
              | Some h =>
                  match put b h with
                  | inr e => inr e
                  | inl b => inl b.1
                  end
              end
          end
      end
  end.

(** How [performHandshake] ends. *)
Inductive outcome :=
| Accepted
| Thrown (e : thrown).

(** The end of [performHandshake]: the answer of the relay. *)
Definition response (written : list bytes) (input : bytes)
  : list bytes * bytes * outcome :=
  match readFrame input with
  | inr e => (written, [], Thrown e)
  | inl (frame, input1) =>
      if decide (Type_ frame = FrameAccept) then (written, input1, Accepted)
      else if decide (Type_ frame = FrameReject) then
        (written, input1, Thrown (HandshakeRejected (Payload frame)))
      else (written, input1, Thrown (UnexpectedFrame (Type_ frame)))
  end.

(** [performHandshake(input, output)] for the peer ID [peerIdBytes] and
    the certificate hash the system gives: the buffers written to
    [output] (whose writes are taken to go through), what is left of
    [input], and how the function ends.  [None]: [solve] needs more than
    [fuel] iterations. *)
Definition performHandshake (peerIdBytes : bytes) (certHash : option bytes)
    (input : bytes) (fuel : nat) : option (list bytes * bytes * outcome) :=
  if decide (255 < length peerIdBytes)%nat then
    Some ([], input, Thrown (PeerIDTooLong (length peerIdBytes)))
  else
    match helloPayload peerIdBytes certHash with
    | inr e => Some ([], input, Thrown e)
    | inl hello =>
        let written := [writeFrame_buf FrameHello hello] in
        match readFrame input with
        | inr e => Some (written, [], Thrown e)
        | inl (challenge, input1) =>
            if decide (Type_ challenge <> FrameChallenge) then
              Some (written, input1,
                    Thrown (ExpectedChallenge (Type_ challenge)))
            else if decide (length (Payload challenge) <> 33%nat) then
              Some (written, input1,
                    Thrown (ChallengeWrongSize (length (Payload challenge))))
            else
              let nonce := slice (Payload challenge) 0 32 in
              let difficulty :=
                Z.land (toInt (nth 32 (Payload challenge) x00)) 0xFF in
              match ProofOfWork.solve nonce difficulty fuel with
              | None => None
              | Some (inr e) => Some (written, input1, Thrown e)
              | Some (inl solution) =>
                  let solutionPayload :=
                    PutUint64 (make 8) (uint64 solution) in
                  Some (response
                          (written
                           ++ [writeFrame_buf FrameSolution solutionPayload])
                          input1)
              end
        end
    end.

(** The loop of [readLoop] while [connected] stays set: the payloads
    handed to [onDataReceived], oldest first, and the exception that ends
    the loop.  [None]: [fuel] used up; a frame takes five bytes at least,
    so that [S (length input)] iterations are enough. *)
Fixpoint readLoop_from (fuel : nat) (input : bytes) (received : list bytes)
  : option (list bytes * thrown) :=
  match fuel with
  | O => None
  | S k =>
      match readFrame input with
      | inr e => Some (received, e)
      | inl (frame, input1) =>
          if decide (Type_ frame = FrameData)
          then readLoop_from k input1 (received ++ [Payload frame])
          else readLoop_from k input1 received
      end
  end.

Definition readLoop (input : bytes) : option (list bytes * thrown) :=
  readLoop_from (S (length input)) input [].

End RelayConnection.

End Phone.

(** *** More sample data: a phone, its frames, a certified relay *)

Module Scenario.

Import Frame Net Config Auth Relay Fixtures.

(** The payload of a [HELLO] of version 1 for the peer ID [ab], without
    and with a certificate hash. *)
Definition hello_ab : bytes := [x00; x01; x02; x61; x62].
Definition cert_07 : bytes := repeat x07 32.
Definition hello_ab_cert : bytes := hello_ab ++ cert_07.

Definition allowed_07 : gmap bytes bool :=
  {[ Hex.EncodeToString cert_07 := true ]}.

(** What a client sends: [HELLO], [SOLUTION], then a [PING]. *)
Definition ping : bytes := WriteFrame_buf FramePing [].

Definition from_phone (hello : bytes) (solution : Z) : Conn :=
  {| input := WriteFrame_buf FrameHello hello
              ++ WriteFrame_buf FrameSolution (PutUint64 (make 8) solution)
              ++ ping;
     output := []; failing := [] |}.

(** What the relay answers for the nonce [00..00] at difficulty 8. *)
Definition challenge_8 : bytes :=
  WriteFrame_buf FrameChallenge (make 32 ++ [x08]).
Definition accept : bytes := WriteFrame_buf FrameAccept [].
Definition reject_pow : bytes :=
  WriteFrame_buf FrameReject (list_byte_of_string "invalid proof of work").

(** The connection when the handshake has gone through. *)
Definition handshake_done : Conn :=
  {| input := ping; output := [challenge_8; accept]; failing := [] |}.

(** A [PING], a [DATA] frame and a frame of no known type. *)
Definition three_frames : list Frame :=
  [{| Type_ := FramePing; Payload := [] |};
   {| Type_ := FrameData; Payload := [x41] |};
   {| Type_ := x7f; Payload := [x01] |}].

(** Buckets that let everything through, and a client's bucket that lets
    every other packet through. *)
Definition always : Loops.Limiters :=
  {| Loops.client_allows := fun _ => true;
     Loops.global_allows := fun _ => true |}.
Definition every_other : Loops.Limiters :=
  {| Loops.client_allows := Nat.even;
     Loops.global_allows := fun _ => true |}.

(** A client with three frames on its channel. *)
Definition waiting : Session.Client :=
  {| Session.peerID := [x61; x62]; Session.addr := [];
     Session.closed := false;
     Session.writeCh :=
       [{| Session.frameType := FrameData; Session.payload := [x41] |};
        {| Session.frameType := FramePong; Session.payload := [] |};
        {| Session.frameType := FrameData; Session.payload := [x42] |}] |}.

Definition reliable : Conn := {| input := []; output := []; failing := [] |}.
Definition breaking : Conn :=
  {| input := []; output := []; failing := [false; true; false] |}.

(** The relay with key bytes [b], certified by the CA with key bytes
    [09]. *)
Definition certified (b : byte) : RelayAuth := {|
  PrivateKey := repeat b 64;
  PublicKey := repeat b 32;
  Certificate := ed25519_Sign (Ed25519 := stub_ed25519)
                   (repeat x09 64) (repeat b 32);
  Auth.CAPubKey := Some (repeat x09 32);
  revokedKeys := ∅;
  crlPath := [];
  crlModTime := None;
  certCache := ∅
|}.

Definition link (a : RelayAuth) : MeshLink :=
  {| auth := Some a; router := true; sent := []; cfg := small_config |}.

(** A revocation list with a comment, the key [ab..ab] in upper case with
    blanks around it, and an empty line. *)
Definition crl_content : bytes :=
  list_byte_of_string "# revoked relays" ++ [x0a; x20]
  ++ concat (repeat [x41; x42] 32)
  ++ [x20; x0a; x0a].

Definition crl_path : bytes := list_byte_of_string "/etc/bitchat/revoked.crl".

Definition watching : RelayAuth := {|
  PrivateKey := repeat x00 64;
  PublicKey := repeat x00 32;
  Certificate := [];
  Auth.CAPubKey := None;
  revokedKeys := ∅;
  crlPath := crl_path;
  crlModTime := None;
  certCache := ∅
|}.

Definition crl_files : gmap bytes OS.file :=
  {[ crl_path := {| OS.data := crl_content; OS.perm := 420;
                    OS.modTime := 5 |} ]}.

End Scenario.

(** *** ratelimit.go: the token bucket *)

Module RateLimit.

Import SpecFloat QArith_base.
Local Open Scope Z_scope.

(** A [float64]: 53 bits of precision, exponents below 1024.  The values
    of the type are the members of [spec_float] that [valid_binary]
    accepts. *)
Definition prec : Z := 53.
Definition emax : Z := 1024.
Abbreviation float64 := spec_float (only parsing).

Definition is_float64 (x : float64) : Prop := valid_binary prec emax x = true.

(** [float64(n)] for an integer [n], and the constant [1]. *)
Definition of_int (n : Z) : float64 := binary_normalize prec emax n 0 false.
















End RateLimit.

(** *** Sample data: buckets *)

Module Buckets.

Import SpecFloat RateLimit.
Local Open Scope Z_scope.

Definition rate_100 : float64 := of_int 100.




End Buckets.

(** *** More sample data: a router with sessions, a session that arrives *)

Module Crowd.

Import Frame Config Auth Relay Fixtures.

(** Three registered sessions, at 7 and 8 open and idle, at 9 closed; the
    object at 10 is not registered.  The buffer has room for three packets
    and the mesh link is set. *)
Definition world_three : World := {|
  theRouter := {| clients := {[ 7%nat; 8%nat; 9%nat ]}; mesh := true;
                  buffer := {| Buffer.packets := repeat None 3;
                               Buffer.size := 3; Buffer.head := 0;
                               Buffer.count := 0 |};
                  dedup := Dedup.NewDedupFilter 100 |};
  theMesh := {| auth := Some this_relay; router := true; sent := [];
                cfg := small_config |};
  objs := {[ 7%nat := Session.NewClient [x61] [];
             8%nat := Session.NewClient [x62] [];
             9%nat := Session.Close (Session.NewClient [x63] []);
             10%nat := Session.NewClient [x64] [] ]}
|}.

(** [handleConn] has made the [Client] object of a new session at
    address 7. *)
Definition arriving (w : World) : World :=
  {| theRouter := theRouter w; theMesh := theMesh w;
     objs := <[7%nat := Session.NewClient hello []]> (objs w) |}.

(** A packet [E] that comes from the mesh while the session registers. *)
Definition live_packet : option nat * bytes := (None, [x45]).

End Crowd.
(** ** Part II: properties *)

Section GoFacts.

Lemma byte_of_Z_of_byte b : byte_of_Z (Z_of_byte b) = b.
Proof. destruct b; reflexivity. Qed.

Lemma Z_of_byte_range b : 0 <= Z_of_byte b < 256.
Proof.
  unfold Z_of_byte. pose proof (Byte.to_N_bounded b). lia.
Qed.

Lemma Z_of_byte_of_Z x : Z_of_byte (byte_of_Z x) = x mod 256.
Proof.
  unfold byte_of_Z, Z_of_byte.
  assert (H : 0 <= x mod 256 < 256) by (apply Z.mod_pos_bound; lia).
  destruct (Byte.of_N (Z.to_N (x mod 256))) as [b|] eqn:E.
  - apply Byte.to_of_N in E. rewrite E. lia.
  - apply Byte.of_N_None_iff in E. lia.
Qed.

Lemma length_copy {A} (dst src : list A) : length (copy dst src) = length dst.
Proof.
  unfold copy. rewrite length_app, length_take, length_drop. lia.
Qed.

Lemma copy_exact {A} (dst src : list A) :
  length dst = length src -> copy dst src = src.
Proof.
  intros H. unfold copy. rewrite H, firstn_all, drop_ge by lia.
  apply app_nil_r.
Qed.

End GoFacts.

(** *** Big-endian integers *)

Section BigEndian.

Lemma testbit_above_pow2 v k n :
  0 <= v < 2 ^ k -> 0 <= k <= n -> Z.testbit v n = false.
Proof.
  intros Hv Hk. destruct (Z.eq_dec v 0) as [->|Hne].
  - apply Z.bits_0.
  - apply Z.bits_above_log2; [lia|].
    assert (Z.log2 v < k) by (apply Z.log2_lt_pow2; lia). lia.
Qed.

Lemma testbit_Z_of_byte_of_Z x n :
  Z.testbit (Z_of_byte (byte_of_Z x)) n = ((n <? 8) && Z.testbit x n)%bool.
Proof.
  rewrite Z_of_byte_of_Z. change 256 with (2 ^ 8).
  apply Z.testbit_mod_pow2. lia.
Qed.

Ltac bits_cases :=
  rewrite ?Z.lor_spec, ?Z.shiftl_spec, ?testbit_Z_of_byte_of_Z by lia;
  repeat match goal with
    | |- context [?a <? ?b] =>
        destruct (Z.ltb_spec a b); simpl; try lia
    end;
  repeat match goal with
    | |- context [Z.testbit (Z.shiftr ?a ?s) ?m] =>
        first [ rewrite (Z.testbit_neg_r (Z.shiftr a s) m) by lia
              | rewrite (Z.shiftr_spec a s m) by lia ]
    end;
  rewrite ?orb_false_r, ?Z.sub_add; simpl; try reflexivity.

Lemma Uint32_PutUint32 (b : bytes) v :
  length b = 4%nat -> 0 <= v < 2 ^ 32 -> Uint32 (PutUint32 b v) = v.
Proof.
  intros Hb Hv. unfold PutUint32. rewrite copy_exact by exact Hb.
  unfold Uint32. apply Z.bits_inj'. intros n Hn.
  bits_cases.
  symmetry. apply (testbit_above_pow2 v 32); lia.
Qed.

Lemma Uint64_PutUint64 (b : bytes) v :
  length b = 8%nat -> 0 <= v < 2 ^ 64 -> Uint64 (PutUint64 b v) = v.
Proof.
  intros Hb Hv. unfold PutUint64. rewrite copy_exact by exact Hb.
  unfold Uint64. apply Z.bits_inj'. intros n Hn.
  bits_cases.
  symmetry. apply (testbit_above_pow2 v 64); lia.
Qed.

End BigEndian.

(** *** The frame codec *)

Section FrameCodec.

Import Frame.

Lemma WriteFrame_buf_layout t p :
  WriteFrame_buf t p =
  t :: PutUint32 (make 4) (uint32 (Z.of_nat (length p))) ++ p.
Proof.
  unfold WriteFrame_buf, copy_range, with_slice, slice, make. simpl.
  do 5 f_equal. rewrite !drop_0, Nat.sub_0_r, firstn_all, drop_all, app_nil_r.
  apply copy_exact, repeat_length.
Qed.

Lemma length_WriteFrame_buf t p :
  length (WriteFrame_buf t p) = (5 + length p)%nat.
Proof.
  rewrite WriteFrame_buf_layout. reflexivity.
Qed.

(** C7: reading back what [WriteFrame] wrote gives the frame, whatever
    follows it on the stream and whatever the width of [int]; the payload
    fits the reader's limit, an [int], and the limit fits the 32-bit length
    field. *)
Theorem ReadFrame_WriteFrame intSize t p maxPayload rest :
  intSize = 32 \/ intSize = 64 ->
  Z.of_nat (length p) <= maxPayload ->
  maxPayload < 2 ^ (intSize - 1) ->
  maxPayload < 2 ^ 32 ->
  ReadFrame intSize (WriteFrame_buf t p ++ rest) maxPayload =
  Some (inl {| Type_ := t; Payload := p |}, rest).
Proof.
  intros Hsize Hp Hint Hmax.
  rewrite WriteFrame_buf_layout.
  set (v := Z.of_nat (length p)).
  assert (Hv : uint32 v = v) by (unfold uint32; apply Z.mod_small; lia).
  rewrite Hv.
  pose proof (Uint32_PutUint32 (make 4) v eq_refl ltac:(lia)) as Hrt.
  set (hdr := PutUint32 (make 4) v) in *.
  assert (Hh : length hdr = 4%nat) by (unfold hdr, PutUint32; apply length_copy).
  destruct hdr as [|h0 [|h1 [|h2 [|h3 [|]]]]]; try discriminate Hh.
  unfold ReadFrame, ReadFull. simpl length.
  rewrite decide_True by lia.
  cbn [take drop app nth slice Nat.sub].
  rewrite !firstn_O, !drop_0, Hrt.
  assert (to_int intSize v = v) as ->.
  { unfold to_int. rewrite Z.mod_small by (destruct Hsize as [-> | ->]; lia).
    now rewrite decide_True by lia. }
  rewrite decide_False by lia. rewrite decide_False by lia.
  destruct (decide (v > 0)) as [Hpos|Hzero].
  - rewrite decide_True by (rewrite length_app; lia).
    unfold v. rewrite Nat2Z.id.
    rewrite take_app_length, drop_app_length. reflexivity.
  - assert (length p = 0%nat) as Hl by lia.
    destruct p; [|discriminate Hl]. reflexivity.
Qed.

(** The same with the daemon's own limit, [MaxPacketSize = 65536], on a
    router. *)
Lemma ReadFrame_WriteFrame_witness :
  ReadFrame 32 (WriteFrame_buf FrameData [x68; x69] ++ [x20]) 65536 =
  Some (inl {| Type_ := FrameData; Payload := [x68; x69] |}, [x20]).
Proof.
  apply (ReadFrame_WriteFrame 32 FrameData [x68; x69] 65536 [x20]);
    simpl; lia.
Defined.

(** On a router a length field of [2^31] or more passes the size check,
    as a negative [int], and the allocation of the payload panics; a native
    build answers with the error. *)
Example ReadFrame_length_not_an_int :
  ReadFrame 32 [x10; x80; x00; x00; x00] 65536 = None /\
  ReadFrame 64 [x10; x80; x00; x00; x00] 65536 =
    Some (inr (ErrFrameTooLarge (2 ^ 31) 65536), []).
Proof. split; reflexivity. Qed.

End FrameCodec.

(** *** SHA-256 *)

Section SHA256Facts.

Import SHA256.

Example K_first_last :
  nth 0 K 0 = 0x428a2f98 /\ nth 63 K 0 = 0xc67178f2 /\ length K = 64%nat.
Proof. repeat split. Qed.

Example Sum256_empty :
  Some (Sum256 []) = Hex.DecodeString (list_byte_of_string
    "e3b0c44298fc1c149afbf4c8996fb92427ae41e4649b934ca495991b7852b855").
Proof. vm_compute. reflexivity. Qed.

Example Sum256_abc :
  Some (Sum256 (list_byte_of_string "abc")) = Hex.DecodeString (list_byte_of_string
    "ba7816bf8f01cfea414140de5dae2223b00361a396177a9cb410ff61f20015ad").
Proof. vm_compute. reflexivity. Qed.

Example Sum256_two_blocks :
  Some (Sum256 (list_byte_of_string
    "abcdbcdecdefdefgefghfghighijhijkijkljklmklmnlmnomnopnopq")) =
  Hex.DecodeString (list_byte_of_string
    "248d6a61d20638b8e5c026930c3e6039a33ce45964ff2167f6ecedd419db06c1").
Proof. vm_compute. reflexivity. Qed.

Lemma length_digest s : length (digest s) = 32%nat.
Proof. destruct s as [[[[[[[a b] c] d] e] f] g] h]. reflexivity. Qed.

Lemma length_Sum256 data : length (Sum256 data) = 32%nat.
Proof. apply length_digest. Qed.

End SHA256Facts.

(** *** Proof of work *)

Section PoWFacts.

Import SHA256 PoW.

Example VerifyPoW_zero_nonce_0 :
  VerifyPoW (make 32) 0 0 = Some true /\ VerifyPoW (make 32) 0 8 = Some false.
Proof. vm_compute. split; reflexivity. Qed.

Example SolvePoW_zero_nonce_8 : SolvePoW (make 32) 8 1000 = Some (inl 206).
Proof. vm_compute. reflexivity. Qed.

Example leading_zero_bits_ex :
  leading_zero_bits (Sum256 (make 32 ++ be64 206)) = 12%nat.
Proof. vm_compute. reflexivity. Qed.

(** The buffer that is hashed is the nonce followed by the solution. *)
Lemma pow_buf_layout nonce s :
  length nonce = 32%nat -> pow_buf nonce s = nonce ++ PutUint64 (make 8) s.
Proof.
  intros Hn. unfold pow_buf, copy_range, with_slice, slice.
  change (take 0 (make 40)) with (@nil byte).
  change (take (32 - 0) (drop 0 (make 40))) with (make 32).
  rewrite copy_exact by (rewrite Hn; reflexivity).
  change (drop 32 (make 40)) with (make 8). cbn [app].
  rewrite take_app_length' by (symmetry; exact Hn).
  rewrite drop_app_length' by (symmetry; exact Hn).
  assert (length (nonce ++ make 8) = 40%nat) as Hl
    by (rewrite length_app, Hn; reflexivity).
  rewrite (drop_ge _ 40) by lia.
  rewrite app_nil_r. reflexivity.
Qed.

Lemma PutUint64_be64 s : PutUint64 (make 8) s = be64 s.
Proof.
  unfold PutUint64. rewrite copy_exact by reflexivity.
  unfold be64. cbn [map seq].
  rewrite !Z.shiftr_div_pow2 by lia.
  repeat f_equal. cbn. now rewrite Z.div_1_r.
Qed.

(** A byte is zero when its eight bits are. *)
Lemma byte_zero_bits b :
  b = x00 <->
  forall j, (j < 8)%nat -> Z.testbit (Z_of_byte b) (7 - Z.of_nat j) = false.
Proof.
  split.
  - intros -> j _. apply Z.bits_0.
  - intros H. rewrite <- (byte_of_Z_of_byte b).
    replace (Z_of_byte b) with 0; [reflexivity|].
    symmetry. apply Z.bits_inj'. intros n Hn. rewrite Z.bits_0.
    destruct (Z_lt_le_dec n 8) as [Hlt|Hge].
    + specialize (H (Z.to_nat (7 - n)) ltac:(lia)).
      replace (7 - Z.of_nat (Z.to_nat (7 - n))) with n in H by lia.
      exact H.
    + apply (testbit_above_pow2 _ 8); [apply Z_of_byte_range | lia].
Qed.

Lemma land_byte_small b m :
  Z.land (Z_of_byte b) (Z_of_byte m) mod 256 =
  Z.land (Z_of_byte b) (Z_of_byte m).
Proof.
  change 256 with (2 ^ 8). apply Z.bits_inj'. intros n Hn.
  rewrite Z.testbit_mod_pow2, Z.land_spec by lia.
  destruct (Z.ltb_spec n 8) as [Hlt|Hge]; [reflexivity|].
  rewrite (testbit_above_pow2 (Z_of_byte b) 8 n);
    [reflexivity | apply Z_of_byte_range | lia].
Qed.

Lemma byte_and_zero b m :
  byte_and b m = x00 <-> Z.land (Z_of_byte b) (Z_of_byte m) = 0.
Proof.
  unfold byte_and. split; intros H.
  - apply (f_equal Z_of_byte) in H. rewrite Z_of_byte_of_Z in H.
    rewrite land_byte_small in H. exact H.
  - rewrite H. reflexivity.
Qed.

(** The mask [byte(0xFF << (8 - rem))] selects the [rem] top bits. *)
Lemma byte_and_mask_bits b (r : nat) :
  (0 < r < 8)%nat ->
  byte_and b (byte_of_Z (Z.shiftl 0xFF (8 - Z.of_nat r))) = x00 <->
  forall j, (j < r)%nat -> Z.testbit (Z_of_byte b) (7 - Z.of_nat j) = false.
Proof.
  intros Hr. rewrite byte_and_zero. split.
  - intros H j Hj.
    apply (f_equal (fun z => Z.testbit z (7 - Z.of_nat j))) in H.
    rewrite Z.land_spec, Z.bits_0, testbit_Z_of_byte_of_Z in H.
    rewrite Z.shiftl_spec in H by lia.
    replace (7 - Z.of_nat j <? 8) with true in H by (symmetry; apply Z.ltb_lt; lia).
    change 0xFF with (Z.ones 8) in H.
    rewrite Z.ones_spec_low in H by lia.
    now rewrite andb_true_r in H.
  - intros H. apply Z.bits_inj'. intros n Hn.
    rewrite Z.land_spec, Z.bits_0, testbit_Z_of_byte_of_Z.
    rewrite Z.shiftl_spec by lia.
    change 0xFF with (Z.ones 8).
    destruct (Z.ltb_spec n 8) as [Hlt|Hge]; [|apply andb_false_r].
    destruct (Z_lt_le_dec n (8 - Z.of_nat r)) as [Hlow|Hhigh].
    + rewrite (Z.testbit_neg_r (Z.ones 8)) by lia. apply andb_false_r.
    + specialize (H (Z.to_nat (7 - n)) ltac:(lia)).
      replace (7 - Z.of_nat (Z.to_nat (7 - n))) with n in H by lia.
      rewrite H. reflexivity.
Qed.

Lemma zero_bytes_from_spec hash todo : forall i : nat,
  (i + todo <= length hash)%nat -> (i + todo < 256)%nat ->
  exists b, zero_bytes_from hash (Z.of_nat i) todo = Some b /\
    (b = true <->
     forall j, (i <= j < i + todo)%nat -> hash !! j = Some x00).
Proof.
  induction todo as [|k IH]; intros i Hlen Hsmall; cbn [zero_bytes_from].
  - exists true. split; [reflexivity|]. split; [intros _ j Hj; lia | reflexivity].
  - rewrite Nat2Z.id.
    destruct (hash !! i) as [b0|] eqn:Hi;
      [|apply lookup_ge_None in Hi; lia].
    destruct (decide (b0 <> x00)) as [Hnz|Hz].
    + exists false. split; [reflexivity|]. split; [discriminate|].
      intros H. specialize (H i ltac:(lia)). congruence.
    + assert (b0 = x00) as -> by (destruct (decide (b0 = x00)); tauto).
      replace (uint8 (Z.of_nat i + 1)) with (Z.of_nat (S i))
        by (unfold uint8; rewrite Z.mod_small; lia).
      destruct (IH (S i) ltac:(lia) ltac:(lia)) as (b & Hb & Hspec).
      exists b. split; [exact Hb|]. rewrite Hspec. split.
      * intros H j Hj. destruct (decide (j = i)) as [->|Hne]; [exact Hi|].
        apply H. lia.
      * intros H j Hj. apply H. lia.
Qed.

Lemma zero_run_spec hash todo : forall k n,
  (n <= zero_run hash k todo)%nat <->
  (n <= todo)%nat /\ forall j, (j < n)%nat -> bit_of hash (k + j) = false.
Proof.
  induction todo as [|t IH]; intros k n; cbn [zero_run].
  - split; [intros H; split; [exact H | intros j Hj; lia] | tauto].
  - destruct (bit_of hash k) eqn:Hk.
    + split.
      * intros H. split; [lia | intros j Hj; lia].
      * intros [_ H]. destruct n as [|n]; [lia|].
        specialize (H 0%nat ltac:(lia)). rewrite Nat.add_0_r in H. congruence.
    + destruct n as [|n].
      * split; [intros _; split; [lia | intros j Hj; lia] | lia].
      * rewrite <- Nat.succ_le_mono, IH, <- Nat.succ_le_mono.
        split; intros [Hn H]; (split; [exact Hn|]); intros j Hj.
        -- destruct j as [|j]; [now rewrite Nat.add_0_r|].
           rewrite Nat.add_succ_r. apply (H j). lia.
        -- specialize (H (S j) ltac:(lia)).
           now rewrite Nat.add_succ_r in H.
Qed.

Lemma bit_of_byte hash (i r : nat) b :
  hash !! i = Some b -> (r < 8)%nat ->
  bit_of hash (8 * i + r) = Z.testbit (Z_of_byte b) (7 - Z.of_nat r).
Proof.
  intros Hi Hr. unfold bit_of.
  replace ((8 * i + r) / 8)%nat with i
    by (symmetry; rewrite Nat.mul_comm, Nat.div_add_l, Nat.div_small; lia).
  replace ((8 * i + r) mod 8)%nat with r
    by (symmetry; rewrite Nat.add_comm, Nat.mul_comm, Nat.Div0.mod_add;
        apply Nat.mod_small; lia).
  now rewrite Hi.
Qed.

Lemma bits_zero_split hash (full rem : nat) :
  (rem < 8)%nat -> (full <= length hash)%nat ->
  (forall j, (j < 8 * full + rem)%nat -> bit_of hash j = false) <->
  (forall i, (i < full)%nat -> hash !! i = Some x00) /\
  (forall r, (r < rem)%nat -> bit_of hash (8 * full + r) = false).
Proof.
  intros Hrem Hfull. split.
  - intros H. split.
    + intros i Hi.
      destruct (hash !! i) as [b|] eqn:Hb;
        [|apply lookup_ge_None in Hb; lia].
      f_equal. apply byte_zero_bits. intros r Hr.
      rewrite <- (bit_of_byte hash i r b Hb Hr). apply H. lia.
    + intros r Hr. apply H. lia.
  - intros [Hbytes Hbits] j Hj.
    pose proof (Nat.div_mod_eq j 8) as Hdm.
    assert (j mod 8 < 8)%nat as Hr by (apply Nat.mod_upper_bound; lia).
    destruct (decide (j / 8 < full)%nat) as [Hlt|Hge].
    + rewrite Hdm.
      rewrite (bit_of_byte hash (j / 8) (j mod 8) x00 (Hbytes _ Hlt) Hr).
      apply Z.bits_0.
    + assert (j / 8 = full)%nat as Hq by lia.
      rewrite Hdm, Hq. apply Hbits. lia.
Qed.

Lemma hasLeadingZeros_bits hash d :
  0 <= d < 256 -> d < 8 * Z.of_nat (length hash) ->
  exists b, hasLeadingZeros hash d = Some b /\
    (b = true <->
     forall j, (j < Z.to_nat d)%nat -> bit_of hash j = false).
Proof.
  intros Hd Hlen.
  remember (Z.to_nat d) as n eqn:Hn.
  assert (d = Z.of_nat n) as Hdn by lia.
  assert (d / 8 = Z.of_nat (n / 8)) as Hq
    by (rewrite Hdn; symmetry; apply (Nat2Z.inj_div n 8)).
  assert (d mod 8 = Z.of_nat (n mod 8)) as Hm
    by (rewrite Hdn; symmetry; apply (Nat2Z.inj_mod n 8)).
  pose proof (Nat.div_mod_eq n 8) as Hdm.
  assert (n mod 8 < 8)%nat as Hr by (apply Nat.mod_upper_bound; lia).
  unfold hasLeadingZeros. rewrite Hq, Hm, Nat2Z.id.
  destruct (zero_bytes_from_spec hash (n / 8) 0 ltac:(lia) ltac:(lia))
    as (b & Hb & Hspec).
  change (Z.of_nat 0) with 0 in Hb. rewrite Hb.
  assert ((forall j, (j < n)%nat -> bit_of hash j = false) <->
          (forall i, (i < n / 8)%nat -> hash !! i = Some x00) /\
          (forall r, (r < n mod 8)%nat ->
             bit_of hash (8 * (n / 8) + r) = false)) as Hall
    by (rewrite <- bits_zero_split by lia; rewrite <- Hdm; reflexivity).
  setoid_rewrite Hall.
  destruct b.
  - assert (forall i, (i < n / 8)%nat -> hash !! i = Some x00) as Hbytes
      by (intros i Hi; apply Hspec; [reflexivity | lia]).
    destruct (decide (Z.of_nat (n mod 8) > 0)) as [Hpos|Hzero].
    + destruct (hash !! (n / 8)%nat) as [bf|] eqn:Hbf;
        [|apply lookup_ge_None in Hbf; lia].
      pose proof (byte_and_mask_bits bf (n mod 8) ltac:(lia)) as Hmask.
      destruct (decide (byte_and bf
                  (byte_of_Z (Z.shiftl 0xFF (8 - Z.of_nat (n mod 8)))) <> x00))
        as [Hnz|Hz].
      * exists false. split; [reflexivity|]. split; [discriminate|].
        intros [_ Hbits]. exfalso. apply Hnz, Hmask. intros j Hj.
        rewrite <- (bit_of_byte hash (n / 8) j bf Hbf ltac:(lia)).
        apply Hbits, Hj.
      * exists true. split; [reflexivity|]. split; [|reflexivity].
        intros _. split; [exact Hbytes|]. intros r Hrr.
        rewrite (bit_of_byte hash (n / 8) r bf Hbf ltac:(lia)).
        apply Hmask; [|exact Hrr].
        destruct (decide (byte_and bf
          (byte_of_Z (Z.shiftl 0xFF (8 - Z.of_nat (n mod 8)))) = x00)); tauto.
    + exists true. split; [reflexivity|]. split; [|reflexivity].
      intros _. split; [exact Hbytes|]. intros r Hrr. lia.
  - exists false. split; [reflexivity|]. split; [discriminate|].
    intros [Hbytes _]. apply Hspec. intros j Hj. apply Hbytes. lia.
Qed.

(** [hasLeadingZeros] against the count of leading zero bits. *)
Lemma hasLeadingZeros_spec hash d :
  0 <= d < 256 -> d < 8 * Z.of_nat (length hash) ->
  hasLeadingZeros hash d =
  Some (bool_decide (d <= Z.of_nat (leading_zero_bits hash))).
Proof.
  intros Hd Hlen.
  destruct (hasLeadingZeros_bits hash d Hd Hlen) as (b & -> & Hspec).
  f_equal.
  pose proof (zero_run_spec hash (8 * length hash) 0 (Z.to_nat d)) as Hrun.
  fold (leading_zero_bits hash) in Hrun. cbn [Nat.add] in Hrun.
  destruct b; symmetry.
  - apply bool_decide_eq_true.
    assert (Z.to_nat d <= leading_zero_bits hash)%nat; [|lia].
    apply Hrun. split; [lia|]. now apply Hspec.
  - apply bool_decide_eq_false. intros Hle.
    assert (Z.to_nat d <= leading_zero_bits hash)%nat as Hle' by lia.
    apply Hrun in Hle'. destruct Hle' as [_ Hbits].
    apply Hspec in Hbits. discriminate.
Qed.

Lemma SolvePoW_from_sound nonce d fuel : forall sol s,
  SolvePoW_from nonce d fuel sol = Some (inl s) ->
  VerifyPoW nonce s d = Some true.
Proof.
  induction fuel as [|k IH]; intros sol s; cbn [SolvePoW_from]; [discriminate|].
  destruct (hasLeadingZeros (Sum256 (pow_buf nonce sol)) d) as [[|]|] eqn:Hh;
    [| |discriminate].
  - intros [= <-]. exact Hh.
  - destruct (decide (sol = 2 ^ 64 - 1)); [discriminate|]. apply IH.
Qed.

(** The search ends: [2^64 - sol] iterations are enough from [sol] on. *)
Lemma SolvePoW_from_total nonce d fuel : forall sol,
  0 <= d < 256 -> 0 <= sol < 2 ^ 64 -> 2 ^ 64 - sol <= Z.of_nat fuel ->
  exists r, SolvePoW_from nonce d fuel sol = Some r.
Proof.
  induction fuel as [|k IH]; intros sol Hd Hsol Hfuel; [lia|].
  cbn [SolvePoW_from].
  rewrite (hasLeadingZeros_spec _ d Hd)
    by (rewrite length_Sum256; lia).
  destruct (bool_decide _); [eauto|].
  destruct (decide (sol = 2 ^ 64 - 1)); [eauto|].
  apply IH; [exact Hd | | ]; unfold uint64; rewrite Z.mod_small; lia.
Qed.

(** C6: [VerifyPoW] accepts exactly the solutions for which SHA-256 of the
    nonce followed by the big-endian solution has at least [d] leading zero
    bits; a solution returned by [SolvePoW] is accepted, and [SolvePoW]
    does return. *)
Theorem VerifyPoW_correct nonce s d :
  length nonce = 32%nat -> 0 <= d < 256 ->
  VerifyPoW nonce s d =
    Some (bool_decide
            (d <= Z.of_nat (leading_zero_bits (Sum256 (nonce ++ be64 s)))))
  /\ (forall fuel sol, SolvePoW nonce d fuel = Some (inl sol) ->
                       VerifyPoW nonce sol d = Some true)
  /\ (exists fuel r, SolvePoW nonce d fuel = Some r).
Proof.
  intros Hn Hd. split; [|split].
  - unfold VerifyPoW. rewrite pow_buf_layout, PutUint64_be64 by exact Hn.
    apply hasLeadingZeros_spec; [exact Hd|]. rewrite length_Sum256. lia.
  - intros fuel sol. apply SolvePoW_from_sound.
  - exists (Z.to_nat (2 ^ 64)).
    apply SolvePoW_from_total; [exact Hd | lia | lia].
Qed.

Lemma VerifyPoW_correct_witness :
  (length (make 32) = 32%nat /\ 0 <= 8 < 256) /\
  VerifyPoW (make 32) 206 8 = Some true /\
  VerifyPoW (make 32) 205 8 = Some false /\
  (SolvePoW (make 32) 8 1000 = Some (inl 206) /\
   VerifyPoW (make 32) 206 8 = Some true).
Proof.
  assert (SolvePoW (make 32) 8 1000 = Some (inl 206)) as Hsolve
    by (vm_compute; reflexivity).
  split; [split; [reflexivity | lia]|].
  split; [|split; [|split; [exact Hsolve|]]].
  - rewrite (proj1 (VerifyPoW_correct (make 32) 206 8 eq_refl ltac:(lia))).
    vm_compute. reflexivity.
  - rewrite (proj1 (VerifyPoW_correct (make 32) 205 8 eq_refl ltac:(lia))).
    vm_compute. reflexivity.
  - exact (proj1 (proj2 (VerifyPoW_correct (make 32) 0 8 eq_refl ltac:(lia)))
             1000%nat 206 Hsolve).
Defined.

End PoWFacts.

(** *** The ring buffer *)

Section RingBuffer.

Import Buffer.

Variable N : nat.
Hypothesis N_pos : (0 < N)%nat.

Local Abbreviation holds := (Buffer.holds N).

Lemma holds_New :
  exists pb, NewPacketBuffer (Z.of_nat N) = Some pb /\ holds [] pb.
Proof.
  unfold NewPacketBuffer. rewrite decide_False by lia.
  eexists. split; [reflexivity|].
  unfold Buffer.holds. cbn. rewrite repeat_length, Nat2Z.id.
  rewrite Nat.Div0.mod_0_l. repeat split; try reflexivity.
  intros i p Hi. discriminate.
Qed.

Lemma mod_apart (i k : nat) :
  (i < k)%nat -> (k < i + N)%nat -> (i mod N <> k mod N)%nat.
Proof.
  intros Hik Hk Heq.
  pose proof (Nat.div_mod_eq i N) as Hi.
  pose proof (Nat.div_mod_eq k N) as Hk'.
  rewrite Heq in Hi.
  assert (i / N < k / N)%nat as Hq by nia.
  nia.
Qed.

Lemma holds_Add l pb p :
  holds l pb -> exists pb1, Add pb p = Some pb1 /\ holds (l ++ [p]) pb1.
Proof.
  intros (Hsize & Hlen & Hhead & Hcount & Hslots).
  assert (length l mod N < N)%nat as Hm by (apply Nat.mod_upper_bound; lia).
  unfold Add. rewrite decide_True by lia. rewrite decide_False by lia.
  eexists. split; [reflexivity|].
  unfold Buffer.holds. cbn [size packets head count].
  rewrite length_insert, length_app. cbn [length].
  rewrite copy_exact by apply repeat_length.
  repeat split; try assumption.
  - rewrite Hhead, Hsize, Z.rem_mod_nonneg by lia.
    rewrite !Nat2Z.inj_mod, Nat2Z.inj_add.
    apply Zplus_mod_idemp_l.
  - rewrite Hcount, Hsize. destruct (decide _); lia.
  - intros i q Hi Hrecent. rewrite Hhead, Nat2Z.id.
    destruct (decide (i = length l)) as [->|Hne].
    + rewrite lookup_app_r, Nat.sub_diag in Hi by lia.
      injection Hi as <-. apply list_lookup_insert_eq. lia.
    + assert (i < length l)%nat as Hlt.
      { apply lookup_lt_Some in Hi. rewrite length_app in Hi.
        cbn in Hi. lia. }
      rewrite lookup_app_l in Hi by exact Hlt.
      rewrite list_lookup_insert_ne by (apply not_eq_sym, mod_apart; lia).
      apply Hslots; [exact Hi | lia].
Qed.

Lemma holds_Add_all l2 : forall l1 pb,
  holds l1 pb ->
  exists pb1, Add_all pb l2 = Some pb1 /\ holds (l1 ++ l2) pb1.
Proof.
  induction l2 as [|p t IH]; intros l1 pb H; cbn [Add_all].
  - exists pb. rewrite app_nil_r. auto.
  - destruct (holds_Add l1 pb p H) as (pb1 & -> & H1).
    destruct (IH _ _ H1) as (pb2 & Hadd & H2).
    exists pb2. rewrite <- app_assoc in H2. auto.
Qed.

Lemma GetAll_from_holds l pb start :
  holds l pb ->
  (forall j, (j < Nat.min (length l) N)%nat ->
     Z.rem (start + Z.of_nat j) (Z.of_nat N) =
     Z.of_nat ((length l - Nat.min (length l) N + j) mod N)) ->
  forall todo i result,
    (i + todo = Nat.min (length l) N)%nat ->
    GetAll_from pb start (Z.of_nat i) todo result =
    Some (result ++
          take todo (drop (length l - Nat.min (length l) N + i) l)).
Proof.
  intros (Hsize & Hlen & Hhead & Hcount & Hslots) Hidx.
  induction todo as [|t IH]; intros i result Hi; cbn [GetAll_from].
  - now rewrite firstn_O, app_nil_r.
  - rewrite decide_False by lia.
    rewrite Hsize, Hidx by lia. rewrite decide_True by lia.
    rewrite Nat2Z.id.
    set (m := (length l - Nat.min (length l) N + i)%nat).
    destruct (l !! m) as [x|] eqn:Hx;
      [|apply lookup_ge_None in Hx; unfold m in Hx; lia].
    rewrite (Hslots m x Hx) by (unfold m; lia).
    replace (Z.of_nat i + 1) with (Z.of_nat (S i)) by lia.
    rewrite IH by lia.
    rewrite (drop_S l x m Hx). cbn [take].
    replace (length l - Nat.min (length l) N + S i)%nat with (S m)
      by (unfold m; lia).
    now rewrite <- app_assoc.
Qed.

Lemma GetAll_holds l pb :
  holds l pb -> GetAll pb = Some (drop (length l - N) l).
Proof.
  intros H. pose proof H as (Hsize & Hlen & Hhead & Hcount & Hslots).
  unfold GetAll. rewrite Hhead, Hcount, Hsize, Nat2Z.id.
  destruct (le_lt_dec N (length l)) as [Hfull|Hpart].
  - (* the buffer has wrapped: [count = N] *)
    assert (length l mod N < N)%nat as Hm by (apply Nat.mod_upper_bound; lia).
    rewrite decide_True by lia.
    rewrite (GetAll_from_holds l pb _ H) with (i := 0%nat).
    + rewrite Nat.min_r, Nat.add_0_r by lia. cbn [app]. f_equal.
      apply take_ge. rewrite length_drop. lia.
    + intros j Hj. rewrite Nat.min_r in * by lia.
      rewrite Z.rem_mod_nonneg by lia.
      rewrite !Nat2Z.inj_mod, Nat2Z.inj_add, Nat2Z.inj_sub by lia.
      replace (Z.of_nat (length l) `mod` Z.of_nat N - Z.of_nat N
               + Z.of_nat N + Z.of_nat j)
        with (Z.of_nat (length l) `mod` Z.of_nat N + Z.of_nat j) by lia.
      rewrite Zplus_mod_idemp_l.
      replace (Z.of_nat (length l) - Z.of_nat N + Z.of_nat j)
        with (Z.of_nat (length l) + Z.of_nat j + (-1) * Z.of_nat N) by lia.
      now rewrite Z_mod_plus_full.
    + lia.
  - (* not yet full: [count = length l], [head = length l] *)
    rewrite (Nat.mod_small (length l) N) by lia.
    rewrite Nat.min_l by lia. rewrite decide_False by lia.
    rewrite (GetAll_from_holds l pb _ H) with (i := 0%nat).
    + rewrite Nat.min_l, Nat.sub_diag by lia. cbn [app Nat.add].
      replace (length l - N)%nat with 0%nat by lia.
      now rewrite drop_0, firstn_all.
    + intros j Hj. rewrite Nat.min_l in * by lia.
      rewrite Z.sub_diag, Z.add_0_l, Nat.sub_diag, Nat.add_0_l.
      rewrite Z.rem_small by lia. rewrite Nat.mod_small by lia. reflexivity.
    + lia.
Qed.

End RingBuffer.

(** With capacity 0 the first [Add] panics on its index. *)
Example Add_capacity_0 :
  exists pb0, Buffer.NewPacketBuffer 0 = Some pb0 /\ Buffer.Add pb0 [x41] = None.
Proof. eexists. split; reflexivity. Qed.

(** C8: a ring buffer of capacity [N >= 1] after [k] calls of [Add] counts
    [min k N] entries, and [GetAll] returns the last [min k N] packets
    added, oldest first, the earlier ones being dropped. *)
Theorem PacketBuffer_keeps_most_recent (N : Z) (l : list bytes) :
  0 < N ->
  exists pb0 pb,
    Buffer.NewPacketBuffer N = Some pb0 /\
    Buffer.Add_all pb0 l = Some pb /\
    Buffer.count pb = Z.min (Z.of_nat (length l)) N /\
    Buffer.GetAll pb = Some (drop (length l - Z.to_nat N) l) /\
    Z.of_nat (length (drop (length l - Z.to_nat N) l)) =
      Z.min (Z.of_nat (length l)) N.
Proof.
  intros HN.
  destruct (holds_New (Z.to_nat N) ltac:(lia)) as (pb0 & Hnew & H0).
  rewrite Z2Nat.id in Hnew by lia.
  destruct (holds_Add_all (Z.to_nat N) ltac:(lia) l [] pb0 H0)
    as (pb & Hadd & H).
  cbn [app] in H.
  exists pb0, pb. repeat split; try assumption.
  - destruct H as (_ & _ & _ & -> & _). lia.
  - apply (GetAll_holds (Z.to_nat N)); [lia | exact H].
  - rewrite length_drop. lia.
Qed.

Lemma PacketBuffer_keeps_most_recent_witness :
  exists pb0 pb,
    Buffer.NewPacketBuffer 3 = Some pb0 /\
    Buffer.Add_all pb0 [[x41]; [x42]; [x43]; [x44]] = Some pb /\
    Buffer.count pb = 3 /\
    Buffer.GetAll pb = Some [[x42]; [x43]; [x44]] /\
    Z.of_nat (length [[x42]; [x43]; [x44]]) = 3.
Proof.
  exact (PacketBuffer_keeps_most_recent 3 [[x41]; [x42]; [x43]; [x44]]
           ltac:(lia)).
Defined.

(** *** The deduplication filter *)

Section DedupFacts.

Import SHA256 Dedup.

Lemma PacketHash_prefix p : PacketHash p = take 8 (Sum256 p).
Proof.
  unfold PacketHash, slice. rewrite drop_0. apply copy_exact.
  rewrite length_take, length_Sum256. reflexivity.
Qed.

Lemma IsDuplicate_seen d h :
  h ∈ seen d -> IsDuplicate d h = (true, d).
Proof. intros H. unfold IsDuplicate. now rewrite decide_True. Qed.

Lemma IsDuplicate_new d h :
  h ∉ seen d ->
  IsDuplicate d h =
  (false, {| seen := {[h]} ∪ (if decide (Z.of_nat (size (seen d)) >= max d)
                              then ∅ else seen d);
             max := max d |}).
Proof.
  intros H. unfold IsDuplicate. rewrite decide_False by exact H.
  destruct (decide _); reflexivity.
Qed.

Lemma IsDuplicate_records d h : h ∈ seen (IsDuplicate d h).2.
Proof.
  destruct (decide (h ∈ seen d)) as [Hin|Hout].
  - now rewrite IsDuplicate_seen.
  - rewrite IsDuplicate_new by exact Hout. cbn. set_solver.
Qed.

Lemma IsDuplicate_keeps d h h' :
  h ∈ seen d -> ~ clears d h' -> h ∈ seen (IsDuplicate d h').2.
Proof.
  intros Hh Hnc. destruct (decide (h' ∈ seen d)) as [Hin|Hout].
  - now rewrite IsDuplicate_seen.
  - rewrite IsDuplicate_new by exact Hout. cbn.
    destruct (decide _) as [Hfull|Hroom]; [|set_solver].
    exfalso. apply Hnc. split; assumption.
Qed.

Lemma IsDuplicate_all_keeps hs : forall d h,
  h ∈ seen d -> never_clears d hs -> h ∈ seen (IsDuplicate_all d hs).2.
Proof.
  induction hs as [|h' t IH]; intros d h Hh Hnc; cbn; [exact Hh|].
  destruct Hnc as [Hnc Ht].
  pose proof (IsDuplicate_keeps d h h' Hh Hnc) as Hkept.
  specialize (IH _ _ Hkept Ht).
  destruct (IsDuplicate d h') as [r d1]. cbn [snd] in IH.
  destruct (IsDuplicate_all d1 t) as [rs d2]. exact IH.
Qed.

Lemma IsDuplicate_all_repeat d h n :
  h ∈ seen d -> IsDuplicate_all d (repeat h n) = (repeat true n, d).
Proof.
  intros Hh. induction n as [|n IH]; cbn; [reflexivity|].
  rewrite (IsDuplicate_seen d h Hh), IH. reflexivity.
Qed.

(** C3, as it is stated, fails on its last part: with room for one hash,
    a second hash empties the set, and the first one is new again. *)
Lemma IsDuplicate_later_call_counterexample :
  ~ (forall d h hs,
       (IsDuplicate (IsDuplicate_all (IsDuplicate d h).2 hs).2 h).1 = true).
Proof.
  intros H.
  specialize (H (NewDedupFilter 1)
                [x01; x00; x00; x00; x00; x00; x00; x00]
                [[x02; x00; x00; x00; x00; x00; x00; x00]]).
  vm_compute in H. discriminate H.
Qed.

(** C3, amended: [PacketHash] is the first 8 bytes of SHA-256;
    [IsDuplicate] answers true for a hash in the set and leaves the set
    alone, otherwise it inserts the hash, into the emptied set when the set
    already holds [max] hashes or more, and answers false; right after a
    call for [h], calls for [h] answer true and change nothing, and so does
    any later call for [h] as long as no call in between emptied the set. *)
Theorem IsDuplicate_spec p d h hs n :
  PacketHash p = take 8 (Sum256 p) /\
  (h ∈ seen d -> IsDuplicate d h = (true, d)) /\
  (h ∉ seen d ->
   IsDuplicate d h =
   (false, {| seen := {[h]} ∪ (if decide (Z.of_nat (size (seen d)) >= max d)
                               then ∅ else seen d);
              max := max d |})) /\
  (let d1 := (IsDuplicate d h).2 in
   IsDuplicate_all d1 (repeat h n) = (repeat true n, d1) /\
   (never_clears d1 hs ->
    IsDuplicate (IsDuplicate_all d1 hs).2 h
    = (true, (IsDuplicate_all d1 hs).2))).
Proof.
  split; [apply PacketHash_prefix|].
  split; [apply IsDuplicate_seen|].
  split; [apply IsDuplicate_new|].
  cbn zeta. split.
  - apply IsDuplicate_all_repeat, IsDuplicate_records.
  - intros Hnc. apply IsDuplicate_seen, IsDuplicate_all_keeps;
      [apply IsDuplicate_records | exact Hnc].
Qed.

Lemma IsDuplicate_spec_witness :
  let h1 := [x01; x00; x00; x00; x00; x00; x00; x00] in
  let h2 := [x02; x00; x00; x00; x00; x00; x00; x00] in
  let d0 := NewDedupFilter 2 in
  let d1 := (IsDuplicate d0 h1).2 in
  (h1 ∉ seen d0) /\ fst (IsDuplicate d0 h1) = false /\
  h1 ∈ seen d1 /\ IsDuplicate d1 h1 = (true, d1) /\
  never_clears d1 [h2] /\
  IsDuplicate (IsDuplicate_all d1 [h2]).2 h1
  = (true, (IsDuplicate_all d1 [h2]).2).
Proof.
  intros h1 h2 d0 d1.
  assert (h1 ∉ seen d0) as Hnew by apply not_elem_of_empty.
  assert (h1 ∈ seen d1) as Hseen
    by (apply (bool_decide_unpack _); vm_compute; exact I).
  assert (never_clears d1 [h2]) as Hnc.
  { cbn. split; [|exact I]. intros [_ Hfull]. vm_compute in Hfull.
    apply Hfull. reflexivity. }
  pose proof (IsDuplicate_spec [] d0 h1 [h2] 0) as (_ & _ & Hfresh & _ & Hlater).
  pose proof (IsDuplicate_spec [] d1 h1 [] 0) as (_ & Hdup & _).
  split; [exact Hnew|]. split; [now rewrite (Hfresh Hnew)|].
  split; [exact Hseen|]. split; [exact (Hdup Hseen)|].
  split; [exact Hnc | exact (Hlater Hnc)].
Defined.

End DedupFacts.

(** *** Hexadecimal strings *)

Section HexFacts.

Import Hex.

Lemma DecodeString_encoded_byte b t :
  DecodeString
    (nth (Z.to_nat (Z.shiftr (Z_of_byte b) 4)) hextable x00
     :: nth (Z.to_nat (Z.land (Z_of_byte b) 0x0f)) hextable x00 :: t) =
  match DecodeString t with Some r => Some (b :: r) | None => None end.
Proof. destruct b; reflexivity. Qed.

Lemma DecodeString_EncodeToString l :
  DecodeString (EncodeToString l) = Some l.
Proof.
  induction l as [|b l IH]; [reflexivity|].
  unfold EncodeToString. cbn [flat_map app].
  fold (EncodeToString l).
  now rewrite DecodeString_encoded_byte, IH.
Qed.

Lemma EncodeToString_inj l1 l2 :
  EncodeToString l1 = EncodeToString l2 -> l1 = l2.
Proof.
  intros E. apply (f_equal DecodeString) in E.
  rewrite !DecodeString_EncodeToString in E. congruence.
Qed.

End HexFacts.

(** *** The mesh receive loop *)

Section MeshReceive.

Context `{Ed25519}.

Import Auth Relay.

Ltac ev_mem :=
  intros; repeat match goal with
    | Hm : _ ∈ _ |- _ =>
        first [ apply elem_of_app in Hm as [Hm|Hm]
              | apply elem_of_cons in Hm as [Hm|Hm]
              | apply elem_of_nil in Hm; contradiction ]
    end; try discriminate; simplify_eq; auto.

Lemma IsSelf_true a pk : IsSelf a pk = true <-> pk = PublicKey a.
Proof.
  unfold IsSelf. rewrite bool_decide_eq_true. split.
  - apply EncodeToString_inj.
  - now intros ->.
Qed.

Lemma IsRevoked_true a pk :
  IsRevoked a pk = true <-> Hex.EncodeToString pk ∈ revokedKeys a.
Proof. unfold IsRevoked. apply bool_decide_eq_true. Qed.

(** The sender key the loop extracts is the first 32 bytes on the wire. *)
Lemma sender_key_prefix (buf : bytes) :
  (pubKeyLen + sigLen < length buf)%nat ->
  copy (make pubKeyLen) (slice buf 0 pubKeyLen) = take 32 buf.
Proof.
  intros Hn. unfold pubKeyLen, sigLen in *.
  unfold slice. rewrite drop_0, Nat.sub_0_r.
  apply copy_exact. rewrite length_take. unfold make.
  rewrite repeat_length. lia.
Qed.

Lemma take_take_prefix (dgram : bytes) (m : nat) :
  (pubKeyLen + sigLen < length (take m dgram))%nat ->
  take 32 (take m dgram) = take 32 dgram.
Proof.
  intros Hn. rewrite length_take in Hn. unfold pubKeyLen, sigLen in *.
  rewrite take_take. f_equal. lia.
Qed.

Lemma length_payload (buf : bytes) (hdr : nat) :
  (hdr < length buf)%nat ->
  copy (make (length buf - hdr)) (slice buf hdr (length buf)) = drop hdr buf.
Proof.
  intros Hn. unfold slice.
  rewrite take_ge by (rewrite length_drop; lia).
  apply copy_exact. unfold make. rewrite repeat_length, length_drop.
  reflexivity.
Qed.

Lemma verify_and_route_inv w a pk sig data tr w1 tr1 :
  verify_and_route w a pk sig data tr = Some (w1, tr1) ->
  theMesh w1 = theMesh w /\
  forall d, EvRouteFromMesh d ∈ tr1 -> EvRouteFromMesh d ∈ tr \/ d = data.
Proof.
  unfold verify_and_route, Verify.
  destruct (decide _) as [Hbad|Hgood]; cbn.
  - intros [= <- <-]. split; [reflexivity|]. ev_mem.
  - destruct (ed25519_Verify pk data sig); cbn.
    + destruct (router (theMesh w)).
      * destruct (RouteFromMesh w data) as [w2|] eqn:Hr; [|discriminate].
        intros [= <- <-]. split; [|ev_mem].
        unfold RouteFromMesh in Hr.
        destruct (Dedup.IsDuplicate _ _) as [[|] d1];
          [now injection Hr as <-|].
        destruct (Buffer.Add _ _); [now injection Hr as <-|discriminate].
      * intros [= <- <-]. split; [reflexivity|]. ev_mem.
    + intros [= <- <-]. split; [reflexivity|]. ev_mem.
Qed.

Lemma VerifyCertificate_inv a pk cert ok a1 tr1 :
  VerifyCertificate a pk cert = Some (ok, a1, tr1) ->
  PublicKey a1 = PublicKey a /\ revokedKeys a1 = revokedKeys a /\
  CAPubKey a1 = CAPubKey a /\ forall d, EvRouteFromMesh d ∉ tr1.
Proof.
  unfold VerifyCertificate. destruct (CAPubKey a) as [ca|] eqn:Eca.
  - destruct (decide (length cert <> _)).
    { intros [= <- <- <-]. repeat split; auto. intros d. apply not_elem_of_nil. }
    destruct (decide (length ca <> _)); [discriminate|].
    destruct (negb _); intros [= <- <- <-]; cbn; repeat split; auto;
      intros d Hm; apply list_elem_of_singleton in Hm; discriminate.
  - intros [= <- <- <-]. repeat split; auto. intros d. apply not_elem_of_nil.
Qed.

(** What one iteration can do: nothing at all, or the full check of a
    datagram whose sender is neither this relay nor revoked. *)
Lemma RecvLoop_iter_inv w input w1 tr :
  RecvLoop_iter w input = Some (w1, tr) ->
  (tr = [] /\ w1 = w) \/
  exists a dgram a1,
    let buf := take (Z.to_nat (Config.MaxPacketSize (cfg (theMesh w))
                               + Z.of_nat caHeaderLen)) dgram in
    let hdr := if HasCA a then caHeaderLen else (pubKeyLen + sigLen)%nat in
    auth (theMesh w) = Some a /\ input = Some dgram /\
    (hdr < length buf)%nat /\
    take 32 dgram <> PublicKey a /\
    (Hex.EncodeToString (take 32 dgram) ∉ revokedKeys a) /\
    auth (theMesh w1) = Some a1 /\
    PublicKey a1 = PublicKey a /\ revokedKeys a1 = revokedKeys a /\
    CAPubKey a1 = CAPubKey a /\
    forall d, EvRouteFromMesh d ∈ tr -> d = drop hdr buf.
Proof.
  unfold RecvLoop_iter.
  destruct input as [dgram|]; [|intros [= <- <-]; auto].
  set (buf := take _ dgram).
  destruct (auth (theMesh w)) as [a|] eqn:Ha; [|intros [= <- <-]; auto].
  destruct (decide (length buf <= pubKeyLen + sigLen)%nat) as [Hshort|Hlong];
    [intros [= <- <-]; auto|].
  rewrite sender_key_prefix by lia.
  replace (take 32 buf) with (take 32 dgram)
    by (symmetry; apply take_take_prefix; fold buf; lia).
  destruct (IsSelf a (take 32 dgram)) eqn:Hself; [intros [= <- <-]; auto|].
  destruct (IsRevoked a (take 32 dgram)) eqn:Hrev; [intros [= <- <-]; auto|].
  assert (take 32 dgram <> PublicKey a) as Hns
    by (intros E; apply IsSelf_true in E; congruence).
  assert (Hex.EncodeToString (take 32 dgram) ∉ revokedKeys a) as Hnr
    by (intros E; apply IsRevoked_true in E; congruence).
  destruct (HasCA a) eqn:Hca.
  - destruct (decide (length buf <= caHeaderLen)%nat) as [Hshort2|Hlong2];
      [intros [= <- <-]; auto|].
    rewrite length_payload by lia.
    destruct (VerifyCertificate a _ _) as [[[ok a1] tr1]|] eqn:Hvc;
      [|discriminate].
    destruct (VerifyCertificate_inv _ _ _ _ _ _ Hvc) as (Hp & Hr & Hc & Htr1).
    destruct ok; cbn [negb].
    + intros Hvr. apply verify_and_route_inv in Hvr as [Hmesh Hev].
      right. exists a, dgram, a1. cbn zeta. fold buf. rewrite Hca.
      repeat split; try assumption; [lia | now rewrite Hmesh|].
      intros d Hd. destruct (Hev d Hd) as [Hin | ->]; [|reflexivity].
      now apply Htr1 in Hin.
    + intros [= <- <-]. right. exists a, dgram, a1. cbn zeta. fold buf.
      rewrite Hca. repeat split; try assumption; [lia|].
      intros d Hd. now apply Htr1 in Hd.
  - cbn zeta. rewrite length_payload by lia.
    intros Hvr. apply verify_and_route_inv in Hvr as [Hmesh Hev].
    right. exists a, dgram, a. cbn zeta. fold buf. rewrite Hca.
    repeat split; try assumption; [lia | now rewrite Hmesh|].
    intros d Hd. destruct (Hev d Hd) as [Hin | ->]; [|reflexivity].
    now apply elem_of_nil in Hin.
Qed.

Lemma RecvLoop_iter_keys w input w1 tr :
  RecvLoop_iter w input = Some (w1, tr) ->
  PublicKey <$> auth (theMesh w1) = PublicKey <$> auth (theMesh w) /\
  revokedKeys <$> auth (theMesh w1) = revokedKeys <$> auth (theMesh w).
Proof.
  intros Hit. apply RecvLoop_iter_inv in Hit as [[_ ->]|Hfull]; [auto|].
  destruct Hfull as (a & dgram & a1 & Ha & _ & _ & _ & _ & Ha1 & Hp & Hr & _).
  rewrite Ha, Ha1. cbn. now rewrite Hp, Hr.
Qed.

(** A datagram from this relay or from a revoked one is dropped before
    anything else happens. *)
Lemma RecvLoop_iter_rejects w a dgram :
  auth (theMesh w) = Some a ->
  take 32 dgram = PublicKey a \/
    Hex.EncodeToString (take 32 dgram) ∈ revokedKeys a ->
  RecvLoop_iter w (Some dgram) = Some (w, []).
Proof.
  intros Ha Hbad. unfold RecvLoop_iter. rewrite Ha.
  set (buf := take _ dgram).
  destruct (decide (length buf <= pubKeyLen + sigLen)%nat) as [Hshort|Hlong];
    [reflexivity|].
  rewrite sender_key_prefix by lia.
  replace (take 32 buf) with (take 32 dgram)
    by (symmetry; apply take_take_prefix; fold buf; lia).
  destruct (IsSelf a (take 32 dgram)) eqn:Hself; [reflexivity|].
  destruct (IsRevoked a (take 32 dgram)) eqn:Hrev; [reflexivity|].
  destruct Hbad as [Hs|Hr].
  - apply IsSelf_true in Hs. congruence.
  - apply IsRevoked_true in Hr. congruence.
Qed.

(** With a well-formed buffer and a CA key of the right size, an iteration
    does not panic. *)
Lemma RecvLoop_iter_total w input N l :
  (0 < N)%nat -> Buffer.holds N l (buffer (theRouter w)) ->
  (forall a ca, auth (theMesh w) = Some a -> CAPubKey a = Some ca ->
                length ca = Ed.PublicKeySize) ->
  exists w1 tr, RecvLoop_iter w input = Some (w1, tr).
Proof.
  intros HN Hholds Hca.
  assert (forall w' a pk sig data tr,
            buffer (theRouter w') = buffer (theRouter w) ->
            exists w1 tr1, verify_and_route w' a pk sig data tr = Some (w1, tr1))
    as Hroute.
  { intros w' a pk sig data tr Hbuf. unfold verify_and_route.
    destruct (Verify a pk sig data) as [[|] tr2]; cbn [negb]; [|eauto].
    destruct (router (theMesh w')); [|eauto].
    unfold RouteFromMesh.
    destruct (Dedup.IsDuplicate _ _) as [[|] d1]; [eauto|].
    rewrite Hbuf.
    destruct (holds_Add N HN l _ data Hholds) as (pb1 & -> & _). eauto. }
  unfold RecvLoop_iter. destruct input as [dgram|]; [|eauto].
  destruct (auth (theMesh w)) as [a|] eqn:Ha; [|eauto].
  destruct (decide _); [eauto|].
  destruct (IsSelf a _); [eauto|]. destruct (IsRevoked a _); [eauto|].
  destruct (HasCA a).
  - destruct (decide _); [eauto|].
    unfold VerifyCertificate.
    destruct (CAPubKey a) as [ca|] eqn:Eca; [|cbn; eauto].
    destruct (decide (length _ <> Ed.SignatureSize)); [cbn; eauto|].
    rewrite decide_False by (intros Hne; apply Hne, (Hca a ca eq_refl Eca)).
    destruct (negb _); cbn [negb]; [eauto|]. now apply Hroute.
  - now apply Hroute.
Qed.

(** C2: in a run of the receive loop, a payload goes to [RouteFromMesh]
    only for a datagram whose 32-byte sender key is neither the relay's own
    key nor in the revocation set; for a datagram from the relay itself or
    from a revoked key, the iteration makes no call at all, neither of
    [ed25519.Verify] nor of the router, whatever [ed25519.Verify] would
    have answered. *)
Theorem RecvLoop_routes_only_foreign_unrevoked inputs :
  forall w w1 trs a,
  auth (theMesh w) = Some a ->
  RecvLoop w inputs = Some (w1, trs) ->
  forall i input tr,
    inputs !! i = Some input -> trs !! i = Some tr ->
    (forall data, EvRouteFromMesh data ∈ tr ->
       exists dgram, input = Some dgram /\
         take 32 dgram <> PublicKey a /\
         Hex.EncodeToString (take 32 dgram) ∉ revokedKeys a) /\
    (forall dgram, input = Some dgram ->
       take 32 dgram = PublicKey a \/
         Hex.EncodeToString (take 32 dgram) ∈ revokedKeys a ->
       tr = []).
Proof.
  induction inputs as [|input0 rest IH]; intros w w1 trs a Ha Hrun i input tr;
    [intros Hi; discriminate|].
  cbn [RecvLoop] in Hrun.
  destruct (RecvLoop_iter w input0) as [[w2 tr0]|] eqn:Hit; [|discriminate].
  destruct (RecvLoop w2 rest) as [[w3 trs0]|] eqn:Hrest; [|discriminate].
  injection Hrun as <- <-.
  destruct i as [|i]; cbn.
  - intros [= <-] [= <-]. split.
    + intros data Hd.
      pose proof Hit as Hinv.
      apply RecvLoop_iter_inv in Hinv as [[-> _]|Hfull];
        [now apply elem_of_nil in Hd|].
      destruct Hfull as (a' & dgram & a1 & Ha' & Hin & _ & Hns & Hnr & _).
      rewrite Ha in Ha'. injection Ha' as <-. eauto.
    + intros dgram -> Hbad.
      rewrite (RecvLoop_iter_rejects w a dgram Ha Hbad) in Hit. congruence.
  - destruct (RecvLoop_iter_keys _ _ _ _ Hit) as [Hp Hr].
    rewrite Ha in Hp, Hr. cbn in Hp, Hr.
    destruct (auth (theMesh w2)) as [a2|] eqn:Ha2; [|discriminate].
    injection Hp as Hp. injection Hr as Hr.
    rewrite <- Hp, <- Hr. apply (IH w2 w3 trs0 a2 Ha2 Hrest).
Qed.

(** C10: a datagram that is no longer than the bare header (96 bytes, or
    160 bytes when a CA key is configured) is dropped without any call of
    [ed25519.Verify] or of the router, so that a payload the router gets is
    never empty. *)
Theorem RecvLoop_drops_bare_header w dgram :
  ((length dgram <= pubKeyLen + sigLen)%nat ->
   RecvLoop_iter w (Some dgram) = Some (w, [])) /\
  (forall a, auth (theMesh w) = Some a -> HasCA a = true ->
     (length dgram <= caHeaderLen)%nat ->
     RecvLoop_iter w (Some dgram) = Some (w, [])) /\
  (forall w1 tr data,
     RecvLoop_iter w (Some dgram) = Some (w1, tr) ->
     EvRouteFromMesh data ∈ tr -> data <> []).
Proof.
  split; [|split].
  - intros Hn. unfold RecvLoop_iter.
    destruct (auth (theMesh w)); [|reflexivity].
    rewrite decide_True; [reflexivity|]. rewrite length_take.
    unfold pubKeyLen, sigLen in *. lia.
  - intros a Ha Hca Hn. unfold RecvLoop_iter. rewrite Ha, Hca.
    set (buf := take _ dgram).
    assert (length buf <= caHeaderLen)%nat
      by (unfold buf; rewrite length_take; lia).
    destruct (decide (length buf <= pubKeyLen + sigLen)%nat); [reflexivity|].
    destruct (IsSelf a _); [reflexivity|].
    destruct (IsRevoked a _); [reflexivity|].
    now rewrite decide_True.
  - intros w1 tr data Hit Hd.
    apply RecvLoop_iter_inv in Hit as [[-> _]|Hfull];
      [now apply elem_of_nil in Hd|].
    destruct Hfull as (a & dg & a1 & _ & _ & Hlen & _ & _ & _ & _ & _ & _ & Hev).
    cbn zeta in Hlen, Hev. rewrite (Hev data Hd).
    intros E. apply (f_equal length) in E. rewrite length_drop in E.
    cbn [length] in E. lia.
Qed.

End MeshReceive.

(** *** The router *)

Section RouterFacts.

Context `{Ed25519}.

Import Dedup Relay.

Lemma send_to_lookup c data h c' :
  send_to c data h !! c' =
  if decide (c = c') then (fun cl => Session.SendData cl data) <$> h !! c'
  else h !! c'.
Proof.
  unfold send_to. rewrite lookup_alter.
  destruct (decide (c = c')) as [->|]; reflexivity.
Qed.

(** After the fan-out loop, whatever the order of the range: the clients
    of the set other than the sender were sent the packet, nothing else
    changed. *)
Lemma fanout_lookup cs sender data h c :
  fanout cs sender data h !! c =
  if decide (c ∈ cs /\ Some c <> sender)
  then (fun cl => Session.SendData cl data) <$> h !! c
  else h !! c.
Proof.
  revert c. unfold fanout.
  pose (P := fun (r : gmap nat Session.Client) (X : gset nat) => forall c,
           r !! c = if decide (c ∈ X /\ Some c <> sender)
                    then (fun cl => Session.SendData cl data) <$> h !! c
                    else h !! c).
  apply (set_fold_ind_L P); unfold P; clear P.
  - intros c. rewrite decide_False; [reflexivity|].
    intros [Hc _]. now apply not_elem_of_empty in Hc.
  - intros x X r Hx IH c.
    destruct (decide (Some x = sender)) as [Hs|Hs].
    + rewrite IH. destruct (decide (c = x)) as [->|Hne].
      * rewrite !decide_False; [reflexivity| |]; intros [_ Hc]; congruence.
      * destruct (decide (c ∈ X /\ Some c <> sender)) as [[Hc Hn]|Hn].
        -- rewrite decide_True; [reflexivity|].
           split; [apply elem_of_union_r, Hc | exact Hn].
        -- rewrite decide_False; [reflexivity|]. intros [Hc Hn'].
           apply Hn. split; [|exact Hn'].
           apply elem_of_union in Hc as [Hc|Hc]; [|exact Hc].
           apply elem_of_singleton in Hc. contradiction.
    + rewrite send_to_lookup. destruct (decide (x = c)) as [->|Hne].
      * rewrite IH. rewrite decide_False by (intros [Hc _]; contradiction).
        rewrite decide_True; [reflexivity|].
        split; [apply elem_of_union_l, elem_of_singleton; reflexivity
               | exact Hs].
      * rewrite IH.
        destruct (decide (c ∈ X /\ Some c <> sender)) as [[Hc Hn]|Hn].
        -- rewrite decide_True; [reflexivity|].
           split; [apply elem_of_union_r, Hc | exact Hn].
        -- rewrite decide_False; [reflexivity|]. intros [Hc Hn'].
           apply Hn. split; [|exact Hn'].
           apply elem_of_union in Hc as [Hc|Hc]; [|exact Hc].
           apply elem_of_singleton in Hc. congruence.
Qed.

Lemma SendData_queued cl data :
  Session.closed (Session.SendData cl data) = Session.closed cl /\
  Session.queued (Session.SendData cl data) =
    if Session.closed cl then Session.queued cl
    else if decide (length (Session.writeCh cl) < Session.writeCh_cap)%nat
         then Session.queued cl ++ [data]
         else Session.queued cl.
Proof.
  unfold Session.SendData, Session.Send, Session.queued.
  destruct (Session.closed cl) eqn:Hc; [now rewrite Hc|].
  destruct (decide _); cbn; [|now rewrite Hc].
  now rewrite map_app.
Qed.

Lemma SendData_prefix cl data :
  Session.queued cl `prefix_of` Session.queued (Session.SendData cl data).
Proof.
  rewrite (proj2 (SendData_queued cl data)).
  destruct (Session.closed cl); [reflexivity|].
  destruct (decide _); [now apply prefix_app_r | reflexivity].
Qed.

(** A run of sends to one open client: the channel takes the packets that
    fit its 64 places, the others are dropped. *)
Lemma SendData_many pkts : forall cl,
  Session.closed cl = false ->
  Session.closed (foldl Session.SendData cl pkts) = false /\
  Session.queued (foldl Session.SendData cl pkts) =
    Session.queued cl
    ++ take (Session.writeCh_cap - length (Session.writeCh cl)) pkts.
Proof.
  induction pkts as [|p t IH]; intros cl Hopen; cbn [foldl].
  - now rewrite take_nil, app_nil_r.
  - destruct (SendData_queued cl p) as [Hc Hq]. rewrite Hopen in Hc, Hq.
    destruct (IH _ Hc) as [Hc' Hq']. split; [exact Hc'|].
    rewrite Hq', Hq.
    assert (length (Session.writeCh (Session.SendData cl p)) =
            if decide (length (Session.writeCh cl) < Session.writeCh_cap)%nat
            then S (length (Session.writeCh cl))
            else length (Session.writeCh cl)) as Hlen.
    { unfold Session.SendData, Session.Send. rewrite Hopen.
      destruct (decide _); cbn; [|reflexivity].
      rewrite length_app. cbn. lia. }
    rewrite Hlen. destruct (decide _) as [Hroom|Hfull].
    + rewrite <- app_assoc. f_equal.
      replace (Session.writeCh_cap - length (Session.writeCh cl))%nat
        with (S (Session.writeCh_cap - S (length (Session.writeCh cl))))
        by lia.
      reflexivity.
    + replace (Session.writeCh_cap - length (Session.writeCh cl))%nat
        with 0%nat by lia.
      reflexivity.
Qed.

Lemma foldl_send_to_lookup c pkts : forall h c',
  foldl (fun h pkt => send_to c pkt h) h pkts !! c' =
  if decide (c = c')
  then (fun cl => foldl Session.SendData cl pkts) <$> h !! c'
  else h !! c'.
Proof.
  induction pkts as [|p t IH]; intros h c'; cbn [foldl].
  - destruct (decide _); [|reflexivity]. now destruct (h !! c').
  - rewrite IH, send_to_lookup.
    destruct (decide (c = c')); [|reflexivity]. now destruct (h !! c').
Qed.

Lemma RouteFromClient_duplicate w sender data :
  PacketHash data ∈ seen (dedup (theRouter w)) ->
  RouteFromClient w sender data = Some w.
Proof.
  intros Hin. unfold RouteFromClient. rewrite IsDuplicate_seen by exact Hin.
  destruct w as [[cs m b d] ml o]. reflexivity.
Qed.

Lemma RouteFromMesh_duplicate w data :
  PacketHash data ∈ seen (dedup (theRouter w)) ->
  RouteFromMesh w data = Some w.
Proof.
  intros Hin. unfold RouteFromMesh. rewrite IsDuplicate_seen by exact Hin.
  destruct w as [[cs m b d] ml o]. reflexivity.
Qed.

(** A packet whose hash is new goes through every stage. *)
Lemma Route_new w op N l :
  (0 < N)%nat -> buffered N l w ->
  PacketHash op.2 ∉ map PacketHash l ->
  exists w1, Route w op = Some w1 /\
    buffered N (l ++ [op.2]) w1 /\
    clients (theRouter w1) = clients (theRouter w) /\
    mesh (theRouter w1) = mesh (theRouter w) /\
    objs w1 = fanout (clients (theRouter w)) op.1 op.2 (objs w) /\
    theMesh w1 = match op.1 with
                 | Some _ => if mesh (theRouter w)
                             then Send (theMesh w) op.2 else theMesh w
                 | None => theMesh w
                 end.
Proof.
  intros HN [Hholds Hseen] Hnew.
  assert (PacketHash op.2 ∉ seen (dedup (theRouter w))) as Hfresh
    by (intros Hin; apply Hnew, Hseen, Hin).
  destruct (holds_Add N HN l _ op.2 Hholds) as (pb1 & Hadd & Hholds1).
  assert (forall d1 : DedupFilter,
            seen d1 = {[PacketHash op.2]}
                      ∪ (if decide (Z.of_nat (size (seen (dedup (theRouter w))))
                                    >= max (dedup (theRouter w)))
                         then ∅ else seen (dedup (theRouter w))) ->
            forall h, h ∈ seen d1 -> h ∈ map PacketHash (l ++ [op.2]))
    as Hseen1.
  { intros d1 -> h Hh. rewrite map_app, elem_of_app. cbn.
    apply elem_of_union in Hh as [Hh|Hh].
    - right. apply elem_of_singleton in Hh as ->. apply list_elem_of_here.
    - left. destruct (decide _); [now apply not_elem_of_empty in Hh|].
      now apply Hseen. }
  destruct op as [[sender|] data]; cbn [fst snd] in *; unfold Route; cbn [fst snd].
  - unfold RouteFromClient. rewrite (IsDuplicate_new _ _ Hfresh), Hadd.
    eexists. split; [reflexivity|]. cbn.
    split; [split; [exact Hholds1 | apply Hseen1; reflexivity]|].
    repeat split; reflexivity.
  - unfold RouteFromMesh. rewrite (IsDuplicate_new _ _ Hfresh), Hadd.
    eexists. split; [reflexivity|]. cbn.
    split; [split; [exact Hholds1 | apply Hseen1; reflexivity]|].
    repeat split; reflexivity.
Qed.

Lemma Route_queues w op w1 c cl :
  Route w op = Some w1 -> objs w !! c = Some cl ->
  exists cl1, objs w1 !! c = Some cl1 /\
    Session.queued cl `prefix_of` Session.queued cl1.
Proof.
  intros Hr Hc.
  assert (forall sender data,
            exists cl1, fanout (clients (theRouter w)) sender data (objs w) !! c
                        = Some cl1 /\
              Session.queued cl `prefix_of` Session.queued cl1) as Hfan.
  { intros sender data. rewrite fanout_lookup, Hc.
    destruct (decide _); cbn; eexists; (split; [reflexivity|]);
      [apply SendData_prefix | reflexivity]. }
  destruct op as [[sender|] data]; unfold Route in Hr; cbn [fst snd] in Hr.
  - unfold RouteFromClient in Hr.
    destruct (IsDuplicate _ _) as [[|] d1].
    + injection Hr as <-. cbn. eauto.
    + destruct (Buffer.Add _ _); [|discriminate].
      injection Hr as <-. cbn. apply Hfan.
  - unfold RouteFromMesh in Hr.
    destruct (IsDuplicate _ _) as [[|] d1].
    + injection Hr as <-. cbn. eauto.
    + destruct (Buffer.Add _ _); [|discriminate].
      injection Hr as <-. cbn. apply Hfan.
Qed.

Lemma Route_all_queues ops : forall w w1 c cl,
  Route_all w ops = Some w1 -> objs w !! c = Some cl ->
  exists cl1, objs w1 !! c = Some cl1 /\
    Session.queued cl `prefix_of` Session.queued cl1.
Proof.
  induction ops as [|op rest IH]; intros w w1 c cl Hr Hc; cbn in Hr.
  - injection Hr as <-. eauto.
  - destruct (Route w op) as [w2|] eqn:Hop; [|discriminate].
    destruct (Route_queues _ _ _ _ _ Hop Hc) as (cl2 & Hc2 & Hp2).
    destruct (IH _ _ _ _ Hr Hc2) as (cl1 & Hc1 & Hp1).
    exists cl1. split; [exact Hc1|]. now transitivity (Session.queued cl2).
Qed.

(** Packets with pairwise distinct hashes are all buffered. *)
Lemma Route_all_distinct N ops : forall w l,
  (0 < N)%nat -> buffered N l w ->
  NoDup (map PacketHash (l ++ map snd ops)) ->
  exists w1, Route_all w ops = Some w1 /\ buffered N (l ++ map snd ops) w1.
Proof.
  induction ops as [|op rest IH]; intros w l HN Hb Hnd;
    cbn [Route_all map] in *.
  - exists w. rewrite app_nil_r. auto.
  - assert (PacketHash op.2 ∉ map PacketHash l) as Hnew.
    { rewrite map_app in Hnd. apply NoDup_app in Hnd as (_ & Hdisj & _).
      intros Hin. apply (Hdisj _ Hin). cbn. apply list_elem_of_here. }
    destruct (Route_new w op N l HN Hb Hnew) as (w2 & -> & Hb2 & _).
    replace (l ++ op.2 :: map snd rest) with ((l ++ [op.2]) ++ map snd rest)
      in * by now rewrite <- app_assoc.
    apply IH; assumption.
Qed.

Lemma AddClient_queue w c cl N l :
  (0 < N)%nat -> Buffer.holds N l (buffer (theRouter w)) ->
  objs w !! c = Some cl -> Session.closed cl = false ->
  exists w1 cl1, AddClient w c = Some w1 /\
    clients (theRouter w1) = {[c]} ∪ clients (theRouter w) /\
    buffer (theRouter w1) = buffer (theRouter w) /\
    dedup (theRouter w1) = dedup (theRouter w) /\
    objs w1 !! c = Some cl1 /\
    Session.queued cl1 =
      Session.queued cl
      ++ take (Session.writeCh_cap - length (Session.writeCh cl))
              (drop (length l - N) l).
Proof.
  intros HN Hholds Hc Hopen. unfold AddClient, AddClient_replay, AddClient_register.
  cbn [theRouter buffer].
  rewrite (GetAll_holds N HN l _ Hholds).
  eexists. eexists. split; [reflexivity|]. cbn.
  repeat split; try reflexivity.
  - rewrite foldl_send_to_lookup, decide_True, Hc by reflexivity.
    reflexivity.
  - apply SendData_many, Hopen.
Qed.

Lemma standalone_buffered cfg :
  0 < Config.BufferSize cfg ->
  exists w, standalone cfg = Some w /\
            buffered (Z.to_nat (Config.BufferSize cfg)) [] w.
Proof.
  intros Hpos. unfold standalone, NewRouter.
  destruct (holds_New (Z.to_nat (Config.BufferSize cfg)) ltac:(lia))
    as (pb & Hnew & Hholds).
  rewrite Z2Nat.id in Hnew by lia. rewrite Hnew.
  eexists. split; [reflexivity|]. split; [exact Hholds|].
  cbn. intros h Hh. now apply not_elem_of_empty in Hh.
Qed.

End RouterFacts.

(** *** The relay identity *)

Section RelayIdentity.

Import Strings OS Auth.

Lemma loadCRL_keys a files :
  PrivateKey (loadCRL a files) = PrivateKey a /\
  PublicKey (loadCRL a files) = PublicKey a.
Proof.
  unfold loadCRL. destruct (decide _); [auto|].
  destruct (files !! crlPath a); [|auto].
  destruct (decide _); auto.
Qed.

Lemma ReadFile_WriteFile files path content perm now :
  ReadFile (WriteFile files path content perm now) path = Some content.
Proof.
  unfold ReadFile, WriteFile.
  destruct (files !! path); now rewrite lookup_insert_eq.
Qed.

(** C1, as it is stated, fails: a key file of one byte is replaced by a
    newly generated key, and no error is returned. *)
Lemma NewRelayAuth_malformed_key_counterexample :
  let keyDir := list_byte_of_string "/etc/bitchat" in
  let keyPath := list_byte_of_string "/etc/bitchat/relay_ed25519.key" in
  let files : gmap bytes file :=
    {[ keyPath := {| data := [x2a]; perm := 384; modTime := 0 |} ]} in
  let env := {| generated := Some (make 32, make 64);
                mkdir_ok := true; write_ok := true; now := 1 |} in
  ReadFile files keyPath = Some [x2a] /\
  exists a,
    (NewRelayAuth keyDir [] [] files env).1 = inl a /\
    PrivateKey a = make 64 /\
    ReadFile (NewRelayAuth keyDir [] [] files env).2 keyPath = Some (make 64).
Proof.
  cbn zeta. split; [reflexivity|].
  eexists. split; [vm_compute; reflexivity|].
  split; vm_compute; reflexivity.
Qed.

(** C1, amended: with an acceptable CA key argument, [NewRelayAuth] loads
    the key pair when the key file can be read and holds exactly 64 bytes,
    and then leaves the files alone; in every other case, the file missing
    or of another size alike, it draws a new key pair and writes the
    private key to the key file; it fails only when the key generation,
    the creation of the directory or the write fails. *)
Theorem NewRelayAuth_key_policy keyDir caKeyHex crlPath files env ca :
  load_ca caKeyHex = inl ca ->
  let keyPath := Join keyDir (list_byte_of_string "relay_ed25519.key") in
  let res := NewRelayAuth keyDir caKeyHex crlPath files env in
  (forall data, ReadFile files keyPath = Some data ->
     length data = Ed.PrivateKeySize ->
     exists a, res = (inl a, files) /\
               PrivateKey a = data /\ PublicKey a = Ed.Public data) /\
  ((forall data, ReadFile files keyPath = Some data ->
      length data <> Ed.PrivateKeySize) ->
   match generated env with
   | None => res = (inr ErrGenerateKey, files)
   | Some (pub, priv) =>
       if mkdir_ok env then
         if write_ok env then
           exists a,
             res = (inl a, WriteFile files keyPath priv 384 (now env)) /\
             PrivateKey a = priv /\ PublicKey a = pub /\
             ReadFile res.2 keyPath = Some priv
         else res = (inr ErrSaveKey, files)
       else res = (inr ErrCreateKeyDir, files)
   end).
Proof.
  intros Hca keyPath res. unfold res, NewRelayAuth. rewrite Hca.
  fold keyPath. unfold load_or_generate. split.
  - intros data Hread Hlen. rewrite Hread, decide_True by exact Hlen.
    eexists. split; [reflexivity|]. apply loadCRL_keys.
  - intros Hbad.
    assert (match ReadFile files keyPath with
            | Some data =>
                if decide (length data = Ed.PrivateKeySize)
                then (inl (data, Ed.Public data), files)
                else generate_and_save keyPath files env
            | None => generate_and_save keyPath files env
            end = generate_and_save keyPath files env) as ->.
    { destruct (ReadFile files keyPath) as [data|] eqn:Hread; [|reflexivity].
      rewrite decide_False; [reflexivity|]. now apply Hbad. }
    unfold generate_and_save.
    destruct (generated env) as [[pub priv]|]; [|reflexivity].
    destruct (mkdir_ok env); cbn [negb]; [|reflexivity].
    destruct (write_ok env); cbn [negb]; [|reflexivity].
    eexists. split; [reflexivity|].
    split; [apply loadCRL_keys|]. split; [apply loadCRL_keys|].
    apply ReadFile_WriteFile.
Qed.

Lemma NewRelayAuth_key_policy_witness :
  let keyDir := list_byte_of_string "/etc/bitchat" in
  let keyPath := Join keyDir (list_byte_of_string "relay_ed25519.key") in
  let files : gmap bytes file :=
    {[ keyPath := {| data := make 64; perm := 384; modTime := 0 |} ]} in
  let env := {| generated := Some (repeat x01 32, repeat x01 64);
                mkdir_ok := true; write_ok := true; now := 1 |} in
  load_ca [] = inl None /\
  (ReadFile files keyPath = Some (make 64) /\
   exists a, NewRelayAuth keyDir [] [] files env = (inl a, files) /\
             PrivateKey a = make 64 /\ PublicKey a = Ed.Public (make 64)) /\
  (ReadFile ∅ keyPath = None /\
   exists a, NewRelayAuth keyDir [] [] ∅ env =
               (inl a, WriteFile ∅ keyPath (repeat x01 64) 384 1) /\
             PrivateKey a = repeat x01 64 /\ PublicKey a = repeat x01 32 /\
             ReadFile (NewRelayAuth keyDir [] [] ∅ env).2 keyPath =
               Some (repeat x01 64)).
Proof.
  cbn zeta. split; [reflexivity|]. split; (split; [reflexivity|]).
  - apply (proj1 (NewRelayAuth_key_policy
                    (list_byte_of_string "/etc/bitchat") [] []
                    _ _ None eq_refl)
             (make 64)); reflexivity.
  - apply (proj2 (NewRelayAuth_key_policy
                    (list_byte_of_string "/etc/bitchat") [] [] ∅
                    {| generated := Some (repeat x01 32, repeat x01 64);
                       mkdir_ok := true; write_ok := true; now := 1 |}
                    None eq_refl)).
    intros data Hread. discriminate Hread.
Defined.

End RelayIdentity.

(** *** The daemon on sample data *)

Section Samples.

Import Dedup Auth Relay Fixtures.

#[local] Existing Instance stub_ed25519.

Example world_open_start :
  with_mesh small_config this_relay = Some world_open.
Proof. reflexivity. Qed.

Example world_default_start :
  standalone Config.DefaultConfig = Some world_default.
Proof. reflexivity. Qed.

Example RecvLoop_sample_run :
  snd <$> RecvLoop world_open inputs =
  Some [[]; [];
        [EvVerify (repeat x02 32) hello (ed25519_Sign (repeat x02 64) hello);
         EvRouteFromMesh hello];
        []].
Proof. vm_compute. reflexivity. Qed.

Lemma RecvLoop_routes_only_foreign_unrevoked_witness :
  exists w1 trs,
    auth (theMesh world_open) = Some this_relay /\
    RecvLoop world_open inputs = Some (w1, trs) /\
    forall i input tr,
      inputs !! i = Some input -> trs !! i = Some tr ->
      (forall data, EvRouteFromMesh data ∈ tr ->
         exists dgram, input = Some dgram /\
           take 32 dgram <> PublicKey this_relay /\
           Hex.EncodeToString (take 32 dgram) ∉ revokedKeys this_relay) /\
      (forall dgram, input = Some dgram ->
         take 32 dgram = PublicKey this_relay \/
           Hex.EncodeToString (take 32 dgram) ∈ revokedKeys this_relay ->
         tr = []).
Proof.
  pose proof RecvLoop_sample_run as Hsample.
  destruct (RecvLoop world_open inputs) as [[w1 trs]|] eqn:Hrun;
    [|discriminate Hsample].
  exists w1, trs. split; [reflexivity|]. split; [reflexivity|].
  exact (RecvLoop_routes_only_foreign_unrevoked inputs world_open w1 trs
           this_relay eq_refl Hrun).
Defined.

Lemma RecvLoop_drops_bare_header_witness :
  ((length (datagram_from x02 []) <= pubKeyLen + sigLen)%nat /\
   RecvLoop_iter world_open (Some (datagram_from x02 [])) =
   Some (world_open, [])) /\
  ((length (datagram_from x02 hello) <= caHeaderLen)%nat /\
   RecvLoop_iter world_ca (Some (datagram_from x02 hello)) =
   Some (world_ca, [])) /\
  (forall w1 tr data,
     RecvLoop_iter world_open (Some (datagram_from x02 hello)) = Some (w1, tr) ->
     EvRouteFromMesh data ∈ tr -> data <> []).
Proof.
  assert (length (datagram_from x02 []) <= pubKeyLen + sigLen)%nat as Hlen
    by (vm_compute; lia).
  assert (length (datagram_from x02 hello) <= caHeaderLen)%nat as Hlen2
    by (vm_compute; lia).
  split; [split; [exact Hlen|]|split; [split; [exact Hlen2|]|]].
  - exact (proj1 (RecvLoop_drops_bare_header world_open
                    (datagram_from x02 [])) Hlen).
  - exact (proj1 (proj2 (RecvLoop_drops_bare_header world_ca
                           (datagram_from x02 hello)))
             _ eq_refl eq_refl Hlen2).
  - exact (proj2 (proj2 (RecvLoop_drops_bare_header world_open
                           (datagram_from x02 hello)))).
Defined.

Lemma world_open_buffered : buffered 3 [] world_open.
Proof.
  split.
  - repeat split. intros i p Hi. discriminate Hi.
  - intros h Hh. now apply not_elem_of_empty in Hh.
Qed.

Lemma world_default_buffered : buffered 1000 [] world_default.
Proof.
  split.
  - repeat split. intros i p Hi. discriminate Hi.
  - intros h Hh. now apply not_elem_of_empty in Hh.
Qed.

End Samples.

(** *** The frame codec, read the other way *)

Section FrameDecoding.

Import Frame.

Lemma byte_of_Z_bits x b :
  (forall n, 0 <= n < 8 -> Z.testbit x n = Z.testbit (Z_of_byte b) n) ->
  byte_of_Z x = b.
Proof.
  intros Hbits. rewrite <- (byte_of_Z_of_byte b). unfold byte_of_Z.
  replace (x mod 256) with (Z_of_byte b mod 256); [reflexivity|].
  change 256 with (2 ^ 8). apply Z.bits_inj'. intros n Hn.
  rewrite !Z.testbit_mod_pow2 by lia.
  destruct (Z.ltb_spec n 8); [|reflexivity]. cbn.
  symmetry. apply Hbits. lia.
Qed.

Lemma testbit_Z_of_byte_high b n : 8 <= n -> Z.testbit (Z_of_byte b) n = false.
Proof.
  intros Hn. apply (testbit_above_pow2 _ 8); [|lia].
  pose proof (Z_of_byte_range b). lia.
Qed.

(** Bit [n] of a byte that sits [s] bits up in a word. *)
Lemma testbit_shifted_byte b s n :
  0 <= s -> 0 <= n ->
  Z.testbit (Z.shiftl (Z_of_byte b) s) n =
  if decide (s <= n < s + 8) then Z.testbit (Z_of_byte b) (n - s) else false.
Proof.
  intros Hs Hn. rewrite Z.shiftl_spec by lia.
  destruct (decide (s <= n < s + 8)); [reflexivity|].
  destruct (Z.lt_ge_cases n s).
  - apply Z.testbit_neg_r. lia.
  - apply testbit_Z_of_byte_high. lia.
Qed.

Ltac byte_bits :=
  apply byte_of_Z_bits; intros n Hn;
  rewrite ?Z.shiftr_spec, ?Z.lor_spec, ?testbit_shifted_byte by lia;
  repeat match goal with
    | |- context [decide (?a <= ?m < ?b)] =>
        destruct (decide (a <= m < b)); try lia
    end;
  rewrite ?testbit_Z_of_byte_high by lia;
  rewrite ?orb_false_r, ?orb_false_l;
  try (f_equal; lia).

Lemma PutUint32_Uint32 (b : bytes) :
  length b = 4%nat -> PutUint32 (make 4) (Uint32 b) = b.
Proof.
  intros Hb.
  destruct b as [|b0 [|b1 [|b2 [|b3 [|]]]]]; try discriminate Hb.
  unfold PutUint32. rewrite copy_exact by reflexivity.
  unfold Uint32.
  f_equal; [|f_equal; [|f_equal; [|f_equal]]]; byte_bits.
Qed.

Lemma lor_range x y k :
  0 <= k -> 0 <= x < 2 ^ k -> 0 <= y < 2 ^ k -> 0 <= Z.lor x y < 2 ^ k.
Proof.
  intros Hk Hx Hy.
  assert (0 <= Z.lor x y) as Hpos by (apply Z.lor_nonneg; lia).
  split; [exact Hpos|].
  destruct (Z.eq_dec (Z.lor x y) 0) as [->|Hne]; [lia|].
  assert (0 < k) as Hk1.
  { destruct (Z.eq_dec k 0) as [->|]; [|lia].
    replace x with 0 in Hne by lia. replace y with 0 in Hne by lia.
    now contradiction Hne. }
  apply Z.log2_lt_pow2; [lia|].
  rewrite Z.log2_lor by lia.
  apply Z.max_lub_lt.
  - destruct (Z.eq_dec x 0) as [->|]; [cbn; lia|].
    apply Z.log2_lt_pow2; lia.
  - destruct (Z.eq_dec y 0) as [->|]; [cbn; lia|].
    apply Z.log2_lt_pow2; lia.
Qed.

Lemma Uint32_range (b : bytes) : 0 <= Uint32 b < 2 ^ 32.
Proof.
  destruct b as [|b0 [|b1 [|b2 [|b3 t]]]]; cbn [Uint32]; try lia.
  pose proof (Z_of_byte_range b0). pose proof (Z_of_byte_range b1).
  pose proof (Z_of_byte_range b2). pose proof (Z_of_byte_range b3).
  rewrite !Z.shiftl_mul_pow2 by lia.
  repeat (apply lor_range; [lia| |]); lia.
Qed.

(** What [io.ReadFull] got is the front of the stream. *)
Lemma ReadFull_Some c n got rest :
  ReadFull c n = (Some got, rest) ->
  c = got ++ rest /\ length got = n.
Proof.
  unfold ReadFull. destruct (decide _); [|discriminate].
  intros [= <- <-]. rewrite take_drop, length_take. split; [reflexivity|lia].
Qed.

Lemma to_int_small intSize v :
  intSize = 32 \/ intSize = 64 -> 0 <= v < 2 ^ (intSize - 1) ->
  to_int intSize v = v.
Proof.
  intros Hsize Hv. unfold to_int.
  rewrite Z.mod_small by (destruct Hsize as [-> | ->]; lia).
  now rewrite decide_True by lia.
Qed.

(** A frame comes only from its encoding. *)
Lemma ReadFrame_inl intSize c maxPayload f rest :
  intSize = 32 \/ intSize = 64 ->
  ReadFrame intSize c maxPayload = Some (inl f, rest) ->
  c = WriteFrame_buf (Type_ f) (Payload f) ++ rest /\
  Z.of_nat (length (Payload f)) <= maxPayload /\
  Z.of_nat (length (Payload f)) < 2 ^ (intSize - 1).
Proof.
  intros Hsize. unfold ReadFrame.
  destruct (ReadFull c 5) as [[header|] c1] eqn:Hhdr; [|discriminate].
  apply ReadFull_Some in Hhdr as [-> Hlen].
  destruct header as [|t [|h0 [|h1 [|h2 [|h3 [|]]]]]]; try discriminate Hlen.
  cbn [nth slice Nat.sub take drop].
  set (L := Uint32 [h0; h1; h2; h3]).
  pose proof (Uint32_range [h0; h1; h2; h3]) as HL. fold L in HL.
  destruct (decide (to_int intSize L > maxPayload)) as [|Hfit]; [discriminate|].
  destruct (decide (2 ^ (intSize - 1) <= L)) as [|Hint]; [discriminate|].
  rewrite to_int_small in Hfit by (auto; lia).
  assert (t :: PutUint32 (make 4) (uint32 L) = [t; h0; h1; h2; h3]) as Hhead.
  { unfold uint32. rewrite Z.mod_small by lia. unfold L.
    now rewrite PutUint32_Uint32. }
  destruct (decide (L > 0)) as [Hpos|Hzero].
  - destruct (ReadFull c1 (Z.to_nat L)) as [[payload|] c2] eqn:Hpay;
      [|discriminate].
    apply ReadFull_Some in Hpay as [-> Hplen].
    intros [= <- <-]. cbn [Type_ Payload].
    rewrite WriteFrame_buf_layout, Hplen, Z2Nat.id by lia.
    split; [|lia].
    change (t :: PutUint32 (make 4) (uint32 L) ++ payload)
      with ((t :: PutUint32 (make 4) (uint32 L)) ++ payload).
    now rewrite Hhead.
  - intros [= <- <-]. cbn [Type_ Payload].
    assert (L = 0) as HL0 by lia. rewrite HL0 in *.
    change (make (Z.to_nat 0)) with (@nil byte). cbn [length].
    split; [|split; [lia|destruct Hsize as [-> | ->]; lia]].
    rewrite WriteFrame_buf_layout. cbn [length]. change (Z.of_nat 0) with 0.
    now rewrite app_nil_r, Hhead.
Qed.

(** The encoding of a frame within the limit reads back as the frame. *)
Lemma ReadFrame_encoded intSize t p maxPayload rest :
  intSize = 32 \/ intSize = 64 ->
  Z.of_nat (length p) <= maxPayload ->
  Z.of_nat (length p) < 2 ^ (intSize - 1) ->
  Z.of_nat (length p) < 2 ^ 32 ->
  ReadFrame intSize (WriteFrame_buf t p ++ rest) maxPayload =
  Some (inl {| Type_ := t; Payload := p |}, rest).
Proof.
  intros Hsize Hp Hint Hmax.
  rewrite WriteFrame_buf_layout.
  set (v := Z.of_nat (length p)) in *.
  assert (Hv : uint32 v = v) by (unfold uint32; apply Z.mod_small; lia).
  rewrite Hv.
  pose proof (Uint32_PutUint32 (make 4) v eq_refl ltac:(lia)) as Hrt.
  set (hdr := PutUint32 (make 4) v) in *.
  assert (Hh : length hdr = 4%nat) by (unfold hdr, PutUint32; apply length_copy).
  destruct hdr as [|h0 [|h1 [|h2 [|h3 [|]]]]]; try discriminate Hh.
  unfold ReadFrame, ReadFull. simpl length.
  rewrite decide_True by lia.
  cbn [take drop app nth slice Nat.sub].
  rewrite !firstn_O, !drop_0, Hrt.
  rewrite to_int_small by (auto; lia).
  rewrite decide_False by lia. rewrite decide_False by lia.
  destruct (decide (v > 0)) as [Hpos|Hzero].
  - rewrite decide_True by (rewrite length_app; lia).
    unfold v. rewrite Nat2Z.id.
    rewrite take_app_length, drop_app_length. reflexivity.
  - assert (length p = 0%nat) as Hl by lia.
    destruct p; [|discriminate Hl]. reflexivity.
Qed.

(** [ReadFrame] once the five bytes of a header are in. *)
Lemma ReadFrame_header intSize t L c1 maxPayload :
  0 <= L < 2 ^ 32 ->
  ReadFrame intSize (t :: PutUint32 (make 4) L ++ c1) maxPayload =
  if decide (to_int intSize L > maxPayload) then
    Some (inr (ErrFrameTooLarge L maxPayload), c1)
  else if decide (2 ^ (intSize - 1) <= L) then None
  else if decide (L > 0) then
    match ReadFull c1 (Z.to_nat L) with
    | (None, c2) => Some (inr ErrReadPayload, c2)
    | (Some payload, c2) =>
        Some (inl {| Type_ := t; Payload := payload |}, c2)
    end
  else Some (inl {| Type_ := t; Payload := make (Z.to_nat L) |}, c1).
Proof.
  intros HL.
  pose proof (Uint32_PutUint32 (make 4) L eq_refl HL) as Hrt.
  set (hdr := PutUint32 (make 4) L) in *.
  assert (Hh : length hdr = 4%nat) by (unfold hdr, PutUint32; apply length_copy).
  destruct hdr as [|h0 [|h1 [|h2 [|h3 [|]]]]]; try discriminate Hh.
  unfold ReadFrame. unfold ReadFull at 1. simpl length.
  rewrite decide_True by lia.
  cbn [take drop app nth slice Nat.sub].
  rewrite !firstn_O, !drop_0, Hrt. reflexivity.
Qed.

(** X1: [ReadFrame] returns a frame exactly on the byte streams that
    start with the encoding [WriteFrame] gives this frame, and only when the
    payload is within the limit; what follows the encoding is left on the
    stream. *)
Theorem ReadFrame_frame_iff intSize c maxPayload f rest :
  intSize = 32 \/ intSize = 64 ->
  maxPayload < 2 ^ (intSize - 1) -> maxPayload < 2 ^ 32 ->
  ReadFrame intSize c maxPayload = Some (inl f, rest) <->
  c = WriteFrame_buf (Type_ f) (Payload f) ++ rest /\
  Z.of_nat (length (Payload f)) <= maxPayload.
Proof.
  intros Hsize Hint Hmax. split.
  - intros Hread. apply ReadFrame_inl in Hread as (Hc & Hfit & _); auto.
  - intros [-> Hfit]. destruct f as [t p]. cbn [Type_ Payload] in *.
    apply ReadFrame_encoded; auto; lia.
Qed.

Lemma ReadFrame_frame_iff_witness :
  (64 = 32 \/ 64 = 64) /\ 65536 < 2 ^ (64 - 1) /\ 65536 < 2 ^ 32 /\
  (ReadFrame 64 [x20; x00; x00; x00; x01; x2a; x10] 65536 =
     Some (inl {| Type_ := FramePing; Payload := [x2a] |}, [x10]) <->
   [x20; x00; x00; x00; x01; x2a; x10] =
     WriteFrame_buf FramePing [x2a] ++ [x10] /\
   Z.of_nat (length [x2a]) <= 65536).
Proof.
  split; [right; reflexivity|]. split; [lia|]. split; [lia|].
  apply (ReadFrame_frame_iff 64 [x20; x00; x00; x00; x01; x2a; x10] 65536
           {| Type_ := FramePing; Payload := [x2a] |} [x10]);
    [right; reflexivity | lia | lia].
Defined.

(** X2: a stream that ends inside a frame gives an error and no frame:
    [ErrReadHeader] when fewer than five bytes came, [ErrReadPayload] when
    the payload is cut short. *)
Theorem ReadFrame_truncated intSize t p maxPayload (k : nat) :
  intSize = 32 \/ intSize = 64 ->
  Z.of_nat (length p) <= maxPayload ->
  maxPayload < 2 ^ (intSize - 1) -> maxPayload < 2 ^ 32 ->
  (k < 5 + length p)%nat ->
  ReadFrame intSize (take k (WriteFrame_buf t p)) maxPayload =
  Some (inr (if decide (k < 5)%nat then ErrReadHeader else ErrReadPayload), []).
Proof.
  intros Hsize Hp Hint Hmax Hk.
  destruct (decide (k < 5)%nat) as [Hshort|Hlong].
  - unfold ReadFrame, ReadFull.
    rewrite decide_False; [reflexivity|].
    rewrite length_take, length_WriteFrame_buf. lia.
  - rewrite WriteFrame_buf_layout.
    set (v := Z.of_nat (length p)) in *.
    assert (Hv : uint32 v = v) by (unfold uint32; apply Z.mod_small; lia).
    rewrite Hv.
    replace (take k (t :: PutUint32 (make 4) v ++ p))
      with (t :: PutUint32 (make 4) v ++ take (k - 5) p).
    2:{ change (t :: PutUint32 (make 4) v ++ p)
          with ((t :: PutUint32 (make 4) v) ++ p).
        rewrite take_app.
        assert (length (t :: PutUint32 (make 4) v) = 5%nat) as Hl5
          by (cbn [length]; unfold PutUint32; now rewrite length_copy).
        rewrite (take_ge (t :: PutUint32 (make 4) v))
          by (cbn [length] in Hl5 |- *; lia).
        now rewrite Hl5. }
    rewrite ReadFrame_header by lia.
    rewrite to_int_small by (auto; lia).
    rewrite decide_False by lia. rewrite decide_False by lia.
    rewrite decide_True by lia.
    unfold ReadFull. rewrite decide_False; [reflexivity|].
    rewrite length_take. unfold v. lia.
Qed.

Lemma ReadFrame_truncated_witness :
  ReadFrame 32 (take 3 (WriteFrame_buf FrameData [x68; x69])) 65536 =
    Some (inr ErrReadHeader, []) /\
  ReadFrame 32 (take 6 (WriteFrame_buf FrameData [x68; x69])) 65536 =
    Some (inr ErrReadPayload, []).
Proof.
  split.
  - apply (ReadFrame_truncated 32 FrameData [x68; x69] 65536 3);
      [left; reflexivity | cbn; lia | lia | lia | cbn; lia].
  - apply (ReadFrame_truncated 32 FrameData [x68; x69] 65536 6);
      [left; reflexivity | cbn; lia | lia | lia | cbn; lia].
Defined.

(** X3: a header that announces more than the limit is refused when the
    five bytes of the header are read: nothing of what follows is read, and
    no payload is allocated. *)
Theorem ReadFrame_too_large intSize t L maxPayload rest :
  intSize = 32 \/ intSize = 64 ->
  maxPayload < L -> L < 2 ^ 32 -> L < 2 ^ (intSize - 1) -> 0 <= L ->
  ReadFrame intSize (t :: PutUint32 (make 4) L ++ rest) maxPayload =
  Some (inr (ErrFrameTooLarge L maxPayload), rest).
Proof.
  intros Hsize Hbig H32 Hint Hpos.
  rewrite ReadFrame_header by lia.
  rewrite to_int_small by (auto; lia).
  now rewrite decide_True by lia.
Qed.

Lemma ReadFrame_too_large_witness :
  ReadFrame 32 (FrameData :: PutUint32 (make 4) 65537 ++ [x01; x02]) 65536 =
  Some (inr (ErrFrameTooLarge 65537 65536), [x01; x02]).
Proof.
  apply (ReadFrame_too_large 32 FrameData 65537 65536 [x01; x02]);
    [left; reflexivity | lia | lia | lia | lia].
Defined.

(** X4: where [int] has 32 bits, a length field of [2^31] or more is
    negative as an [int], passes the comparison with the limit, and the
    allocation of the payload panics, whatever the limit and the bytes that
    follow. *)
Theorem ReadFrame_int32_panics t L maxPayload rest :
  2 ^ 31 <= L < 2 ^ 32 -> 0 <= maxPayload ->
  ReadFrame 32 (t :: PutUint32 (make 4) L ++ rest) maxPayload = None.
Proof.
  intros HL Hmax.
  rewrite ReadFrame_header by lia.
  assert (to_int 32 L = L - 2 ^ 32) as ->.
  { unfold to_int. rewrite Z.mod_small by lia.
    now rewrite decide_False by lia. }
  rewrite decide_False by lia.
  now rewrite decide_True by lia.
Qed.

Lemma ReadFrame_int32_panics_witness :
  ReadFrame 32 (FrameHello :: PutUint32 (make 4) (2 ^ 32 - 1) ++ []) 65536
  = None.
Proof.
  apply (ReadFrame_int32_panics FrameHello (2 ^ 32 - 1) 65536 []); lia.
Defined.

End FrameDecoding.

(** *** The handshake *)

Section HandshakeFacts.

Import Frame Net Handshake Config.

Lemma Net_ReadFrame_inl intSize conn maxPayload f conn1 :
  intSize = 32 \/ intSize = 64 ->
  Net.ReadFrame intSize conn maxPayload = Some (inl f, conn1) ->
  input conn = WriteFrame_buf (Type_ f) (Payload f) ++ input conn1 /\
  output conn1 = output conn /\ failing conn1 = failing conn /\
  Z.of_nat (length (Payload f)) <= maxPayload.
Proof.
  intros Hsize. unfold Net.ReadFrame.
  destruct (Frame.ReadFrame intSize (input conn) maxPayload)
    as [[r rest]|] eqn:Hread; [|discriminate].
  intros [= -> <-]. cbn.
  apply ReadFrame_inl in Hread as (Hc & Hfit & _); auto.
Qed.

Lemma Net_ReadFrame_encoded intSize conn t p maxPayload rest :
  intSize = 32 \/ intSize = 64 ->
  Z.of_nat (length p) <= maxPayload ->
  maxPayload < 2 ^ (intSize - 1) -> maxPayload < 2 ^ 32 ->
  input conn = WriteFrame_buf t p ++ rest ->
  Net.ReadFrame intSize conn maxPayload =
  Some (inl {| Type_ := t; Payload := p |},
        {| input := rest; output := output conn; failing := failing conn |}).
Proof.
  intros Hsize Hp Hint Hmax Hin. unfold Net.ReadFrame.
  rewrite Hin, ReadFrame_encoded by (auto; lia). reflexivity.
Qed.

(** The payload of the [CHALLENGE] frame: the nonce, then the difficulty. *)
Lemma challenge_layout (nonce : bytes) d :
  length nonce = 32%nat ->
  <[32%nat := d]> (copy_range (make 33) 0 32 nonce) = nonce ++ [d].
Proof.
  intros Hn. unfold copy_range, with_slice, slice.
  change (take 0 (make 33)) with (@nil byte).
  change (take (32 - 0) (drop 0 (make 33))) with (make 32).
  change (drop 32 (make 33)) with [x00].
  rewrite copy_exact by (rewrite Hn; reflexivity).
  cbn [app]. rewrite insert_app_r_alt by lia.
  rewrite Hn. reflexivity.
Qed.

Lemma length_nonce r : length (copy (make 32) r) = 32%nat.
Proof. now rewrite length_copy. Qed.

Lemma Write_ok conn buf conn1 :
  Write conn buf = (true, conn1) ->
  input conn1 = input conn /\ output conn1 = output conn ++ [buf].
Proof.
  unfold Write. destruct (failing conn) as [|[|] later];
    intros [= <-]; auto.
Qed.

Lemma Write_failed conn buf conn1 :
  Write conn buf = (false, conn1) ->
  input conn1 = input conn /\ output conn1 = output conn.
Proof.
  unfold Write. destruct (failing conn) as [|[|] later];
    intros [= <-]; auto.
Qed.

Lemma Write_reliable conn buf :
  failing conn = [] ->
  Write conn buf = (true, {| input := input conn;
                             output := output conn ++ [buf];
                             failing := [] |}).
Proof. unfold Write. now intros ->. Qed.

(** X5: when [PerformHandshake] returns a peer ID, the client has sent a
    [HELLO] frame of protocol version 1 that carries this peer ID, then a
    [SOLUTION] frame of eight bytes that solves the challenge at the
    difficulty of the configuration; the server has written the
    [CHALLENGE] frame (nonce, then difficulty) and the [ACCEPT] frame and
    nothing else; and when the list of allowed certificate hashes is not
    empty, the [HELLO] carried a hash the list maps to [true]. *)
Theorem PerformHandshake_sound intSize conn cfg allowed rnd peerID conn1 :
  intSize = 32 \/ intSize = 64 ->
  PerformHandshake intSize conn cfg allowed rnd = Some (inl peerID, conn1) ->
  exists hello sol r (n : nat),
    input conn = WriteFrame_buf FrameHello hello
                 ++ WriteFrame_buf FrameSolution sol ++ input conn1 /\
    Uint16 (take 2 hello) = ProtocolVersion /\
    n = Z.to_nat (Z_of_byte (nth 2 hello x00)) /\
    (3 + n <= length hello)%nat /\
    peerID = take n (drop 3 hello) /\
    rnd = Some r /\
    length sol = 8%nat /\
    PoW.VerifyPoW (copy (make 32) r) (Uint64 sol) (PoWDifficulty cfg)
      = Some true /\
    output conn1 =
      output conn
      ++ [WriteFrame_buf FrameChallenge
            (copy (make 32) r ++ [byte_of_Z (PoWDifficulty cfg)]);
          WriteFrame_buf FrameAccept []] /\
    ((0 < base.size allowed)%nat ->
     (3 + n + 32 <= length hello)%nat /\
     allowed !! Hex.EncodeToString (take 32 (drop (3 + n) hello))
       = Some true).
Proof.
  intros Hsize Hrun. unfold PerformHandshake in Hrun.
  destruct (Net.ReadFrame intSize conn (MaxPacketSize cfg))
    as [[[[ht hello]|e] c1]|] eqn:Hhello; try discriminate.
  apply Net_ReadFrame_inl in Hhello as (Hin1 & Hout1 & Hfail1 & _); auto.
  cbn [Type_ Payload] in *.
  destruct (decide (ht <> FrameHello)) as [|Hht]; [discriminate|].
  apply dec_stable in Hht. subst ht.
  destruct (decide (length hello < 3)%nat) as [|Hlen3]; [discriminate|].
  set (n := Z.to_nat (Z_of_byte (nth 2 hello x00))) in *.
  destruct (decide (length hello < 3 + n)%nat) as [|Hlenn]; [discriminate|].
  destruct (decide (Uint16 (slice hello 0 2) <> ProtocolVersion))
    as [|Hver]; [discriminate|].
  apply dec_stable in Hver.
  destruct (check_cert_hash c1 hello (slice hello 3 (3 + n)) n allowed)
    as [[e c2]|c2] eqn:Hcert; [discriminate|].
  assert (c2 = c1 /\
          ((0 < base.size allowed)%nat ->
           (3 + n + 32 <= length hello)%nat /\
           allowed !! Hex.EncodeToString (take 32 (drop (3 + n) hello))
             = Some true)) as [-> Hallowed].
  { unfold check_cert_hash in Hcert.
    destruct (decide (3 + n + 32 <= length hello)%nat) as [Hhas|Hnone].
    - destruct (decide (0 < base.size allowed)%nat) as [Hon|Hoff].
      + unfold slice in Hcert.
        replace (3 + n + 32 - (3 + n))%nat with 32%nat in Hcert by lia.
        destruct (allowed !! Hex.EncodeToString (take 32 (drop (3 + n) hello)))
          as [[|]|] eqn:Hlook; cbn in Hcert; try discriminate.
        injection Hcert as <-. auto.
      + injection Hcert as <-. split; [reflexivity|]. intros; lia.
    - destruct (decide (0 < base.size allowed)%nat) as [Hon|Hoff];
        [discriminate|].
      injection Hcert as <-. split; [reflexivity|]. intros; lia. }
  unfold challenge_response in Hrun.
  destruct rnd as [r|]; cbn [GenerateChallenge] in Hrun; [|discriminate].
  rewrite challenge_layout in Hrun by apply length_nonce.
  destruct (WriteFrame c1 FrameChallenge _) as [[|] c3] eqn:Hw1;
    [|discriminate].
  apply Write_ok in Hw1 as [Hin3 Hout3].
  destruct (Net.ReadFrame intSize c3 (MaxPacketSize cfg))
    as [[[[st sol]|e] c4]|] eqn:Hsol; try discriminate.
  apply Net_ReadFrame_inl in Hsol as (Hin4 & Hout4 & Hfail4 & _); auto.
  cbn [Type_ Payload] in *.
  destruct (decide (st <> FrameSolution)) as [|Hst]; [discriminate|].
  apply dec_stable in Hst. subst st.
  destruct (decide (length sol <> 8%nat)) as [|Hlen8]; [discriminate|].
  apply dec_stable in Hlen8.
  destruct (PoW.VerifyPoW _ _ _) as [[|]|] eqn:Hpow; try discriminate.
  destruct (WriteFrame c4 FrameAccept []) as [[|] c5] eqn:Hw2;
    [|discriminate].
  apply Write_ok in Hw2 as [Hin5 Hout5].
  injection Hrun as <- <-.
  exists hello, sol, r, n.
  split; [rewrite Hin1, Hin5, <- Hin3, Hin4; reflexivity|].
  split; [unfold slice in Hver; now rewrite drop_0 in Hver|].
  split; [reflexivity|]. split; [lia|].
  split; [unfold slice; f_equal; lia|].
  split; [reflexivity|]. split; [exact Hlen8|]. split; [exact Hpow|].
  split; [|exact Hallowed].
  rewrite Hout5, Hout4, Hout3, Hout1, <- app_assoc. reflexivity.
Qed.

Lemma check_cert_hash_pass conn hello peerID (n : nat) allowed :
  ((0 < base.size allowed)%nat ->
   (3 + n + 32 <= length hello)%nat /\
   allowed !! Hex.EncodeToString (take 32 (drop (3 + n) hello)) = Some true) ->
  check_cert_hash conn hello peerID n allowed = inr conn.
Proof.
  intros Hallowed. unfold check_cert_hash.
  destruct (decide (0 < base.size allowed)%nat) as [Hon|Hoff].
  - destruct (Hallowed Hon) as [Hhas Hlook].
    rewrite decide_True by lia. unfold slice.
    replace (3 + n + 32 - (3 + n))%nat with 32%nat by lia.
    now rewrite Hlook.
  - destruct (decide _); reflexivity.
Qed.

(** The start of [PerformHandshake] on a well-formed [HELLO]. *)
Lemma PerformHandshake_hello intSize conn cfg allowed rnd hello rest (n : nat) :
  intSize = 32 \/ intSize = 64 ->
  MaxPacketSize cfg < 2 ^ (intSize - 1) -> MaxPacketSize cfg < 2 ^ 32 ->
  Z.of_nat (length hello) <= MaxPacketSize cfg ->
  input conn = WriteFrame_buf FrameHello hello ++ rest ->
  Uint16 (take 2 hello) = ProtocolVersion ->
  n = Z.to_nat (Z_of_byte (nth 2 hello x00)) ->
  (3 + n <= length hello)%nat ->
  let conn1 := {| input := rest; output := output conn;
                  failing := failing conn |} in
  let peerID := take n (drop 3 hello) in
  PerformHandshake intSize conn cfg allowed rnd =
  match check_cert_hash conn1 hello peerID n allowed with
  | inl (e, conn2) => Some (inr e, conn2)
  | inr conn2 => challenge_response intSize conn2 cfg peerID rnd
  end.
Proof.
  intros Hsize Hint Hmax Hfit Hin Hver Hn Hlen conn1 peerID.
  unfold PerformHandshake.
  rewrite (Net_ReadFrame_encoded intSize conn FrameHello hello _ rest)
    by (auto; lia).
  cbn [Type_ Payload]. fold conn1.
  rewrite decide_False by (intros Hne; now apply Hne).
  rewrite decide_False by lia.
  rewrite <- Hn. rewrite decide_False by lia.
  change (slice hello 0 2) with (take 2 hello).
  rewrite decide_False by (intros Hne; now apply Hne).
  replace (slice hello 3 (3 + n)) with peerID; [reflexivity|].
  unfold peerID, slice. f_equal. lia.
Qed.

(** The whole handshake on a well-formed [HELLO] and a good solution. *)
Lemma PerformHandshake_complete_aux intSize conn cfg allowed hello sol r rest
    (n : nat) :
  intSize = 32 \/ intSize = 64 ->
  MaxPacketSize cfg < 2 ^ (intSize - 1) -> MaxPacketSize cfg < 2 ^ 32 ->
  Z.of_nat (length hello) <= MaxPacketSize cfg -> 8 <= MaxPacketSize cfg ->
  input conn = WriteFrame_buf FrameHello hello
               ++ WriteFrame_buf FrameSolution sol ++ rest ->
  failing conn = [] ->
  Uint16 (take 2 hello) = ProtocolVersion ->
  n = Z.to_nat (Z_of_byte (nth 2 hello x00)) ->
  (3 + n <= length hello)%nat ->
  ((0 < base.size allowed)%nat ->
   (3 + n + 32 <= length hello)%nat /\
   allowed !! Hex.EncodeToString (take 32 (drop (3 + n) hello)) = Some true) ->
  length sol = 8%nat ->
  PoW.VerifyPoW (copy (make 32) r) (Uint64 sol) (PoWDifficulty cfg)
    = Some true ->
  PerformHandshake intSize conn cfg allowed (Some r) =
  Some (inl (take n (drop 3 hello)),
        {| input := rest;
           output := output conn
                     ++ [WriteFrame_buf FrameChallenge
                           (copy (make 32) r ++ [byte_of_Z (PoWDifficulty cfg)]);
                         WriteFrame_buf FrameAccept []];
           failing := [] |}).
Proof.
  intros Hsize Hint Hmax Hfit H8 Hin Hrel Hver Hn Hlen Hallowed Hsol Hpow.
  rewrite (PerformHandshake_hello intSize conn cfg allowed (Some r) hello
             (WriteFrame_buf FrameSolution sol ++ rest) n) by assumption.
  rewrite check_cert_hash_pass by exact Hallowed.
  unfold challenge_response. cbn [GenerateChallenge].
  rewrite challenge_layout by apply length_nonce.
  unfold WriteFrame. rewrite Write_reliable by exact Hrel.
  cbn [input output failing].
  erewrite Net_ReadFrame_encoded;
    [|exact Hsize| | | |cbn [input]; reflexivity]; [|lia..].
  cbn [Type_ Payload input output failing].
  rewrite decide_False by (intros Hne; now apply Hne).
  rewrite decide_False by (intros Hne; now apply Hne).
  rewrite Hpow. rewrite Write_reliable by reflexivity.
  cbn [input output failing]. now rewrite <- app_assoc.
Qed.

(** X6: a [HELLO] frame of version 1 whose peer ID lies within the
    payload, with an allowed certificate hash when the list is not empty,
    followed by a [SOLUTION] frame of eight bytes that solves the challenge,
    is accepted on a connection whose writes go through: the peer ID is
    returned, the [CHALLENGE] and [ACCEPT] frames are written, and what
    follows the two frames stays on the stream. *)
Theorem PerformHandshake_complete intSize conn cfg allowed hello sol r rest
    (n : nat) :
  intSize = 32 \/ intSize = 64 ->
  MaxPacketSize cfg < 2 ^ (intSize - 1) -> MaxPacketSize cfg < 2 ^ 32 ->
  Z.of_nat (length hello) <= MaxPacketSize cfg -> 8 <= MaxPacketSize cfg ->
  input conn = WriteFrame_buf FrameHello hello
               ++ WriteFrame_buf FrameSolution sol ++ rest ->
  failing conn = [] ->
  Uint16 (take 2 hello) = ProtocolVersion ->
  n = Z.to_nat (Z_of_byte (nth 2 hello x00)) ->
  (3 + n <= length hello)%nat ->
  ((0 < base.size allowed)%nat ->
   (3 + n + 32 <= length hello)%nat /\
   allowed !! Hex.EncodeToString (take 32 (drop (3 + n) hello)) = Some true) ->
  length sol = 8%nat ->
  PoW.VerifyPoW (copy (make 32) r) (Uint64 sol) (PoWDifficulty cfg)
    = Some true ->
  PerformHandshake intSize conn cfg allowed (Some r) =
  Some (inl (take n (drop 3 hello)),
        {| input := rest;
           output := output conn
                     ++ [WriteFrame_buf FrameChallenge
                           (copy (make 32) r ++ [byte_of_Z (PoWDifficulty cfg)]);
                         WriteFrame_buf FrameAccept []];
           failing := [] |}).
Proof.
  intros. now apply (PerformHandshake_complete_aux intSize conn cfg allowed
                       hello sol r rest n).
Qed.

(** X7: when the list of allowed certificate hashes is not empty, a
    [HELLO] that carries no hash (fewer than 32 bytes after the peer ID) or
    a hash the list does not map to [true] is answered with one [REJECT]
    frame and an error, before any challenge is drawn or sent and without
    reading further. *)
Theorem PerformHandshake_cert_hash_enforced intSize conn cfg allowed rnd
    hello rest (n : nat) :
  intSize = 32 \/ intSize = 64 ->
  MaxPacketSize cfg < 2 ^ (intSize - 1) -> MaxPacketSize cfg < 2 ^ 32 ->
  Z.of_nat (length hello) <= MaxPacketSize cfg ->
  input conn = WriteFrame_buf FrameHello hello ++ rest ->
  failing conn = [] ->
  Uint16 (take 2 hello) = ProtocolVersion ->
  n = Z.to_nat (Z_of_byte (nth 2 hello x00)) ->
  (3 + n <= length hello)%nat ->
  (0 < base.size allowed)%nat ->
  let certHashHex := Hex.EncodeToString (take 32 (drop (3 + n) hello)) in
  let peerID := take n (drop 3 hello) in
  (length hello < 3 + n + 32)%nat \/ allowed !! certHashHex <> Some true ->
  exists e reason,
    PerformHandshake intSize conn cfg allowed rnd =
      Some (inr e, {| input := rest;
                      output := output conn
                                ++ [WriteFrame_buf FrameReject reason];
                      failing := [] |}) /\
    ((length hello < 3 + n + 32)%nat /\
     e = ErrCertHashRequired peerID /\
     reason = list_byte_of_string "certificate hash required"
     \/
     (3 + n + 32 <= length hello)%nat /\
     e = ErrRejectedCertHash certHashHex peerID /\
     reason = list_byte_of_string "certificate not authorized").
Proof.
  intros Hsize Hint Hmax Hfit Hin Hrel Hver Hn Hlen Hon certHashHex peerID Hbad.
  rewrite (PerformHandshake_hello intSize conn cfg allowed rnd hello rest n)
    by assumption.
  fold peerID. unfold check_cert_hash.
  destruct (decide (3 + n + 32 <= length hello)%nat) as [Hhas|Hnone].
  - rewrite decide_True by exact Hon.
    unfold slice. replace (3 + n + 32 - (3 + n))%nat with 32%nat by lia.
    fold certHashHex.
    assert (default false (allowed !! certHashHex) = false) as ->.
    { destruct Hbad as [|Hbad]; [lia|].
      destruct (allowed !! certHashHex) as [[|]|]; [congruence|reflexivity..]. }
    cbn [negb]. unfold reject, WriteFrame.
    rewrite Write_reliable by exact Hrel. cbn [snd input output failing].
    exists (ErrRejectedCertHash certHashHex peerID),
           (list_byte_of_string "certificate not authorized").
    split; [reflexivity|]. right. auto.
  - rewrite decide_True by exact Hon.
    unfold reject, WriteFrame.
    rewrite Write_reliable by exact Hrel. cbn [snd input output failing].
    exists (ErrCertHashRequired peerID),
           (list_byte_of_string "certificate hash required").
    split; [reflexivity|]. left. split; [lia|]. auto.
Qed.

(** X8: a [SOLUTION] that does not solve the challenge is answered with
    the [REJECT] frame "invalid proof of work" after the [CHALLENGE] frame,
    and the handshake fails. *)
Theorem PerformHandshake_invalid_pow intSize conn cfg allowed hello sol r rest
    (n : nat) :
  intSize = 32 \/ intSize = 64 ->
  MaxPacketSize cfg < 2 ^ (intSize - 1) -> MaxPacketSize cfg < 2 ^ 32 ->
  Z.of_nat (length hello) <= MaxPacketSize cfg -> 8 <= MaxPacketSize cfg ->
  input conn = WriteFrame_buf FrameHello hello
               ++ WriteFrame_buf FrameSolution sol ++ rest ->
  failing conn = [] ->
  Uint16 (take 2 hello) = ProtocolVersion ->
  n = Z.to_nat (Z_of_byte (nth 2 hello x00)) ->
  (3 + n <= length hello)%nat ->
  ((0 < base.size allowed)%nat ->
   (3 + n + 32 <= length hello)%nat /\
   allowed !! Hex.EncodeToString (take 32 (drop (3 + n) hello)) = Some true) ->
  length sol = 8%nat ->
  PoW.VerifyPoW (copy (make 32) r) (Uint64 sol) (PoWDifficulty cfg)
    = Some false ->
  PerformHandshake intSize conn cfg allowed (Some r) =
  Some (inr (ErrInvalidPoW (take n (drop 3 hello))),
        {| input := rest;
           output := output conn
                     ++ [WriteFrame_buf FrameChallenge
                           (copy (make 32) r ++ [byte_of_Z (PoWDifficulty cfg)]);
                         WriteFrame_buf FrameReject
                           (list_byte_of_string "invalid proof of work")];
           failing := [] |}).
Proof.
  intros Hsize Hint Hmax Hfit H8 Hin Hrel Hver Hn Hlen Hallowed Hsol Hpow.
  rewrite (PerformHandshake_hello intSize conn cfg allowed (Some r) hello
             (WriteFrame_buf FrameSolution sol ++ rest) n) by assumption.
  rewrite check_cert_hash_pass by exact Hallowed.
  unfold challenge_response. cbn [GenerateChallenge].
  rewrite challenge_layout by apply length_nonce.
  unfold WriteFrame. rewrite Write_reliable by exact Hrel.
  cbn [input output failing].
  erewrite Net_ReadFrame_encoded;
    [|exact Hsize| | | |cbn [input]; reflexivity]; [|lia..].
  cbn [Type_ Payload input output failing].
  rewrite decide_False by (intros Hne; now apply Hne).
  rewrite decide_False by (intros Hne; now apply Hne).
  rewrite Hpow. unfold reject, WriteFrame.
  rewrite Write_reliable by reflexivity.
  cbn [input output failing snd]. now rewrite <- app_assoc.
Qed.

Lemma Net_ReadFrame_output intSize conn maxPayload r conn1 :
  Net.ReadFrame intSize conn maxPayload = Some (r, conn1) ->
  output conn1 = output conn.
Proof.
  unfold Net.ReadFrame.
  destruct (Frame.ReadFrame _ _ _) as [[r' rest]|]; [|discriminate].
  now intros [= _ <-].
Qed.

Lemma Write_output conn buf :
  output (Write conn buf).2 = output conn \/
  output (Write conn buf).2 = output conn ++ [buf].
Proof.
  unfold Write. destruct (failing conn) as [|[|] later]; cbn; auto.
Qed.

(** X9: a handshake that fails has written no [ACCEPT] frame: what it
    wrote are [CHALLENGE] and [REJECT] frames only. *)
Theorem PerformHandshake_error_no_accept intSize conn cfg allowed rnd e conn1 :
  PerformHandshake intSize conn cfg allowed rnd = Some (inr e, conn1) ->
  exists outs,
    output conn1 = output conn ++ outs /\
    (forall buf, buf ∈ outs ->
       exists p, buf = WriteFrame_buf FrameChallenge p \/
                 buf = WriteFrame_buf FrameReject p) /\
    WriteFrame_buf FrameAccept [] ∉ outs.
Proof.
  intros Hrun.
  assert (forall outs : list bytes,
            (forall buf, buf ∈ outs ->
               exists p, buf = WriteFrame_buf FrameChallenge p \/
                         buf = WriteFrame_buf FrameReject p) ->
            WriteFrame_buf FrameAccept [] ∉ outs) as Hno.
  { intros outs Hall Hin. destruct (Hall _ Hin) as (p & [Hp|Hp]);
      rewrite !WriteFrame_buf_layout in Hp; discriminate Hp. }
  cut (exists outs,
         output conn1 = output conn ++ outs /\
         forall buf, buf ∈ outs ->
           exists p, buf = WriteFrame_buf FrameChallenge p \/
                     buf = WriteFrame_buf FrameReject p).
  { intros (outs & Hout & Hall). exists outs. auto. }
  assert (forall c reason,
            exists outs, output (reject c reason) = output c ++ outs /\
              forall buf, buf ∈ outs ->
                exists p, buf = WriteFrame_buf FrameChallenge p \/
                          buf = WriteFrame_buf FrameReject p) as Hrej.
  { intros c reason. unfold reject, WriteFrame.
    destruct (Write_output c (WriteFrame_buf FrameReject reason)) as [-> | ->].
    - exists []. rewrite app_nil_r. split; [reflexivity|].
      intros buf Hin. now apply elem_of_nil in Hin.
    - eexists. split; [reflexivity|].
      intros buf Hin. apply list_elem_of_singleton in Hin as ->. eauto. }
  assert (exists outs : list bytes, output conn = output conn ++ outs /\
            forall buf, buf ∈ outs ->
              exists p, buf = WriteFrame_buf FrameChallenge p \/
                        buf = WriteFrame_buf FrameReject p) as Hnil.
  { exists []. rewrite app_nil_r. split; [reflexivity|].
    intros buf Hin. now apply elem_of_nil in Hin. }
  unfold PerformHandshake in Hrun.
  destruct (Net.ReadFrame intSize conn (MaxPacketSize cfg))
    as [[[[ht hello]|e1] c1]|] eqn:Hhello; try discriminate.
  2:{ injection Hrun as <- <-.
      rewrite (Net_ReadFrame_output _ _ _ _ _ Hhello). exact Hnil. }
  apply Net_ReadFrame_output in Hhello as Hout1.
  cbn [Type_ Payload] in Hrun. rewrite <- Hout1 in *.
  destruct (decide (ht <> FrameHello));
    [injection Hrun as <- <-; exact Hnil|].
  destruct (decide (length hello < 3)%nat);
    [injection Hrun as <- <-; exact Hnil|].
  destruct (decide (length hello < 3 + _)%nat);
    [injection Hrun as <- <-; exact Hnil|].
  destruct (decide (Uint16 _ <> ProtocolVersion));
    [injection Hrun as <- <-; apply Hrej|].
  destruct (check_cert_hash _ _ _ _ _) as [[e2 c2]|c2] eqn:Hcert.
  { injection Hrun as <- <-. unfold check_cert_hash in Hcert.
    repeat (destruct (decide _) in Hcert; try discriminate);
      try (destruct (negb _) in Hcert; try discriminate);
      injection Hcert as <- <-; apply Hrej. }
  assert (c2 = c1) as ->.
  { unfold check_cert_hash in Hcert.
    repeat (destruct (decide _) in Hcert; try discriminate);
      try (destruct (negb _) in Hcert; try discriminate);
      now injection Hcert as <-. }
  unfold challenge_response in Hrun.
  destruct (GenerateChallenge rnd) as [nonce|];
    [|injection Hrun as <- <-; exact Hnil].
  set (challenge := <[32%nat:=_]> _) in Hrun.
  destruct (WriteFrame c1 FrameChallenge challenge) as [[|] c3] eqn:Hw1.
  2:{ injection Hrun as <- <-.
      apply Write_failed in Hw1 as [_ ->]. exact Hnil. }
  apply Write_ok in Hw1 as [_ Hout3].
  assert (forall c outs2,
            output c = output c3 ++ outs2 ->
            (forall buf, buf ∈ outs2 ->
               exists p, buf = WriteFrame_buf FrameChallenge p \/
                         buf = WriteFrame_buf FrameReject p) ->
            exists outs, output c = output c1 ++ outs /\
              forall buf, buf ∈ outs ->
                exists p, buf = WriteFrame_buf FrameChallenge p \/
                          buf = WriteFrame_buf FrameReject p) as Hafter.
  { intros c outs2 Hc Hall. exists (WriteFrame_buf FrameChallenge challenge
                                       :: outs2).
    split; [rewrite Hc, Hout3, <- app_assoc; reflexivity|].
    intros buf Hin. apply elem_of_cons in Hin as [-> | Hin]; eauto. }
  destruct (Net.ReadFrame intSize c3 (MaxPacketSize cfg))
    as [[[[st sol]|e3] c4]|] eqn:Hsol; try discriminate.
  2:{ injection Hrun as <- <-.
      apply (Hafter _ []); [|intros buf Hin; now apply elem_of_nil in Hin].
      rewrite (Net_ReadFrame_output _ _ _ _ _ Hsol). now rewrite app_nil_r. }
  apply Net_ReadFrame_output in Hsol as Hout4.
  cbn [Type_ Payload] in Hrun.
  assert (exists outs, output c4 = output c1 ++ outs /\
            forall buf, buf ∈ outs ->
              exists p, buf = WriteFrame_buf FrameChallenge p \/
                        buf = WriteFrame_buf FrameReject p) as Hc4.
  { apply (Hafter _ []); [|intros buf Hin; now apply elem_of_nil in Hin].
    rewrite Hout4. now rewrite app_nil_r. }
  destruct (decide (st <> FrameSolution));
    [injection Hrun as <- <-; exact Hc4|].
  destruct (decide (length sol <> 8%nat));
    [injection Hrun as <- <-; exact Hc4|].
  destruct (PoW.VerifyPoW _ _ _) as [[|]|]; try discriminate.
  - destruct (WriteFrame c4 FrameAccept []) as [[|] c5] eqn:Hw2;
      [discriminate|].
    injection Hrun as <- <-.
    apply Write_failed in Hw2 as [_ ->]. exact Hc4.
  - injection Hrun as <- <-.
    destruct (Hrej c4 (list_byte_of_string "invalid proof of work"))
      as (outs2 & Ho2 & Hall2).
    apply (Hafter _ outs2); [|exact Hall2].
    now rewrite Ho2, Hout4.
Qed.

End HandshakeFacts.

(** *** The read loop of a session *)

Section SessionLoops.

Context `{Ed25519}.

Import Frame Relay Loops Config.

(** A packet from a client: the router goes on, and the sender's own
    channel is left alone. *)
Lemma RouteFromClient_keeps w sender data N l :
  (0 < N)%nat -> Buffer.holds N l (buffer (theRouter w)) ->
  exists w1 l1, RouteFromClient w sender data = Some w1 /\
    Buffer.holds N l1 (buffer (theRouter w1)) /\
    clients (theRouter w1) = clients (theRouter w) /\
    objs w1 !! sender = objs w !! sender.
Proof.
  intros HN Hholds. unfold RouteFromClient.
  destruct (Dedup.IsDuplicate _ _) as [[|] d1].
  - eexists _, l. split; [reflexivity|]. cbn. auto.
  - destruct (holds_Add N HN l _ data Hholds) as (pb1 & -> & Hholds1).
    eexists _, _. split; [reflexivity|]. cbn.
    split; [exact Hholds1|]. split; [reflexivity|].
    rewrite fanout_lookup. rewrite decide_False; [reflexivity|].
    intros [_ Hne]. now apply Hne.
Qed.

Lemma on_frame_keeps lim w c f nc ng N l :
  (0 < N)%nat -> Buffer.holds N l (buffer (theRouter w)) ->
  exists w1 l1 nc1 ng1,
    on_frame lim w c f nc ng = Some (w1, nc1, ng1) /\
    Buffer.holds N l1 (buffer (theRouter w1)) /\
    clients (theRouter w1) = clients (theRouter w) /\
    objs w1 !! c = (fun cl => reply cl f) <$> objs w !! c.
Proof.
  intros HN Hholds. unfold on_frame.
  assert (Type_ f <> FramePing ->
          forall x : option Session.Client,
            x = (fun cl => reply cl f) <$> x) as Hid.
  { intros Hnp [cl|]; [|reflexivity]. cbn. unfold reply.
    now rewrite decide_False. }
  destruct (decide (Type_ f = FrameData)) as [Hdata|Hnd].
  - assert (Type_ f <> FramePing) as Hnp by (rewrite Hdata; discriminate).
    destruct (negb (client_allows lim nc));
      [eexists _, l, _, _; split; [reflexivity|]; auto|].
    destruct (negb (global_allows lim ng));
      [eexists _, l, _, _; split; [reflexivity|]; auto|].
    destruct (RouteFromClient_keeps w c (Payload f) N l HN Hholds)
      as (w1 & l1 & -> & Hh1 & Hc1 & Ho1).
    eexists _, l1, _, _. split; [reflexivity|].
    rewrite Ho1. auto.
  - destruct (decide (Type_ f = FramePing)) as [Hping|Hnp].
    + eexists _, l, _, _. split; [reflexivity|]. cbn [send_frame theRouter objs].
      split; [exact Hholds|]. split; [reflexivity|].
      rewrite lookup_alter, decide_True by reflexivity.
      destruct (objs w !! c) as [cl|]; [|reflexivity]. cbn. unfold reply.
      now rewrite decide_True.
    + eexists _, l, _, _. split; [reflexivity|]. auto.
Qed.

Lemma on_frames_keeps lim frames : forall w c nc ng N l,
  (0 < N)%nat -> Buffer.holds N l (buffer (theRouter w)) ->
  exists w1 l1 nc1 ng1,
    on_frames lim w c frames nc ng = Some (w1, nc1, ng1) /\
    Buffer.holds N l1 (buffer (theRouter w1)) /\
    clients (theRouter w1) = clients (theRouter w) /\
    objs w1 !! c = (fun cl => foldl reply cl frames) <$> objs w !! c.
Proof.
  induction frames as [|f later IH]; intros w c nc ng N l HN Hholds;
    cbn [on_frames foldl].
  - eexists w, l, nc, ng. split; [reflexivity|].
    split; [exact Hholds|]. split; [reflexivity|].
    now destruct (objs w !! c).
  - destruct (on_frame_keeps lim w c f nc ng N l HN Hholds)
      as (w1 & l1 & nc1 & ng1 & -> & Hh1 & Hc1 & Ho1).
    destruct (IH w1 c nc1 ng1 N l1 HN Hh1)
      as (w2 & l2 & nc2 & ng2 & -> & Hh2 & Hc2 & Ho2).
    eexists w2, l2, nc2, ng2. split; [reflexivity|].
    split; [exact Hh2|]. split; [congruence|].
    rewrite Ho2, Ho1. now destruct (objs w !! c).
Qed.

Lemma length_encode frames : (length frames <= length (encode frames))%nat.
Proof.
  unfold encode. induction frames as [|f later IH];
    cbn [map concat length]; [lia|].
  rewrite length_app, length_WriteFrame_buf. lia.
Qed.

(** The loop over a stream that holds whole frames, then something that
    is no frame: each frame gets its turn, then the function returns. *)
Lemma ReadLoop_from_frames intSize cfg lim frames tail e rest :
  intSize = 32 \/ intSize = 64 ->
  MaxPacketSize cfg < 2 ^ (intSize - 1) -> MaxPacketSize cfg < 2 ^ 32 ->
  Forall (fun f => Z.of_nat (length (Payload f)) <= MaxPacketSize cfg) frames ->
  Frame.ReadFrame intSize tail (MaxPacketSize cfg) = Some (inr e, rest) ->
  forall fuel w c nc ng,
  (length frames < fuel)%nat ->
  ReadLoop_from intSize cfg lim fuel w c (encode frames ++ tail) nc ng =
  match on_frames lim w c frames nc ng with
  | Some (w1, nc1, ng1) => Some (leave w1 c, nc1, ng1)
  | None => None
  end.
Proof.
  intros Hsize Hint Hmax Hfit Htail.
  induction Hfit as [|f later Hf Hlater IH]; intros fuel w c nc ng Hfuel;
    (destruct fuel as [|fuel]; [cbn in Hfuel; lia|]);
    cbn [ReadLoop_from on_frames encode map concat app].
  - now rewrite Htail.
  - rewrite <- app_assoc.
    rewrite ReadFrame_encoded by (auto; lia).
    replace {| Type_ := Type_ f; Payload := Payload f |} with f
      by now destruct f.
    destruct (on_frame lim w c f nc ng) as [[[w1 nc1] ng1]|]; [|reflexivity].
    apply IH. cbn in Hfuel. lia.
Qed.

(** X10: what [ReadLoop] puts on the channel of its own client is one
    [PONG] frame for each [PING] frame that came in (as far as the channel
    has room), and nothing for a [DATA] frame or a frame of another type,
    be the client's packets routed or held back by the rate limits; after
    the first thing on the stream that is no frame within the limit, the
    function closes the client and returns, whatever follows. *)
Theorem ReadLoop_replies intSize cfg lim w c frames tail e rest N l cl :
  intSize = 32 \/ intSize = 64 ->
  MaxPacketSize cfg < 2 ^ (intSize - 1) -> MaxPacketSize cfg < 2 ^ 32 ->
  Forall (fun f => Z.of_nat (length (Payload f)) <= MaxPacketSize cfg) frames ->
  Frame.ReadFrame intSize tail (MaxPacketSize cfg) = Some (inr e, rest) ->
  (0 < N)%nat -> Buffer.holds N l (buffer (theRouter w)) ->
  objs w !! c = Some cl ->
  exists w1 nc ng,
    ReadLoop intSize cfg lim w c (encode frames ++ tail) = Some (w1, nc, ng) /\
    objs w1 !! c = Some (Session.Close (foldl reply cl frames)).
Proof.
  intros Hsize Hint Hmax Hfit Htail HN Hholds Hc. unfold ReadLoop.
  rewrite (ReadLoop_from_frames intSize cfg lim frames tail e rest)
    by (auto; rewrite length_app; pose proof (length_encode frames); lia).
  destruct (on_frames_keeps lim frames w c 0%nat 0%nat N l HN Hholds)
    as (w1 & l1 & nc1 & ng1 & -> & _ & _ & Ho1).
  eexists _, _, _. split; [reflexivity|].
  unfold leave, RemoveClient. cbn [objs].
  rewrite lookup_alter, decide_True by reflexivity.
  now rewrite Ho1, Hc.
Qed.

(** On a target with 64-bit [int], [ReadFrame] returns for every stream,
    and a frame takes five bytes of it at least. *)
Lemma ReadFrame_64_total c maxPayload :
  exists r rest, Frame.ReadFrame 64 c maxPayload = Some (r, rest) /\
    (forall f, r = inl f -> (length rest + 5 <= length c)%nat).
Proof.
  unfold Frame.ReadFrame.
  destruct (ReadFull c 5) as [[header|] c1] eqn:Hhdr.
  2:{ eexists _, _. split; [reflexivity|]. intros f Hf. discriminate Hf. }
  apply ReadFull_Some in Hhdr as [-> Hlen].
  set (L := Uint32 (slice header 1 5)).
  pose proof (Uint32_range (slice header 1 5)) as HL. fold L in HL.
  destruct (decide (to_int 64 L > maxPayload)).
  { eexists _, _. split; [reflexivity|]. intros f Hf. discriminate Hf. }
  rewrite decide_False by lia.
  destruct (decide (L > 0)).
  - destruct (ReadFull c1 (Z.to_nat L)) as [[payload|] c2] eqn:Hpay.
    + apply ReadFull_Some in Hpay as [-> _].
      eexists _, _. split; [reflexivity|]. intros f _.
      rewrite !length_app. lia.
    + eexists _, _. split; [reflexivity|]. intros f Hf. discriminate Hf.
  - eexists _, _. split; [reflexivity|]. intros f _.
    rewrite length_app. lia.
Qed.

Lemma ReadLoop_from_returns cfg lim c N (HN : (0 < N)%nat) fuel :
  forall w stream nc ng l,
  (length stream < fuel)%nat ->
  Buffer.holds N l (buffer (theRouter w)) ->
  exists w1 nc1 ng1,
    ReadLoop_from 64 cfg lim fuel w c stream nc ng
      = Some (leave w1 c, nc1, ng1) /\
    clients (theRouter w1) = clients (theRouter w) /\
    (forall cl, objs w !! c = Some cl -> exists cl1, objs w1 !! c = Some cl1).
Proof.
  induction fuel as [|fuel IH]; intros w stream nc ng l Hfuel Hholds;
    [lia|].
  cbn [ReadLoop_from].
  destruct (ReadFrame_64_total stream (MaxPacketSize cfg))
    as (r & rest & -> & Hshorter).
  destruct r as [f|e].
  - destruct (on_frame_keeps lim w c f nc ng N l HN Hholds)
      as (w1 & l1 & nc1 & ng1 & -> & Hh1 & Hc1 & Ho1).
    specialize (Hshorter f eq_refl).
    destruct (IH w1 rest nc1 ng1 l1 ltac:(lia) Hh1)
      as (w2 & nc2 & ng2 & -> & Hc2 & Hdom2).
    exists w2, nc2, ng2. split; [reflexivity|].
    split; [congruence|].
    intros cl Hcl. rewrite Hcl in Ho1. cbn in Ho1. eauto.
  - exists w, nc, ng. split; [reflexivity|]. eauto.
Qed.

(** X11: on a 64-bit target and with a well-formed packet buffer,
    [ReadLoop] returns for every input stream, and when it has returned
    the client is closed and no longer among the router's clients; the
    other clients stay registered. *)
Theorem ReadLoop_returns cfg lim w c stream N l :
  (0 < N)%nat -> Buffer.holds N l (buffer (theRouter w)) ->
  exists w1 nc ng,
    ReadLoop 64 cfg lim w c stream = Some (w1, nc, ng) /\
    clients (theRouter w1) = clients (theRouter w) ∖ {[c]} /\
    (forall cl, objs w !! c = Some cl ->
       exists cl1, objs w1 !! c = Some cl1 /\ Session.closed cl1 = true).
Proof.
  intros HN Hholds. unfold ReadLoop.
  destruct (ReadLoop_from_returns cfg lim c N HN (S (length stream))
              w stream 0%nat 0%nat l ltac:(lia) Hholds)
    as (w1 & nc1 & ng1 & -> & Hc1 & Hdom).
  eexists _, _, _. split; [reflexivity|].
  unfold leave, RemoveClient. cbn [theRouter clients objs].
  split; [now rewrite Hc1|].
  intros cl Hcl. destruct (Hdom cl Hcl) as (cl1 & Hcl1).
  exists (Session.Close cl1).
  rewrite lookup_alter, decide_True, Hcl1 by reflexivity.
  split; [reflexivity|].
  unfold Session.Close. now destruct (Session.closed cl1) eqn:E.
Qed.

Lemma let_through_S lim n :
  let_through lim (S n) =
  (let_through lim n + if client_allows lim n then 1 else 0)%nat.
Proof.
  unfold let_through. rewrite seq_S, filter_app, length_app. cbn.
  destruct (decide (client_allows lim n = true)) as [->|Hno]; [reflexivity|].
  now destruct (client_allows lim n).
Qed.

Lemma on_frame_calls lim w c f nc ng w1 nc1 ng1 :
  on_frame lim w c f nc ng = Some (w1, nc1, ng1) ->
  ng = let_through lim nc -> ng1 = let_through lim nc1.
Proof.
  unfold on_frame. intros Hstep ->.
  destruct (decide (Type_ f = FrameData)).
  - destruct (client_allows lim nc) eqn:Hc; cbn [negb] in Hstep.
    + destruct (negb _);
        [|destruct (RouteFromClient _ _ _); [|discriminate]];
        injection Hstep as <- <- <-; rewrite let_through_S, Hc; lia.
    + injection Hstep as <- <- <-. rewrite let_through_S, Hc. lia.
  - destruct (decide _); now injection Hstep as <- <- <-.
Qed.

Lemma on_frames_calls lim frames : forall w c nc ng w1 nc1 ng1,
  on_frames lim w c frames nc ng = Some (w1, nc1, ng1) ->
  nc1 = (nc + length (data_frames frames))%nat /\
  (ng = let_through lim nc -> ng1 = let_through lim nc1).
Proof.
  induction frames as [|f later IH]; intros w c nc ng w1 nc1 ng1 Hrun;
    cbn [on_frames] in Hrun.
  - injection Hrun as <- <- <-. cbn. split; [lia | auto].
  - destruct (on_frame lim w c f nc ng) as [[[w2 nc2] ng2]|] eqn:Hstep;
      [|discriminate Hrun].
    destruct (IH _ _ _ _ _ _ _ Hrun) as [Hnc Hng].
    pose proof (on_frame_calls _ _ _ _ _ _ _ _ _ Hstep) as Hcalls.
    assert (nc2 = (nc + if decide (Type_ f = FrameData) then 1 else 0)%nat)
      as Hnc2.
    { unfold on_frame in Hstep. destruct (decide (Type_ f = FrameData)).
      - destruct (negb _); [injection Hstep as <- <- <-; lia|].
        destruct (negb _); [injection Hstep as <- <- <-; lia|].
        destruct (RouteFromClient _ _ _); [|discriminate].
        injection Hstep as <- <- <-. lia.
      - destruct (decide _); injection Hstep as <- <- <-; lia. }
    split; [|auto].
    unfold data_frames in *. rewrite filter_cons.
    destruct (decide (Type_ f = FrameData)); cbn [length]; lia.
Qed.

(** X12: the two buckets and the frames.  When [ReadLoop] has handled the
    frames of a stream and returned, the client's own bucket has been asked
    once for each [DATA] frame and for no other frame, and the router's
    bucket once for each of these calls that was answered with [true]: a
    [DATA] frame the client's bucket holds back never reaches the router's
    bucket, and a [PING] or a frame of another type reaches neither. *)
Theorem ReadLoop_limiter_calls intSize cfg lim w c frames tail e rest N l :
  intSize = 32 \/ intSize = 64 ->
  MaxPacketSize cfg < 2 ^ (intSize - 1) -> MaxPacketSize cfg < 2 ^ 32 ->
  Forall (fun f => Z.of_nat (length (Payload f)) <= MaxPacketSize cfg) frames ->
  Frame.ReadFrame intSize tail (MaxPacketSize cfg) = Some (inr e, rest) ->
  (0 < N)%nat -> Buffer.holds N l (buffer (theRouter w)) ->
  exists w1,
    ReadLoop intSize cfg lim w c (encode frames ++ tail)
    = Some (w1, length (data_frames frames),
            length (filter (fun i => client_allows lim i = true)
                      (seq 0 (length (data_frames frames))))).
Proof.
  intros Hsize Hint Hmax Hfit Htail HN Hholds. unfold ReadLoop.
  rewrite (ReadLoop_from_frames intSize cfg lim frames tail e rest)
    by (auto; rewrite length_app; pose proof (length_encode frames); lia).
  destruct (on_frames_keeps lim frames w c 0%nat 0%nat N l HN Hholds)
    as (w1 & l1 & nc1 & ng1 & Hrun & _).
  rewrite Hrun.
  destruct (on_frames_calls _ _ _ _ _ _ _ _ _ Hrun) as [-> Hng].
  rewrite (Hng eq_refl). exists (leave w1 c). reflexivity.
Qed.

End SessionLoops.

(** *** The write loop, and what reaches the wire *)

Section WriteLoopFacts.

Context `{Ed25519}.

Import Frame Net Relay Loops Config.

Lemma WriteLoop_over_reliable msgs : forall c conn,
  failing conn = [] ->
  WriteLoop_over msgs c conn =
  ({| Session.peerID := Session.peerID c; Session.addr := Session.addr c;
      Session.closed := Session.closed c; Session.writeCh := [] |},
   {| input := input conn; output := output conn ++ map (fun msg => WriteFrame_buf (Session.frameType msg) (Session.payload msg)) msgs;
      failing := [] |}).
Proof.
  induction msgs as [|msg rest IH]; intros c conn Hrel; cbn [WriteLoop_over map].
  - rewrite app_nil_r. destruct conn as [i o f]. cbn in *. now subst f.
  - unfold WriteFrame. rewrite Write_reliable by exact Hrel.
    rewrite IH by reflexivity. cbn [input output failing].
    now rewrite <- app_assoc.
Qed.

Lemma WriteLoop_writes_queue_aux c conn :
  failing conn = [] ->
  WriteLoop c conn =
  ({| Session.peerID := Session.peerID c; Session.addr := Session.addr c;
      Session.closed := Session.closed c; Session.writeCh := [] |},
   {| input := input conn;
      output := output conn
                ++ map (fun msg => WriteFrame_buf (Session.frameType msg)
                                                  (Session.payload msg))
                       (Session.writeCh c);
      failing := [] |}).
Proof. intros Hrel. unfold WriteLoop. now apply WriteLoop_over_reliable. Qed.

(** X13: on a connection whose writes go through, [WriteLoop] writes the
    frames that wait on the channel, oldest first, each in one call of
    [Write] and encoded as [WriteFrame] does, and leaves the channel empty;
    it does not close the client. *)
Theorem WriteLoop_writes_queue c conn :
  failing conn = [] ->
  WriteLoop c conn =
  ({| Session.peerID := Session.peerID c; Session.addr := Session.addr c;
      Session.closed := Session.closed c; Session.writeCh := [] |},
   {| input := input conn;
      output := output conn
                ++ map (fun msg => WriteFrame_buf (Session.frameType msg)
                                                  (Session.payload msg))
                       (Session.writeCh c);
      failing := [] |}).
Proof. apply WriteLoop_writes_queue_aux. Qed.

(** X14: when a write fails, [WriteLoop] closes the client and returns:
    the frames before the one that failed were written, this one is lost,
    and the ones after it stay on the channel, never to be written. *)
Theorem WriteLoop_write_error c conn (k : nat) later :
  failing conn = repeat false k ++ true :: later ->
  (k < length (Session.writeCh c))%nat ->
  WriteLoop c conn =
  ({| Session.peerID := Session.peerID c; Session.addr := Session.addr c;
      Session.closed := true;
      Session.writeCh := drop (S k) (Session.writeCh c) |},
   {| input := input conn;
      output := output conn
                ++ map (fun msg => WriteFrame_buf (Session.frameType msg)
                                                  (Session.payload msg))
                       (take k (Session.writeCh c));
      failing := later |}).
Proof.
  unfold WriteLoop. generalize (Session.writeCh c) as msgs.
  revert conn. induction k as [|k IH]; intros conn msgs Hfail Hk.
  - destruct msgs as [|msg rest]; [cbn in Hk; lia|].
    cbn [WriteLoop_over]. unfold WriteFrame, Write.
    cbn [repeat app] in Hfail. rewrite Hfail. cbn [take map drop].
    rewrite app_nil_r. unfold Session.Close. cbn.
    now destruct (Session.closed c).
  - destruct msgs as [|msg rest]; [cbn in Hk; lia|].
    cbn [WriteLoop_over]. unfold WriteFrame, Write.
    cbn [repeat app] in Hfail. rewrite Hfail.
    rewrite (IH _ rest) by first [reflexivity | cbn in *; lia].
    cbn [input output failing take map drop].
    now rewrite <- app_assoc.
Qed.

Lemma SendData_many_frames pkts : forall cl,
  Session.closed cl = false ->
  Session.writeCh (foldl Session.SendData cl pkts) =
    Session.writeCh cl
    ++ map (fun p => {| Session.frameType := FrameData;
                        Session.payload := p |})
           (take (Session.writeCh_cap - length (Session.writeCh cl)) pkts).
Proof.
  induction pkts as [|p t IH]; intros cl Hopen; cbn [foldl].
  - now rewrite take_nil, app_nil_r.
  - assert (Session.closed (Session.SendData cl p) = false) as Hopen1
      by (rewrite (proj1 (SendData_queued cl p)); exact Hopen).
    rewrite (IH _ Hopen1).
    unfold Session.SendData, Session.Send. rewrite Hopen.
    destruct (decide _) as [Hroom|Hfull]; cbn [Session.writeCh].
    + rewrite length_app. cbn [length].
      replace (Session.writeCh_cap - length (Session.writeCh cl))%nat
        with (S (Session.writeCh_cap - (length (Session.writeCh cl) + 1)))
        by lia.
      cbn [take map]. now rewrite <- app_assoc.
    + replace (Session.writeCh_cap - length (Session.writeCh cl))%nat
        with 0%nat by lia.
      reflexivity.
Qed.

(** X15: store and forward, down to the wire.  After packets with
    pairwise distinct hashes were routed, a new session is registered and
    its [WriteLoop] runs on a connection whose writes go through: the
    connection gets one [DATA] frame for each of the last [min k N] packets
    (the first 64 of them at most), oldest first, and nothing else. *)
Theorem replay_reaches_the_wire N w0 ops c peerID addr conn :
  (0 < N)%nat -> buffered N [] w0 ->
  NoDup (map Dedup.PacketHash (map snd ops)) ->
  failing conn = [] ->
  exists w1 w2 cl,
    Route_all w0 ops = Some w1 /\
    handleConn_register w1 c peerID addr = Some w2 /\
    objs w2 !! c = Some cl /\
    (WriteLoop cl conn).2 =
      {| input := input conn;
         output := output conn
                   ++ map (WriteFrame_buf FrameData)
                          (take Session.writeCh_cap
                                (drop (length ops - N) (map snd ops)));
         failing := [] |}.
Proof.
  intros HN Hb Hnd Hrel.
  destruct (Route_all_distinct N ops w0 [] HN Hb Hnd) as (w1 & Hr & [Hh _]).
  cbn [app] in Hh.
  exists w1. unfold handleConn_register, AddClient, AddClient_replay,
    AddClient_register. cbn [theRouter buffer].
  rewrite (GetAll_holds N HN _ _ Hh).
  eexists _, _. split; [exact Hr|]. split; [reflexivity|]. cbn [objs].
  rewrite foldl_send_to_lookup, decide_True, lookup_insert_eq by reflexivity.
  split; [reflexivity|].
  rewrite WriteLoop_writes_queue_aux by exact Hrel. cbn [snd].
  rewrite SendData_many_frames by reflexivity.
  cbn [Session.NewClient Session.writeCh app length].
  rewrite Nat.sub_0_r, length_map, map_map. reflexivity.
Qed.

End WriteLoopFacts.

(** *** The router, once more *)

Section RouterInvariants.

Context `{Ed25519}.

Import Frame Dedup Relay Loops Config.

Lemma Route_seen w op w1 :
  Route w op = Some w1 -> PacketHash op.2 ∈ seen (dedup (theRouter w1)).
Proof.
  destruct op as [[sender|] data]; unfold Route; cbn [fst snd];
    [unfold RouteFromClient | unfold RouteFromMesh];
    pose proof (IsDuplicate_records (dedup (theRouter w)) (PacketHash data))
      as Hrec;
    destruct (IsDuplicate _ _) as [[|] d1]; cbn [snd] in Hrec;
    try (destruct (Buffer.Add _ _); [|discriminate]);
    intros [= <-]; exact Hrec.
Qed.

(** X16: a packet that has just been routed is dropped when it comes
    again, from the same client, from another one or from the mesh (where
    the relay's own multicast comes back): the second call changes
    nothing. *)
Theorem Route_again_is_dropped w op w1 sender :
  Route w op = Some w1 -> Route w1 (sender, op.2) = Some w1.
Proof.
  intros Hr. apply Route_seen in Hr.
  destruct sender as [s|]; unfold Route; cbn [fst snd].
  - now apply RouteFromClient_duplicate.
  - now apply RouteFromMesh_duplicate.
Qed.

Lemma Send_bounded cl t p :
  (length (Session.writeCh cl) <= Session.writeCh_cap)%nat ->
  (length (Session.writeCh (Session.Send cl t p)) <= Session.writeCh_cap)%nat.
Proof.
  intros Hb. unfold Session.Send. destruct (Session.closed cl); [exact Hb|].
  destruct (decide _); [|exact Hb]. cbn. rewrite length_app. cbn. lia.
Qed.

Lemma fanout_bounded cs sender data h :
  (forall c cl, h !! c = Some cl ->
     (length (Session.writeCh cl) <= Session.writeCh_cap)%nat) ->
  forall c cl, fanout cs sender data h !! c = Some cl ->
    (length (Session.writeCh cl) <= Session.writeCh_cap)%nat.
Proof.
  intros Hb c cl. rewrite fanout_lookup.
  destruct (decide _); [|apply Hb].
  destruct (h !! c) as [cl0|] eqn:Hc; cbn; [|discriminate].
  intros [= <-]. apply Send_bounded, (Hb c cl0 Hc).
Qed.

Lemma Route_bounded w op w1 :
  channels_bounded w -> Route w op = Some w1 -> channels_bounded w1.
Proof.
  intros Hb.
  destruct op as [[sender|] data]; unfold Route; cbn [fst snd];
    [unfold RouteFromClient | unfold RouteFromMesh];
    destruct (IsDuplicate _ _) as [[|] d1];
    try (destruct (Buffer.Add _ _); [|discriminate]);
    intros [= <-]; unfold channels_bounded; cbn [objs];
    try exact Hb; now apply fanout_bounded.
Qed.

Lemma AddClient_bounded w c w1 :
  channels_bounded w -> AddClient w c = Some w1 -> channels_bounded w1.
Proof.
  intros Hb. unfold AddClient, AddClient_replay, AddClient_register.
  cbn [theRouter buffer].
  destruct (Buffer.GetAll _) as [pkts|]; [|discriminate].
  intros [= <-]. unfold channels_bounded in *. cbn [objs].
  revert Hb. generalize (objs w).
  induction pkts as [|p t IH]; intros h Hb c' cl; cbn [foldl]; [apply Hb|].
  apply IH. intros c2 cl2. rewrite send_to_lookup.
  destruct (decide _); [|apply Hb].
  destruct (h !! c2) as [cl0|] eqn:Hc; cbn; [|discriminate].
  intros [= <-]. apply Send_bounded, (Hb c2 cl0 Hc).
Qed.

Lemma on_frame_bounded lim w c f nc ng w1 nc1 ng1 :
  channels_bounded w -> on_frame lim w c f nc ng = Some (w1, nc1, ng1) ->
  channels_bounded w1.
Proof.
  intros Hb. unfold on_frame.
  destruct (decide (Type_ f = FrameData)).
  - destruct (negb _); [intros [= <- _ _]; exact Hb|].
    destruct (negb _); [intros [= <- _ _]; exact Hb|].
    destruct (RouteFromClient w c (Payload f)) as [w2|] eqn:Hr;
      [|discriminate].
    intros [= <- _ _].
    apply (Route_bounded w (Some c, Payload f) w2 Hb Hr).
  - destruct (decide (Type_ f = FramePing)); [|intros [= <- _ _]; exact Hb].
    intros [= <- _ _]. unfold channels_bounded, send_frame. cbn [objs].
    intros c2 cl2. rewrite lookup_alter.
    destruct (decide (c = c2)) as [<-|]; [|apply Hb].
    destruct (objs w !! c) as [cl0|] eqn:Hc; cbn; [|discriminate].
    intros [= <-]. apply Send_bounded, (Hb c cl0 Hc).
Qed.

(** X17: whatever the router and the sessions do, no client's channel
    ever holds more than 64 frames: routing a packet, registering a new
    client with the replay of the buffer, and a whole run of a session's
    [ReadLoop] keep this bound. *)
Theorem channel_capacity_is_kept intSize cfg lim w :
  channels_bounded w ->
  (forall op w1, Route w op = Some w1 -> channels_bounded w1) /\
  (forall c peerID addr w1,
     handleConn_register w c peerID addr = Some w1 -> channels_bounded w1) /\
  (forall c stream w1 nc ng,
     ReadLoop intSize cfg lim w c stream = Some (w1, nc, ng) ->
     channels_bounded w1).
Proof.
  intros Hb. split; [|split].
  - intros op w1. now apply Route_bounded.
  - intros c peerID addr w1. unfold handleConn_register.
    apply AddClient_bounded. unfold channels_bounded. cbn [objs].
    intros c2 cl2. destruct (decide (c2 = c)) as [->|Hne].
    + rewrite lookup_insert_eq. intros [= <-]. cbn. lia.
    + rewrite lookup_insert_ne by congruence. apply Hb.
  - intros c stream w1 nc ng. unfold ReadLoop.
    assert (forall fuel w0 s0 n0 m0,
              channels_bounded w0 ->
              ReadLoop_from intSize cfg lim fuel w0 c s0 n0 m0
                = Some (w1, nc, ng) ->
              channels_bounded w1) as Hgen; [|now apply Hgen].
    clear w Hb stream.
    induction fuel as [|fuel IH]; intros w s0 n0 m0 Hb;
      cbn [ReadLoop_from]; [discriminate|].
    destruct (Frame.ReadFrame intSize s0 (MaxPacketSize cfg))
      as [[[f|e] rest]|]; [| |discriminate].
    + destruct (on_frame lim w c f n0 m0) as [[[w2 nc2] ng2]|] eqn:Hstep;
        [|discriminate].
      apply IH. apply (on_frame_bounded _ _ _ _ _ _ _ _ _ Hb Hstep).
    + intros [= <- _ _]. unfold channels_bounded, leave, RemoveClient.
      cbn [objs]. intros c2 cl2. rewrite lookup_alter.
      destruct (decide (c = c2)) as [<-|]; [|apply Hb].
      destruct (objs w !! c) as [cl0|] eqn:Hc; cbn; [|discriminate].
      intros [= <-]. unfold Session.Close.
      destruct (Session.closed cl0); cbn; apply (Hb c cl0 Hc).
Qed.

End RouterInvariants.

(** *** The mesh link, from one relay to the next *)

Section MeshRoundTrip.

Context `{Ed25519}.

Import Auth Relay Config.

Lemma copy_range_eq {A} (dst pre mid post src : list A) (lo hi : nat) :
  dst = pre ++ mid ++ post -> lo = length pre ->
  hi = (lo + length mid)%nat -> length src = length mid ->
  copy_range dst lo hi src = pre ++ src ++ post.
Proof.
  intros -> -> -> Hsrc. unfold copy_range, with_slice, slice.
  rewrite take_app_length.
  rewrite drop_app_length.
  replace (length pre + length mid - length pre)%nat with (length mid) by lia.
  rewrite take_app_length.
  rewrite copy_exact by (symmetry; exact Hsrc).
  assert (drop (length pre + length mid) (pre ++ mid ++ post) = post) as ->;
    [|reflexivity].
  rewrite (app_assoc pre mid post). apply drop_app_length'.
  now rewrite length_app.
Qed.

Ltac lens :=
  repeat rewrite ?length_app, ?repeat_length in *; cbn [length] in *; lia.

(** The datagram of [Send] without a certificate: key, signature,
    payload. *)
Lemma Send_legacy m a data :
  auth m = Some a -> HasCA a && HasCertificate a = false ->
  length (PublicKey a) = 32%nat -> length (Sign a data) = 64%nat ->
  sent (Send m data) = sent m ++ [PublicKey a ++ Sign a data ++ data].
Proof.
  intros Ha Hmode Hpk Hsig. unfold Send. rewrite Ha, Hmode. cbn [sent].
  do 2 f_equal. unfold pubKeyLen, sigLen, make.
  rewrite (copy_range_eq _ [] (repeat x00 32)
             (repeat x00 64 ++ repeat x00 (length data)) (PublicKey a));
    [|now rewrite <- !repeat_app|reflexivity|reflexivity|lens].
  cbn [app].
  rewrite (copy_range_eq _ (PublicKey a) (repeat x00 64)
             (repeat x00 (length data)) (Sign a data));
    [|reflexivity|lens|lens|lens].
  rewrite (copy_range_eq _ (PublicKey a ++ Sign a data)
             (repeat x00 (length data)) [] data);
    [now rewrite app_nil_r, <- app_assoc
    |rewrite app_nil_r; now rewrite <- app_assoc|lens|lens|lens].
Qed.

(** The datagram of [Send] in CA mode: key, certificate, signature,
    payload. *)
Lemma Send_ca m a data :
  auth m = Some a -> HasCA a && HasCertificate a = true ->
  length (PublicKey a) = 32%nat -> length (Sign a data) = 64%nat ->
  sent (Send m data) =
  sent m ++ [PublicKey a ++ Certificate a ++ Sign a data ++ data].
Proof.
  intros Ha Hmode Hpk Hsig. unfold Send. rewrite Ha, Hmode. cbn [sent].
  apply andb_true_iff in Hmode as [_ Hcert].
  apply bool_decide_eq_true in Hcert. unfold Ed.SignatureSize in Hcert.
  do 2 f_equal. unfold caHeaderLen, pubKeyLen, certLen, sigLen, make.
  rewrite (copy_range_eq _ [] (repeat x00 32)
             (repeat x00 64 ++ repeat x00 64 ++ repeat x00 (length data))
             (PublicKey a));
    [|now rewrite <- !repeat_app|reflexivity|reflexivity|lens].
  cbn [app].
  rewrite (copy_range_eq _ (PublicKey a) (repeat x00 64)
             (repeat x00 64 ++ repeat x00 (length data)) (Certificate a));
    [|reflexivity|lens|lens|lens].
  rewrite (copy_range_eq _ (PublicKey a ++ Certificate a) (repeat x00 64)
             (repeat x00 (length data)) (Sign a data));
    [|now rewrite <- app_assoc|lens|lens|lens].
  rewrite (copy_range_eq _ (PublicKey a ++ Certificate a ++ Sign a data)
             (repeat x00 (length data)) [] data);
    [now rewrite app_nil_r, <- !app_assoc
    |rewrite app_nil_r; now rewrite <- !app_assoc|lens|lens|lens].
Qed.

Lemma RouteFromMesh_keeps w data w1 :
  RouteFromMesh w data = Some w1 ->
  theMesh w1 = theMesh w /\
  clients (theRouter w1) = clients (theRouter w) /\
  mesh (theRouter w1) = mesh (theRouter w).
Proof.
  unfold RouteFromMesh. destruct (Dedup.IsDuplicate _ _) as [[|] d1].
  - intros [= <-]. auto.
  - destruct (Buffer.Add _ _); [|discriminate]. intros [= <-]. auto.
Qed.

(** What an iteration of the receive loop leaves alone. *)
Local Abbreviation same_link w w1 :=
  (sent (theMesh w1) = sent (theMesh w) /\
   router (theMesh w1) = router (theMesh w) /\
   cfg (theMesh w1) = cfg (theMesh w) /\
   clients (theRouter w1) = clients (theRouter w) /\
   mesh (theRouter w1) = mesh (theRouter w)).

Lemma verify_and_route_same_link w a pk sig data tr w1 tr1 :
  verify_and_route w a pk sig data tr = Some (w1, tr1) -> same_link w w1.
Proof.
  unfold verify_and_route. destruct (Verify a pk sig data) as [[|] tr2];
    cbn [negb]; [|intros [= <- _]; repeat split].
  destruct (router (theMesh w)) eqn:Hrt;
    [|intros [= <- _]; repeat split; exact Hrt].
  destruct (RouteFromMesh w data) as [w2|] eqn:Hr; [|discriminate].
  intros [= <- _]. apply RouteFromMesh_keeps in Hr as (Hm & Hc & Hf).
  rewrite Hm, Hc, Hf. repeat split; exact Hrt.
Qed.

Lemma RecvLoop_iter_same_link w input w1 tr :
  RecvLoop_iter w input = Some (w1, tr) -> same_link w w1.
Proof.
  unfold RecvLoop_iter.
  destruct input as [dgram|]; [|intros [= <- _]; repeat split].
  destruct (auth (theMesh w)) as [a|]; [|intros [= <- _]; repeat split].
  destruct (decide _); [intros [= <- _]; repeat split|].
  destruct (IsSelf a _); [intros [= <- _]; repeat split|].
  destruct (IsRevoked a _); [intros [= <- _]; repeat split|].
  destruct (HasCA a).
  - destruct (decide _); [intros [= <- _]; repeat split|].
    destruct (VerifyCertificate a _ _) as [[[ok a1] tr1]|]; [|discriminate].
    destruct ok; cbn [negb]; [|intros [= <- _]; repeat split].
    intros Hvr. now apply verify_and_route_same_link in Hvr.
  - apply verify_and_route_same_link.
Qed.

(** X18: the receive loop never transmits: whatever the datagrams that
    come in, nothing is handed to the sending socket (a packet from the
    mesh goes to the local clients only, never back to the mesh), and the
    set of clients stays as it is. *)
Theorem RecvLoop_never_sends inputs : forall w w1 trs,
  RecvLoop w inputs = Some (w1, trs) ->
  sent (theMesh w1) = sent (theMesh w) /\
  clients (theRouter w1) = clients (theRouter w).
Proof.
  induction inputs as [|input rest IH]; intros w w1 trs; cbn [RecvLoop].
  - intros [= <- _]. auto.
  - destruct (RecvLoop_iter w input) as [[w2 tr]|] eqn:Hit; [|discriminate].
    destruct (RecvLoop w2 rest) as [[w3 trs0]|] eqn:Hrest; [|discriminate].
    intros [= <- _].
    apply RecvLoop_iter_same_link in Hit as (Hs & _ & _ & Hc & _).
    destruct (IH _ _ _ Hrest) as [Hs3 Hc3]. split; congruence.
Qed.

Lemma take_all_of (dgram : bytes) (limit : Z) :
  Z.of_nat (length dgram) <= limit ->
  take (Z.to_nat limit) dgram = dgram.
Proof. intros Hle. apply take_ge. lia. Qed.

(** X19: a packet crosses the mesh in open mode.  The datagram a relay
    without certificate sends for a payload that is not empty is taken by
    a relay in open mode that has another key and has not revoked the
    sender's: it checks the signature the sender made, over exactly the
    payload, and hands exactly this payload to its router. *)
Theorem mesh_round_trip_open m a w b data N l :
  auth m = Some a -> HasCA a && HasCertificate a = false ->
  length (PublicKey a) = 32%nat -> length (Sign a data) = 64%nat ->
  ed25519_Verify (PublicKey a) data (Sign a data) = true ->
  auth (theMesh w) = Some b -> router (theMesh w) = true ->
  HasCA b = false ->
  PublicKey a <> PublicKey b ->
  Hex.EncodeToString (PublicKey a) ∉ revokedKeys b ->
  data <> [] ->
  Z.of_nat (length data) <= MaxPacketSize (cfg (theMesh w)) + 64 ->
  (0 < N)%nat -> Buffer.holds N l (buffer (theRouter w)) ->
  exists dgram w1,
    sent (Send m data) = sent m ++ [dgram] /\
    RouteFromMesh w data = Some w1 /\
    RecvLoop_iter w (Some dgram) =
      Some (w1, [EvVerify (PublicKey a) data (Sign a data);
                 EvRouteFromMesh data]).
Proof.
  intros Ha Hmode Hpk Hsig Hver Hb Hrouter Hopen Hother Hnotrev Hdata Hfit
    HN Hholds.
  exists (PublicKey a ++ Sign a data ++ data).
  assert (exists w1, RouteFromMesh w data = Some w1) as [w1 Hroute].
  { unfold RouteFromMesh. destruct (Dedup.IsDuplicate _ _) as [[|] d1]; [eauto|].
    destruct (holds_Add N HN l _ data Hholds) as (pb1 & -> & _). eauto. }
  exists w1. split; [now apply Send_legacy|]. split; [exact Hroute|].
  assert (0 < length data)%nat as Hpos
    by (destruct data; [congruence | cbn; lia]).
  unfold RecvLoop_iter. rewrite Hb.
  rewrite take_all_of by (unfold caHeaderLen, pubKeyLen, certLen, sigLen; lens).
  set (dgram := PublicKey a ++ Sign a data ++ data).
  assert (length dgram = (96 + length data)%nat) as Hlen by (unfold dgram; lens).
  rewrite decide_False by (unfold pubKeyLen, sigLen; lia).
  rewrite sender_key_prefix by (unfold pubKeyLen, sigLen; lia).
  assert (take 32 dgram = PublicKey a) as ->
    by (unfold dgram; rewrite <- Hpk; apply take_app_length).
  assert (IsSelf b (PublicKey a) = false) as ->.
  { apply not_true_is_false. intros E. now apply IsSelf_true in E. }
  assert (IsRevoked b (PublicKey a) = false) as ->.
  { apply not_true_is_false. intros E. now apply IsRevoked_true in E. }
  rewrite Hopen. cbn zeta.
  rewrite decide_False by (unfold pubKeyLen, sigLen; lia).
  rewrite length_payload by (unfold pubKeyLen, sigLen; lia).
  assert (copy (make sigLen) (slice dgram pubKeyLen (pubKeyLen + sigLen))
          = Sign a data) as ->.
  { unfold slice, sigLen, pubKeyLen, dgram.
    rewrite drop_app_length' by (symmetry; exact Hpk).
    rewrite take_app_length' by (rewrite Hsig; reflexivity || lia).
    apply copy_exact. unfold make. now rewrite repeat_length. }
  assert (drop (pubKeyLen + sigLen) dgram = data) as ->.
  { unfold dgram. rewrite app_assoc. apply drop_app_length'.
    unfold pubKeyLen, sigLen. lens. }
  unfold verify_and_route, Verify.
  rewrite decide_False
    by (unfold Ed.PublicKeySize, Ed.SignatureSize; intros [Hne|Hne]; lia).
  rewrite Hver. cbn [negb]. rewrite Hrouter, Hroute. reflexivity.
Qed.

(** X20: a packet crosses the mesh in CA mode.  The datagram of a relay
    that has a CA key and a certificate is taken by a relay whose CA key
    verifies this certificate: it checks the certificate over the sender's
    key, then the signature over the payload, notes the sender's key in its
    cache, and hands exactly the payload to its router. *)
Theorem mesh_round_trip_ca m a w b ca data N l :
  auth m = Some a -> HasCA a && HasCertificate a = true ->
  length (PublicKey a) = 32%nat -> length (Sign a data) = 64%nat ->
  ed25519_Verify (PublicKey a) data (Sign a data) = true ->
  auth (theMesh w) = Some b -> router (theMesh w) = true ->
  Auth.CAPubKey b = Some ca -> length ca = 32%nat ->
  ed25519_Verify ca (PublicKey a) (Certificate a) = true ->
  PublicKey a <> PublicKey b ->
  Hex.EncodeToString (PublicKey a) ∉ revokedKeys b ->
  data <> [] ->
  Z.of_nat (length data) <= MaxPacketSize (cfg (theMesh w)) ->
  (0 < N)%nat -> Buffer.holds N l (buffer (theRouter w)) ->
  let b1 := set_certCache b ({[Hex.EncodeToString (PublicKey a)]}
                             ∪ certCache b) in
  exists dgram w1,
    sent (Send m data) = sent m ++ [dgram] /\
    RouteFromMesh (with_auth w b1) data = Some w1 /\
    RecvLoop_iter w (Some dgram) =
      Some (w1, [EvVerify ca (PublicKey a) (Certificate a);
                 EvVerify (PublicKey a) data (Sign a data);
                 EvRouteFromMesh data]).
Proof.
  intros Ha Hmode Hpk Hsig Hver Hb Hrouter Hca Hcalen Hcert Hother Hnotrev
    Hdata Hfit HN Hholds b1.
  pose proof Hmode as Hmode'.
  apply andb_true_iff in Hmode' as [_ Hclen].
  apply bool_decide_eq_true in Hclen. unfold Ed.SignatureSize in Hclen.
  exists (PublicKey a ++ Certificate a ++ Sign a data ++ data).
  assert (exists w1, RouteFromMesh (with_auth w b1) data = Some w1)
    as [w1 Hroute].
  { unfold RouteFromMesh. cbn [with_auth theRouter].
    destruct (Dedup.IsDuplicate _ _) as [[|] d1]; [eauto|].
    destruct (holds_Add N HN l _ data Hholds) as (pb1 & -> & _). eauto. }
  exists w1. split; [now apply Send_ca|]. split; [exact Hroute|].
  assert (0 < length data)%nat as Hpos
    by (destruct data; [congruence | cbn; lia]).
  unfold RecvLoop_iter. rewrite Hb.
  rewrite take_all_of by (unfold caHeaderLen, pubKeyLen, certLen, sigLen; lens).
  set (dgram := PublicKey a ++ Certificate a ++ Sign a data ++ data).
  assert (length dgram = (160 + length data)%nat) as Hlen
    by (unfold dgram; lens).
  rewrite decide_False by (unfold pubKeyLen, sigLen; lia).
  rewrite sender_key_prefix by (unfold pubKeyLen, sigLen; lia).
  assert (take 32 dgram = PublicKey a) as ->
    by (unfold dgram; rewrite <- Hpk; apply take_app_length).
  assert (IsSelf b (PublicKey a) = false) as ->.
  { apply not_true_is_false. intros E. now apply IsSelf_true in E. }
  assert (IsRevoked b (PublicKey a) = false) as ->.
  { apply not_true_is_false. intros E. now apply IsRevoked_true in E. }
  assert (HasCA b = true) as ->
    by (unfold HasCA; apply bool_decide_eq_true; congruence).
  rewrite decide_False
    by (unfold caHeaderLen, pubKeyLen, certLen, sigLen; lia).
  rewrite length_payload
    by (unfold caHeaderLen, pubKeyLen, certLen, sigLen; lia).
  assert (copy (make certLen) (slice dgram pubKeyLen (pubKeyLen + certLen))
          = Certificate a) as ->.
  { unfold slice, certLen, pubKeyLen, dgram.
    rewrite drop_app_length' by (symmetry; exact Hpk).
    rewrite take_app_length' by (rewrite Hclen; reflexivity).
    apply copy_exact. unfold make. now rewrite repeat_length. }
  assert (copy (make sigLen) (slice dgram (pubKeyLen + certLen) caHeaderLen)
          = Sign a data) as ->.
  { unfold slice, caHeaderLen, sigLen, certLen, pubKeyLen, dgram.
    rewrite (app_assoc (PublicKey a)).
    rewrite drop_app_length' by lens.
    rewrite take_app_length' by (rewrite Hsig; reflexivity || lia).
    apply copy_exact. unfold make. now rewrite repeat_length. }
  assert (drop caHeaderLen dgram = data) as ->.
  { unfold dgram. rewrite !app_assoc. apply drop_app_length'.
    unfold caHeaderLen, pubKeyLen, certLen, sigLen. lens. }
  unfold VerifyCertificate. rewrite Hca.
  rewrite decide_False by (unfold Ed.SignatureSize; intros Hne; lia).
  rewrite decide_False by (unfold Ed.PublicKeySize; intros Hne; lia).
  rewrite Hcert. cbn [negb]. fold b1.
  unfold verify_and_route, Verify.
  rewrite decide_False
    by (unfold Ed.PublicKeySize, Ed.SignatureSize; intros [Hne|Hne]; lia).
  rewrite Hver. cbn [negb].
  change (router (theMesh (with_auth w b1))) with (router (theMesh w)).
  rewrite Hrouter, Hroute. reflexivity.
Qed.

End MeshRoundTrip.

(** *** A packet from a client: nothing for a duplicate, else buffer,
    local sessions and mesh *)

Section RoutingAPacket.

Context `{Ed25519}.

Import Frame Auth Relay Config.

(** What [MeshLink.Send] leaves of the link but the datagrams. *)
Lemma Send_keeps m data :
  auth (Send m data) = auth m /\ router (Send m data) = router m /\
  cfg (Send m data) = cfg m.
Proof. unfold Send. destruct (auth m) as [a|] eqn:Ha; cbn; auto. Qed.

(** The datagram [MeshLink.Send] hands to the socket, for a key of 32
    bytes and a signature of 64: the key, the certificate in CA mode, the
    signature, the payload. *)
Lemma Send_datagram m a data :
  auth m = Some a ->
  length (PublicKey a) = 32%nat -> length (Sign a data) = 64%nat ->
  Send m data =
  {| auth := Some a; router := router m;
     sent := sent m ++ [PublicKey a
                        ++ (if HasCA a && HasCertificate a
                            then Certificate a else [])
                        ++ Sign a data ++ data];
     cfg := cfg m |}.
Proof.
  intros Ha Hpk Hsig.
  destruct (Send_keeps m data) as (Hauth & Hrouter & Hcfg).
  assert (sent (Send m data) =
          sent m ++ [PublicKey a
                     ++ (if HasCA a && HasCertificate a
                         then Certificate a else [])
                     ++ Sign a data ++ data]) as Hsent.
  { destruct (HasCA a && HasCertificate a) eqn:Hmode.
    - now apply Send_ca.
    - now apply Send_legacy. }
  destruct (Send m data) as [au ro se cf]. cbn in *. congruence.
Qed.

(** What [SendData] does to a client: the [DATA] frame goes to the end of
    the channel of an open client that has room; a closed client and a
    full channel stay as they are. *)
Lemma SendData_channel cl data :
  Session.SendData cl data =
  if decide (Session.closed cl = false /\
             (length (Session.writeCh cl) < 64)%nat)
  then {| Session.peerID := Session.peerID cl;
          Session.addr := Session.addr cl;
          Session.closed := false;
          Session.writeCh :=
            Session.writeCh cl
            ++ [{| Session.frameType := FrameData;
                   Session.payload := data |}] |}
  else cl.
Proof.
  unfold Session.SendData, Session.Send, Session.writeCh_cap.
  destruct (Session.closed cl) eqn:Hc.
  - rewrite decide_False; [reflexivity|]. intros [? _]. discriminate.
  - destruct (decide (length (Session.writeCh cl) < 64)%nat).
    + rewrite decide_True by auto. reflexivity.
    + rewrite decide_False; [reflexivity|]. intros [_ ?]. contradiction.
Qed.

(** C5: a packet whose hash the filter has seen changes nothing, on
    either path: the buffer, every channel and the mesh link stay as they
    are.  A packet with a new hash that comes from a client is put into the
    buffer; the [DATA] frame with the packet goes to the end of the channel
    of every client of the set but the sender (of every one that is open
    and has room on its channel, such is [Client.Send]) and no other object
    changes; and when the router has a mesh link with a relay identity, one
    datagram is handed to the socket: the relay's key, its certificate in
    CA mode, the signature over the packet, the packet. *)
Theorem Route_duplicate_or_fanout w sender data :
  (Dedup.PacketHash data ∈ Dedup.seen (dedup (theRouter w)) ->
   RouteFromClient w sender data = Some w /\
   RouteFromMesh w data = Some w) /\
  (Dedup.PacketHash data ∉ Dedup.seen (dedup (theRouter w)) ->
   forall N l, (0 < N)%nat -> Buffer.holds N l (buffer (theRouter w)) ->
   exists w1,
     RouteFromClient w sender data = Some w1 /\
     Buffer.holds N (l ++ [data]) (buffer (theRouter w1)) /\
     Dedup.PacketHash data ∈ Dedup.seen (dedup (theRouter w1)) /\
     clients (theRouter w1) = clients (theRouter w) /\
     (forall c, objs w1 !! c =
        match objs w !! c with
        | Some cl =>
            if decide (c ∈ clients (theRouter w) /\ c <> sender /\
                       Session.closed cl = false /\
                       (length (Session.writeCh cl) < 64)%nat)
            then Some {| Session.peerID := Session.peerID cl;
                         Session.addr := Session.addr cl;
                         Session.closed := false;
                         Session.writeCh :=
                           Session.writeCh cl
                           ++ [{| Session.frameType := FrameData;
                                  Session.payload := data |}] |}
            else Some cl
        | None => None
        end) /\
     (mesh (theRouter w) = false \/ auth (theMesh w) = None ->
      theMesh w1 = theMesh w) /\
     (forall a,
        mesh (theRouter w) = true -> auth (theMesh w) = Some a ->
        length (PublicKey a) = 32%nat -> length (Sign a data) = 64%nat ->
        theMesh w1 =
        {| auth := Some a; router := router (theMesh w);
           sent := sent (theMesh w)
                   ++ [PublicKey a
                       ++ (if HasCA a && HasCertificate a
                           then Certificate a else [])
                       ++ Sign a data ++ data];
           cfg := cfg (theMesh w) |})).
Proof.
  split.
  - intros Hin. split;
      [now apply RouteFromClient_duplicate | now apply RouteFromMesh_duplicate].
  - intros Hfresh N l HN Hholds.
    destruct (holds_Add N HN l _ data Hholds) as (pb1 & Hadd & Hholds1).
    unfold RouteFromClient. rewrite (IsDuplicate_new _ _ Hfresh), Hadd.
    eexists. split; [reflexivity|]. cbn [theRouter theMesh objs buffer dedup
                                           clients].
    split; [exact Hholds1|].
    split; [apply elem_of_union_l, elem_of_singleton; reflexivity|].
    split; [reflexivity|]. split; [|split].
    + intros c. rewrite fanout_lookup.
      destruct (objs w !! c) as [cl|] eqn:Hc; cbn [fmap option_fmap option_map].
      * rewrite SendData_channel.
        destruct (decide (c ∈ clients (theRouter w) /\ Some c <> Some sender))
          as [[Hin Hne]|Hno].
        -- destruct (decide (Session.closed cl = false /\
                             (length (Session.writeCh cl) < 64)%nat))
             as [[Hopen Hroom]|Hfull].
           ++ rewrite decide_True; [reflexivity|].
              split; [exact Hin|]. split; [congruence|]. auto.
           ++ rewrite decide_False; [reflexivity|].
              intros (_ & _ & Hopen & Hroom). apply Hfull. auto.
        -- rewrite decide_False; [reflexivity|].
           intros (Hin & Hne & _). apply Hno. split; [exact Hin|congruence].
      * now destruct (decide _).
    + intros [Hmesh|Hauth].
      * now rewrite Hmesh.
      * destruct (mesh (theRouter w)); [|reflexivity].
        unfold Send. now rewrite Hauth.
    + intros a Hmesh Ha Hpk Hsig. rewrite Hmesh.
      now apply Send_datagram.
Qed.

End RoutingAPacket.

(** *** The CA key and the revocation list *)

Section TrustSettings.

Context `{Ed25519}.

Import Strings OS Auth.

(** White space of ASCII only. *)
Local Abbreviation blank s := (Forall (fun c => isSpace c = true) s).

Lemma TrimLeft_blank ws s : blank ws -> TrimLeft (ws ++ s) = TrimLeft s.
Proof.
  induction 1 as [|c ws Hc _ IH]; [reflexivity|].
  cbn. now rewrite Hc.
Qed.

Lemma TrimLeft_solid c s : isSpace c = false -> TrimLeft (c :: s) = c :: s.
Proof. intros Hc. cbn. now rewrite Hc. Qed.

(** A string that neither starts nor ends with white space, with white
    space around it. *)
Lemma TrimSpace_padded ws1 ws2 (c1 c2 : byte) (mid : bytes) :
  blank ws1 -> blank ws2 -> isSpace c1 = false -> isSpace c2 = false ->
  TrimSpace (ws1 ++ (c1 :: mid ++ [c2]) ++ ws2) = c1 :: mid ++ [c2].
Proof.
  intros H1 H2 Hc1 Hc2. unfold TrimSpace.
  rewrite TrimLeft_blank by exact H1.
  change ((c1 :: mid ++ [c2]) ++ ws2) with (c1 :: (mid ++ [c2]) ++ ws2).
  rewrite TrimLeft_solid by exact Hc1.
  change (c1 :: (mid ++ [c2]) ++ ws2) with ((c1 :: mid ++ [c2]) ++ ws2).
  rewrite rev_app_distr.
  rewrite TrimLeft_blank by (apply Forall_rev; exact H2).
  change (c1 :: mid ++ [c2]) with ((c1 :: mid) ++ [c2]).
  rewrite rev_app_distr. cbn [rev app].
  rewrite TrimLeft_solid by exact Hc2.
  change (c2 :: rev mid ++ [c1]) with ([c2] ++ rev (c1 :: mid)).
  rewrite rev_app_distr, rev_involutive. reflexivity.
Qed.

Lemma hex_digit_solid (v : byte) :
  isSpace (nth (Z.to_nat (Z.shiftr (Z_of_byte v) 4)) Hex.hextable x00) = false
  /\ isSpace (nth (Z.to_nat (Z.land (Z_of_byte v) 15)) Hex.hextable x00) = false
  /\ nth (Z.to_nat (Z.shiftr (Z_of_byte v) 4)) Hex.hextable x00 <> x23.
Proof. destruct v; vm_compute; repeat split; discriminate. Qed.

(** The hexadecimal form of a key that is not empty starts and ends with
    a digit. *)
Lemma EncodeToString_shape (k : bytes) :
  k <> [] ->
  exists c1 mid c2, Hex.EncodeToString k = c1 :: mid ++ [c2] /\
    isSpace c1 = false /\ isSpace c2 = false /\ c1 <> x23.
Proof.
  intros Hk. destruct k as [|v t]; [congruence|]. clear Hk.
  destruct (hex_digit_solid v) as (Hhi & Hlo & Hhash).
  destruct (exists_last (l := v :: t)) as (front & vl & Hlast); [discriminate|].
  destruct (hex_digit_solid vl) as (_ & Hlo_l & _).
  unfold Hex.EncodeToString.
  destruct front as [|f0 front].
  - cbn [app] in Hlast. injection Hlast as -> ->. cbn [flat_map app].
    eexists _, [], _. split; [reflexivity|]. auto.
  - cbn [app] in Hlast. injection Hlast as <- ->.
    cbn [flat_map]. rewrite flat_map_app. cbn [flat_map app].
    eexists _, (_ :: flat_map _ front ++ [_]), _. split.
    + cbn [app]. rewrite <- app_assoc. reflexivity.
    + auto.
Qed.

(** X21: the CA key of the command line.  Given the hexadecimal form of a
    32-byte key, with ASCII white space around it or not, [NewRelayAuth]
    runs in CA mode with exactly this key, whenever it returns a relay
    identity. *)
Theorem NewRelayAuth_ca_key keyDir ws1 ws2 k crlPath files env a :
  length k = 32%nat -> blank ws1 -> blank ws2 ->
  (NewRelayAuth keyDir (ws1 ++ Hex.EncodeToString k ++ ws2) crlPath
     files env).1 = inl a ->
  CAPubKey a = Some k /\ HasCA a = true.
Proof.
  intros Hk Hws1 Hws2.
  assert (k <> []) as Hne by (intros ->; discriminate Hk).
  destruct (EncodeToString_shape k Hne) as (c1 & mid & c2 & Hhex & Hc1 & Hc2 & _).
  assert (load_ca (ws1 ++ Hex.EncodeToString k ++ ws2) = inl (Some k)) as Hca.
  { unfold load_ca. rewrite Hhex.
    rewrite decide_True by (destruct ws1; discriminate).
    rewrite TrimSpace_padded by assumption. rewrite <- Hhex.
    rewrite DecodeString_EncodeToString.
    rewrite decide_False; [reflexivity|].
    intros Hbad. now apply Hbad. }
  unfold NewRelayAuth. rewrite Hca.
  destruct (load_or_generate _ _ _) as [[[priv pub]|e] files1]; [|discriminate].
  cbn [fst]. intros [= <-].
  assert (forall a0, CAPubKey (loadCRL a0 files1) = CAPubKey a0) as Hkeep.
  { intros a0. unfold loadCRL. destruct (decide _); [reflexivity|].
    destruct (files1 !! Auth.crlPath a0); [|reflexivity].
    destruct (decide _); reflexivity. }
  split.
  - now rewrite Hkeep.
  - unfold HasCA. apply bool_decide_eq_true. now rewrite Hkeep.
Qed.

Lemma loadCRL_loaded a files info :
  crlPath a <> [] -> files !! crlPath a = Some info ->
  Some (modTime info) <> crlModTime a ->
  revokedKeys (loadCRL a files) = crl_entries (data info).
Proof.
  intros Hpath Hfile Hnew. unfold loadCRL.
  rewrite decide_False by exact Hpath. rewrite Hfile.
  now rewrite decide_False by exact Hnew.
Qed.

(** X22: the revocation list.  [loadCRL] leaves the relay as it is when
    no path is set, when the file is missing (a list that was loaded before
    stays in force) and when the file has the modification time of the last
    load; otherwise the set of revoked keys is replaced, and a key is
    revoked exactly when a line of the file, in lower case and without the
    white space around it, is the hexadecimal form of the key: letter case
    and white space do not matter, and a key that is no longer listed is no
    longer revoked. *)
Theorem loadCRL_revokes a files :
  (crlPath a = [] \/ files !! crlPath a = None \/
   (exists info, files !! crlPath a = Some info /\
                 Some (modTime info) = crlModTime a) ->
   loadCRL a files = a) /\
  (forall info pk,
     crlPath a <> [] -> files !! crlPath a = Some info ->
     Some (modTime info) <> crlModTime a ->
     Forall (fun c => Z_of_byte c < 128) (data info) ->
     pk <> [] ->
     (IsRevoked (loadCRL a files) pk = true <->
      exists line, line ∈ SplitLines (data info) /\
                   TrimSpace (ToLower line) = Hex.EncodeToString pk)).
Proof.
  split.
  - intros Hcase. unfold loadCRL.
    destruct (decide (crlPath a = [])); [reflexivity|].
    destruct Hcase as [Hp|[Hnone|(info & Hfile & Hsame)]]; [contradiction| |].
    + now rewrite Hnone.
    + rewrite Hfile. now rewrite decide_True by exact Hsame.
  - intros info pk Hpath Hfile Hnew _ Hpk.
    rewrite IsRevoked_true, (loadCRL_loaded a files info) by assumption.
    unfold crl_entries.
    rewrite elem_of_list_to_set, list_elem_of_filter, list_elem_of_In,
      in_map_iff.
    destruct (EncodeToString_shape pk Hpk)
      as (c1 & mid & c2 & Hhex & _ & _ & Hhash).
    split.
    + intros (_ & line & Hline & Hin). exists line.
      split; [now apply list_elem_of_In|exact Hline].
    + intros (line & Hin & Hline). split.
      * split; [rewrite Hhex; discriminate|].
        unfold HasPrefix. apply bool_decide_eq_false. rewrite Hhex.
        cbn. congruence.
      * exists line. split; [exact Hline|now apply list_elem_of_In].
Qed.

End TrustSettings.

(** *** The filter's size, the difficulty, the command line *)

Section Bounds.

Import SHA256 PoW Dedup Strings.

Lemma IsDuplicate_size d h :
  Z.of_nat (size (seen d)) <= Z.max (max d) 1 ->
  Z.of_nat (size (seen (IsDuplicate d h).2)) <= Z.max (max d) 1 /\
  max (IsDuplicate d h).2 = max d.
Proof.
  intros Hb. unfold IsDuplicate.
  destruct (decide (h ∈ seen d)) as [Hin|Hnew]; [auto|].
  destruct (decide (Z.of_nat (size (seen d)) >= max d)) as [Hfull|Hroom];
    cbn [snd seen max].
  - rewrite union_empty_r_L, size_singleton. split; [lia|reflexivity].
  - rewrite size_union by (now apply disjoint_singleton_l).
    rewrite size_singleton. split; [lia|reflexivity].
Qed.

(** X23: the filter holds [maxEntries] hashes at most (one, when
    [maxEntries] is below one), whatever hashes it is asked about, in
    whatever order. *)
Theorem DedupFilter_size_bound maxEntries hs :
  Z.of_nat (size (seen (IsDuplicate_all (NewDedupFilter maxEntries) hs).2))
  <= Z.max maxEntries 1.
Proof.
  assert (forall d,
            Z.of_nat (size (seen d)) <= Z.max (max d) 1 ->
            Z.of_nat (size (seen (IsDuplicate_all d hs).2))
              <= Z.max (max d) 1) as Hgen.
  { induction hs as [|h t IH]; intros d Hb; cbn [IsDuplicate_all]; [exact Hb|].
    destruct (IsDuplicate_size d h Hb) as [Hb1 Hm1].
    destruct (IsDuplicate d h) as [r d1]. cbn [snd] in *.
    specialize (IH d1). rewrite Hm1 in IH. specialize (IH Hb1).
    destruct (IsDuplicate_all d1 t) as [rs d2]. exact IH. }
  apply (Hgen (NewDedupFilter maxEntries)). cbn. rewrite size_empty. lia.
Qed.

(** X24: a solution for a difficulty is a solution for every lower
    difficulty. *)
Theorem VerifyPoW_monotone nonce s d d' :
  length nonce = 32%nat -> 0 <= d' <= d -> d < 256 ->
  VerifyPoW nonce s d = Some true -> VerifyPoW nonce s d' = Some true.
Proof.
  intros Hn Hd' Hd. unfold VerifyPoW.
  rewrite !hasLeadingZeros_spec by (rewrite ?length_Sum256; lia).
  intros [= Hle]. f_equal. apply bool_decide_eq_true in Hle.
  apply bool_decide_eq_true. lia.
Qed.

(** X25: the flag [-pow-difficulty] is cut to eight bits: for 256, and
    for every multiple of 256, the daemon runs with difficulty 0, which
    every solution meets. *)
Theorem PoWDifficulty_flag_wraps flag nonce s :
  flag mod 256 = 0 ->
  Main.PoWDifficulty flag = 0 /\
  VerifyPoW nonce s (Main.PoWDifficulty flag) = Some true.
Proof.
  intros Hflag. unfold Main.PoWDifficulty, uint8.
  change (2 ^ 8) with 256. rewrite Hflag. split; reflexivity.
Qed.

Lemma foldl_allowed items k : forall m0 : gmap bytes bool,
  foldl (fun (m : gmap bytes bool) h =>
           let h := TrimSpace (ToLower h) in
           if decide (h <> []) then <[h := true]> m else m) m0 items !! k =
  if decide (k <> [] /\
             Exists (fun item => TrimSpace (ToLower item) = k) items)
  then Some true else m0 !! k.
Proof.
  induction items as [|item rest IH]; intros m0; cbn [foldl].
  - rewrite decide_False; [reflexivity|].
    intros (_ & Hex). now apply Exists_nil in Hex.
  - rewrite IH.
    destruct (decide (k <> [] /\
                      Exists (fun i => TrimSpace (ToLower i) = k) rest))
      as [(Hk & Hex)|Hno].
    + rewrite decide_True; [reflexivity|].
      split; [exact Hk|]. now apply Exists_cons_tl.
    + destruct (decide (k <> [] /\
                        Exists (fun i => TrimSpace (ToLower i) = k)
                               (item :: rest)))
        as [(Hk & Hex)|Hno2].
      * apply Exists_cons in Hex as [Hik|Hex]; [|exfalso; apply Hno; auto].
        rewrite decide_True by congruence.
        rewrite Hik. apply lookup_insert_eq.
      * destruct (decide (TrimSpace (ToLower item) <> [])) as [Hne|He];
          [|reflexivity].
        apply lookup_insert_ne. intros Heq. apply Hno2.
        split; [congruence|]. now apply Exists_cons_hd.
Qed.

(** X26: the flag [-allowed-cert-hash].  A hash is allowed exactly when
    it is not empty and is one of the items between the commas of the flag,
    in lower case and without the white space around it; no entry of the
    map is [false]; and the map is empty, which leaves the relay open to
    every application, exactly when all items are blank, be the flag empty
    or not. *)
Theorem AllowedCertHashes_spec certHashes k :
  Forall (fun c => Z_of_byte c < 128) certHashes ->
  (Main.AllowedCertHashes certHashes !! k = Some true <->
   k <> [] /\ exists item, item ∈ Main.Split certHashes x2c /\
                           TrimSpace (ToLower item) = k) /\
  Main.AllowedCertHashes certHashes !! k <> Some false /\
  (base.size (Main.AllowedCertHashes certHashes) = 0%nat <->
   forall item, item ∈ Main.Split certHashes x2c ->
                TrimSpace (ToLower item) = []).
Proof.
  intros _.
  assert (forall k0, Main.AllowedCertHashes certHashes !! k0 =
            if decide (k0 <> [] /\
                       Exists (fun item => TrimSpace (ToLower item) = k0)
                              (Main.Split certHashes x2c))
            then Some true else None) as Hlook.
  { intros k0. unfold Main.AllowedCertHashes.
    destruct (decide (certHashes <> [])) as [Hne|He].
    - now rewrite foldl_allowed, lookup_empty.
    - apply dec_stable in He. subst certHashes.
      rewrite lookup_empty, decide_False; [reflexivity|].
      intros (Hk & Hex). cbn in Hex.
      apply Exists_cons in Hex as [Hik|Hex]; [|now apply Exists_nil in Hex].
      apply Hk. now rewrite <- Hik. }
  split; [|split].
  - rewrite Hlook. setoid_rewrite <- Exists_exists.
    destruct (decide _) as [Hyes|Hno]; [tauto|].
    split; [discriminate|tauto].
  - rewrite Hlook. destruct (decide _); discriminate.
  - rewrite map_size_empty_iff. split.
    + intros Hempty item Hin.
      destruct (decide (TrimSpace (ToLower item) = [])) as [|Hne];
        [assumption|].
      pose proof (Hlook (TrimSpace (ToLower item))) as Hl.
      rewrite decide_True in Hl
        by (split; [exact Hne|]; apply Exists_exists; eauto).
      rewrite Hempty, lookup_empty in Hl. discriminate.
    + intros Hblank. apply map_eq. intros k0.
      rewrite Hlook, lookup_empty, decide_False; [reflexivity|].
      intros (Hk & Hex). apply Exists_exists in Hex as (item & Hin & Hik).
      apply Hk. rewrite <- Hik. now apply Hblank.
Qed.

End Bounds.

(** *** The phone and the relay *)

Section PhoneAndRelay.

Import Frame Net Handshake Config SHA256.
Import Phone.

Lemma zero_until_zero_bytes_from hash todo : forall i : nat,
  (i + todo <= 255)%nat ->
  PoW.zero_bytes_from hash (Z.of_nat i) todo
  = ProofOfWork.zero_until hash i todo.
Proof.
  induction todo as [|k IH]; intros i Hi; cbn; [reflexivity|].
  rewrite Nat2Z.id. destruct (hash !! i) as [b|]; [|reflexivity].
  destruct (decide (b <> x00)); [reflexivity|].
  rewrite <- IH by lia. f_equal. unfold uint8.
  change (2 ^ 8) with 256. rewrite Z.mod_small by lia. lia.
Qed.

(** The test of the remaining bits, on signed bytes and on unsigned
    ones. *)
Lemma signed_mask_test (r : Z) (b : byte) :
  0 < r < 8 ->
  let mask := byte_of_Z (Z.shiftl 0xFF (8 - r)) in
  bool_decide (Z.land (toInt b) (toInt mask) <> 0)
  = bool_decide (PoW.byte_and b mask <> x00).
Proof.
  intros Hr.
  assert (r = 1 \/ r = 2 \/ r = 3 \/ r = 4 \/ r = 5 \/ r = 6 \/ r = 7)
    as Hcases by lia.
  destruct Hcases as [->|[->|[->|[->|[->|[->| ->]]]]]];
    destruct b; vm_compute; reflexivity.
Qed.

Lemma phone_hasLeadingZeros hash d :
  0 <= d < 256 ->
  ProofOfWork.hasLeadingZeros hash d = PoW.hasLeadingZeros hash d.
Proof.
  intros Hd. unfold ProofOfWork.hasLeadingZeros, PoW.hasLeadingZeros.
  rewrite Z.quot_div_nonneg, Z.rem_mod_nonneg by lia.
  assert (0 <= d / 8 < 32) as Hq
    by (split; [apply Z.div_pos; lia | apply Z.div_lt_upper_bound; lia]).
  assert (0 <= d mod 8 < 8) as Hm by (apply Z.mod_pos_bound; lia).
  rewrite <- (zero_until_zero_bytes_from hash (Z.to_nat (d / 8)) 0) by lia.
  change (Z.of_nat 0) with 0.
  destruct (PoW.zero_bytes_from hash 0 (Z.to_nat (d / 8))) as [[|]|];
    try reflexivity.
  destruct (decide (d mod 8 > 0)) as [Hpos|]; [|reflexivity].
  rewrite decide_False by lia.
  destruct (hash !! Z.to_nat (d / 8)) as [b|]; [|reflexivity].
  pose proof (signed_mask_test (d mod 8) b ltac:(lia)) as Hmask.
  cbn zeta in Hmask.
  destruct (decide (Z.land _ _ <> 0)) as [Hs|Hs];
    destruct (decide (PoW.byte_and _ _ <> x00)) as [Hu|Hu]; try reflexivity.
  - rewrite bool_decide_eq_true_2, bool_decide_eq_false_2 in Hmask
      by assumption. discriminate.
  - rewrite bool_decide_eq_false_2, bool_decide_eq_true_2 in Hmask
      by assumption. discriminate.
Qed.

Lemma phone_fill nonce s :
  length nonce = 32%nat ->
  ProofOfWork.fill nonce s = inl (PoW.pow_buf nonce (uint64 s)).
Proof.
  intros Hn. unfold ProofOfWork.fill, PoW.pow_buf.
  rewrite decide_False by lia.
  now rewrite take_ge by lia.
Qed.

Lemma phone_solve_from_sound nonce d fuel : forall s0 s,
  length nonce = 32%nat -> 0 <= d < 256 ->
  ProofOfWork.solve_from nonce d fuel s0 = Some (inl s) ->
  PoW.VerifyPoW nonce (uint64 s) d = Some true.
Proof.
  induction fuel as [|k IH]; intros s0 s Hn Hd; cbn [ProofOfWork.solve_from];
    [discriminate|].
  rewrite phone_fill, phone_hasLeadingZeros by assumption.
  destruct (PoW.hasLeadingZeros _ d) as [[|]|] eqn:Hh; try discriminate.
  - intros [= <-]. exact Hh.
  - now apply IH.
Qed.

(** X27: the phone and the relay agree on the proof of work.  For a
    32-byte nonce and a difficulty that fits a byte, [ProofOfWork.verify]
    of the phone, on signed bytes and a signed [Long], gives the answer of
    the relay's [VerifyPoW] for the same 64 bits; and a solution that the
    phone's [solve] finds is one the relay accepts. *)
Theorem phone_pow_agrees nonce d :
  length nonce = 32%nat -> 0 <= d < 256 ->
  (forall s, exists b,
     PoW.VerifyPoW nonce (uint64 s) d = Some b /\
     ProofOfWork.verify nonce s d = inl b) /\
  (forall fuel s,
     ProofOfWork.solve nonce d fuel = Some (inl s) ->
     PoW.VerifyPoW nonce (uint64 s) d = Some true).
Proof.
  intros Hn Hd. split.
  - intros s. unfold ProofOfWork.verify, PoW.VerifyPoW.
    rewrite phone_fill, phone_hasLeadingZeros by assumption.
    rewrite hasLeadingZeros_spec by (rewrite ?length_Sum256; lia).
    eexists. split; reflexivity.
  - intros fuel s. unfold ProofOfWork.solve.
    destruct (decide _); [discriminate|].
    destruct (decide _); [discriminate|].
    now apply phone_solve_from_sound.
Qed.

Lemma phone_writeFrame_buf t p :
  RelayConnection.writeFrame_buf t p = WriteFrame_buf t p.
Proof.
  unfold RelayConnection.writeFrame_buf, WriteFrame_buf.
  cbv zeta. f_equal.
  unfold with_slice. rewrite !length_app, length_take, length_drop.
  rewrite length_insert. unfold PutUint32. rewrite length_copy.
  unfold slice, make. rewrite length_take, length_drop, length_insert,
    repeat_length. lia.
Qed.

Lemma phone_readFrame_iff input f rest :
  RelayConnection.readFrame input = inl (f, rest) <->
  Frame.ReadFrame 64 input 65536 = Some (inl f, rest).
Proof.
  unfold RelayConnection.readFrame, Frame.ReadFrame, ReadFull.
  destruct input as [|t input1].
  { cbn. split; discriminate. }
  cbn [length].
  destruct (decide (length input1 < 4)%nat) as [Hshort|Hlong].
  { rewrite decide_False by lia. split; discriminate. }
  rewrite (decide_True (P := (5 <= S (length input1))%nat)) by lia.
  change (take 5 (t :: input1)) with (t :: take 4 input1).
  change (drop 5 (t :: input1)) with (drop 4 input1).
  change (slice (t :: take 4 input1) 1 5) with (take 4 (take 4 input1)).
  rewrite take_take. change (4 `min` 4)%nat with 4%nat.
  cbn [nth].
  set (L := Uint32 (take 4 input1)).
  pose proof (Uint32_range (take 4 input1)) as HL. fold L in HL.
  assert (to_int 64 L = L) as Hint64
    by (apply to_int_small; [auto|lia]).
  rewrite Hint64. unfold RelayConnection.MAX_FRAME_PAYLOAD.
  destruct (decide (L < 2 ^ 31)) as [Hpos|Hneg].
  + assert (to_int 32 L = L) as -> by (apply to_int_small; [auto|lia]).
    rewrite (decide_False (P := 2 ^ (64 - 1) <= L)) by lia.
    destruct (decide (L > 65536)).
    { rewrite decide_True by lia. split; discriminate. }
    rewrite (decide_False (P := L < 0 \/ L > 65536)) by lia.
    destruct (decide (L > 0));
      [|split; intros [= <- <-]; reflexivity].
    destruct (decide (length (drop 4 input1) < Z.to_nat L)%nat).
    * rewrite decide_False by lia. split; discriminate.
    * rewrite decide_True by lia. split; intros [= <- <-]; reflexivity.
  + assert (to_int 32 L = L - 2 ^ 32) as ->.
    { unfold to_int. rewrite Z.mod_small by lia.
      now rewrite decide_False by lia. }
    rewrite (decide_True (P := L - 2 ^ 32 < 0 \/ L - 2 ^ 32 > 65536))
      by lia.
    rewrite (decide_True (P := L > 65536)) by lia.
    split; discriminate.
Qed.

(** X28: the phone and the relay speak the same frames.  The phone's
    [writeFrame] produces the bytes of the relay's [WriteFrame]; and on
    every byte stream the phone's [readFrame] returns a frame exactly when
    the relay's [ReadFrame] does under the limit of 65536 bytes and with a
    64-bit [int], the same frame with the same bytes left (a length field
    of [2^31] or more is a negative [Int] for the phone, and refused). *)
Theorem phone_frames_agree :
  (forall t p, RelayConnection.writeFrame_buf t p = WriteFrame_buf t p) /\
  (forall input f rest,
     RelayConnection.readFrame input = inl (f, rest) <->
     Frame.ReadFrame 64 input 65536 = Some (inl f, rest)).
Proof.
  split; [apply phone_writeFrame_buf | apply phone_readFrame_iff].
Qed.

Lemma phone_reads_relay_frame t p rest :
  Z.of_nat (length p) <= 65536 ->
  RelayConnection.readFrame (WriteFrame_buf t p ++ rest)
  = inl ({| Type_ := t; Payload := p |}, rest).
Proof.
  intros Hp. apply phone_readFrame_iff.
  apply ReadFrame_encoded; [auto|lia..].
Qed.

Lemma toInt_and_255 b : Z.land (toInt b) 255 = Z_of_byte b.
Proof. destruct b; reflexivity. Qed.

(** [put] into an array whose bytes from the position on are still
    zero. *)
Lemma put_fresh (pre src : bytes) (k : nat) :
  (length src <= k)%nat ->
  RelayConnection.put (pre ++ make k, length pre) src =
  inl ((pre ++ src) ++ make (k - length src),
       length (pre ++ src)).
Proof.
  intros Hk. unfold RelayConnection.put.
  rewrite decide_True by (rewrite length_app; unfold make;
                          rewrite repeat_length; lia).
  rewrite (copy_range_eq _ pre (make (length src)) (make (k - length src)) src).
  - now rewrite length_app, <- app_assoc.
  - unfold make. rewrite <- repeat_app. do 2 f_equal. lia.
  - reflexivity.
  - unfold make. now rewrite repeat_length.
  - unfold make. now rewrite repeat_length.
Qed.

(** The payload of the phone's [HELLO]. *)
Lemma helloPayload_layout peerID certHash :
  (length peerID <= 255)%nat ->
  (forall h, certHash = Some h -> length h = 32%nat) ->
  RelayConnection.helloPayload peerID certHash =
  inl ([x00; x01; byte_of_Z (Z.of_nat (length peerID))] ++ peerID
       ++ match certHash with Some h => h | None => [] end).
Proof.
  intros Hlen Hhash. unfold RelayConnection.helloPayload.
  set (extra := match certHash with
                | Some _ => RelayConnection.CERT_HASH_SIZE | None => 0%nat
                end).
  change (RelayConnection.putShort RelayConnection.PROTOCOL_VERSION)
    with [x00; x01].
  change (make (3 + length peerID + extra), 0%nat)
    with ([] ++ make (3 + length peerID + extra), length (@nil byte)).
  rewrite put_fresh by (cbn [length]; lia).
  rewrite put_fresh by (cbn [length]; lia).
  rewrite put_fresh by (cbn [length]; lia).
  assert (((([] ++ [x00; x01]) ++ [byte_of_Z (Z.of_nat (length peerID))])
           ++ peerID)
          = [x00; x01; byte_of_Z (Z.of_nat (length peerID))] ++ peerID)
    as -> by reflexivity.
  replace (3 + length peerID + extra - length [x00; x01]
           - length [byte_of_Z (Z.of_nat (length peerID))]
           - length peerID)%nat with extra by (cbn [length]; lia).
  destruct certHash as [h|]; unfold extra.
  - rewrite put_fresh
      by (rewrite (Hhash h eq_refl); unfold RelayConnection.CERT_HASH_SIZE; lia).
    cbn [fst]. rewrite (Hhash h eq_refl).
    unfold RelayConnection.CERT_HASH_SIZE. cbn [Nat.sub make repeat].
    rewrite app_nil_r. now rewrite <- !app_assoc.
  - cbn [fst make repeat]. now rewrite !app_nil_r.
Qed.

(** X29: the phone's handshake and the relay's fit together.  The phone
    runs [performHandshake] for a peer ID of 255 bytes at most, with or
    without a certificate hash; the relay runs [PerformHandshake] with a
    difficulty for which the phone's [solve] finds a solution, and with a
    list of allowed hashes that is empty or allows the phone's hash.  Then
    what each side writes is what the other side reads: the relay returns
    the phone's peer ID, the phone ends accepted, and neither reads beyond
    the other's two frames. *)
Theorem handshake_phone_and_relay intSize cfg allowed peerID certHash
    r s fuel rest_p rest_r outs :
  intSize = 32 \/ intSize = 64 ->
  MaxPacketSize cfg < 2 ^ (intSize - 1) -> MaxPacketSize cfg < 2 ^ 32 ->
  Z.of_nat (3 + length peerID + 32) <= MaxPacketSize cfg ->
  (length peerID <= 255)%nat ->
  (forall h, certHash = Some h -> length h = 32%nat) ->
  ((0 < base.size allowed)%nat ->
   exists h, certHash = Some h /\
             allowed !! Hex.EncodeToString h = Some true) ->
  0 <= PoWDifficulty cfg < 256 ->
  let nonce := copy (make 32) r in
  ProofOfWork.solve nonce (PoWDifficulty cfg) fuel = Some (inl s) ->
  exists hello,
    let to_relay :=
      [WriteFrame_buf FrameHello hello;
       WriteFrame_buf FrameSolution (PutUint64 (make 8) (uint64 s))] in
    let to_phone :=
      [WriteFrame_buf FrameChallenge (nonce ++ [byte_of_Z (PoWDifficulty cfg)]);
       WriteFrame_buf FrameAccept []] in
    RelayConnection.performHandshake peerID certHash
      (concat to_phone ++ rest_p) fuel
      = Some (to_relay, rest_p, RelayConnection.Accepted) /\
    PerformHandshake intSize
      {| input := concat to_relay ++ rest_r; output := outs; failing := [] |}
      cfg allowed (Some r)
      = Some (inl peerID,
              {| input := rest_r; output := outs ++ to_phone;
                 failing := [] |}).
Proof.
  intros Hsize Hint Hmax Hfit Hlen Hhash Hallowed Hd nonce Hsolve.
  set (d := PoWDifficulty cfg) in *.
  assert (length nonce = 32%nat) as Hnonce by apply length_nonce.
  set (extra := match certHash with Some h => h | None => [] end).
  assert (length extra <= 32)%nat as Hextra.
  { unfold extra. destruct certHash as [h|]; [|cbn; lia].
    rewrite (Hhash h eq_refl). lia. }
  set (hello := [x00; x01; byte_of_Z (Z.of_nat (length peerID))]
                ++ peerID ++ extra).
  set (sol := PutUint64 (make 8) (uint64 s)).
  assert (length sol = 8%nat) as Hsol
    by (unfold sol, PutUint64; now rewrite length_copy).
  assert (PoW.VerifyPoW nonce (Uint64 sol) d = Some true) as Hpow.
  { unfold sol. rewrite Uint64_PutUint64
      by (try reflexivity; unfold uint64; apply Z.mod_pos_bound; lia).
    unfold ProofOfWork.solve in Hsolve.
    destruct (decide _) in Hsolve; [discriminate|].
    destruct (decide _) in Hsolve; [discriminate|].
    now apply (phone_solve_from_sound nonce d fuel 0 s). }
  exists hello. cbv zeta. split.
  - unfold RelayConnection.performHandshake.
    rewrite decide_False by lia.
    rewrite helloPayload_layout by assumption. fold extra hello.
    cbn [concat]. rewrite app_nil_r, <- app_assoc.
    rewrite phone_reads_relay_frame
      by (rewrite length_app, Hnonce; cbn; lia).
    cbn [Type_ Payload].
    rewrite decide_False by (intros Hne; now apply Hne).
    rewrite decide_False
      by (intros Hne; apply Hne; rewrite length_app, Hnonce; reflexivity).
    assert (slice (nonce ++ [byte_of_Z d]) 0 32 = nonce) as ->.
    { unfold slice. rewrite drop_0. cbn [Nat.sub].
      now rewrite take_app_length' by (symmetry; exact Hnonce). }
    assert (nth 32 (nonce ++ [byte_of_Z d]) x00 = byte_of_Z d) as ->.
    { rewrite app_nth2 by lia. now rewrite Hnonce. }
    rewrite toInt_and_255, Z_of_byte_of_Z, Z.mod_small by lia.
    fold d. rewrite Hsolve. fold sol.
    unfold RelayConnection.response.
    rewrite phone_reads_relay_frame by (cbn; lia).
    cbn [Type_ Payload].
    rewrite decide_True by reflexivity.
    now rewrite !phone_writeFrame_buf.
  - assert (concat [WriteFrame_buf FrameHello hello;
                    WriteFrame_buf FrameSolution sol] ++ rest_r
            = WriteFrame_buf FrameHello hello
              ++ WriteFrame_buf FrameSolution sol ++ rest_r) as Hin
      by (cbn [concat]; now rewrite app_nil_r, <- app_assoc).
    assert (Z.to_nat (Z_of_byte (nth 2 hello x00)) = length peerID) as Hn.
    { unfold hello. cbn [app nth].
      rewrite Z_of_byte_of_Z, Z.mod_small by lia. lia. }
    assert (take (length peerID) (drop 3 hello) = peerID) as Hpeer.
    { unfold hello. cbn [app drop]. apply take_app_length. }
    assert (drop (3 + length peerID) hello = extra) as Hdrop.
    { unfold hello. cbn [app drop Nat.add]. apply drop_app_length. }
    rewrite (PerformHandshake_complete_aux intSize _ cfg allowed hello sol r
               rest_r (length peerID)); cbn [input output failing];
      try assumption; try reflexivity.
    + now rewrite Hpeer.
    + unfold hello. rewrite !length_app. cbn [length]. lia.
    + lia.
    + now rewrite Hn.
    + unfold hello. rewrite !length_app. cbn [length]. lia.
    + intros Hon. destruct (Hallowed Hon) as (h & Hc & Hlook).
      rewrite Hdrop. unfold hello, extra. rewrite Hc.
      rewrite !length_app, (Hhash h Hc). cbn [length].
      split; [lia|]. rewrite take_ge by (rewrite (Hhash h Hc); lia).
      exact Hlook.
Qed.

Lemma phone_readLoop_data pkts : forall fuel received,
  Forall (fun p : bytes => Z.of_nat (length p) <= 65536) pkts ->
  (length pkts < fuel)%nat ->
  RelayConnection.readLoop_from fuel
    (concat (map (WriteFrame_buf FrameData) pkts)) received
  = Some (received ++ pkts, EOFException).
Proof.
  induction pkts as [|p t IH]; intros fuel received Hfit Hfuel;
    (destruct fuel as [|fuel]; [cbn in Hfuel; lia|]);
    cbn [RelayConnection.readLoop_from map concat].
  - cbn. now rewrite app_nil_r.
  - apply Forall_cons in Hfit as [Hp Ht].
    rewrite phone_reads_relay_frame by exact Hp. cbn [Type_ Payload].
    rewrite decide_True by reflexivity.
    rewrite IH by (try assumption; cbn in Hfuel; lia).
    now rewrite <- app_assoc.
Qed.

End PhoneAndRelay.

Section StoreAndForwardToThePhone.

Context `{Ed25519}.

Import Frame Net Relay Loops Config.
Import Phone.

(** X30: store and forward, up to the phone.  After packets of 65536
    bytes at most, with pairwise distinct hashes, were routed, a phone
    connects: the relay registers the session and its [WriteLoop] runs on a
    connection whose writes go through.  The phone's [readLoop], reading
    what was written, hands [onDataReceived] the last [min k N] packets
    (the first 64 of them at most), oldest first, and nothing else, before
    the stream ends. *)
Theorem replay_reaches_the_phone N w0 ops c peerID addr conn :
  (0 < N)%nat -> buffered N [] w0 ->
  NoDup (map Dedup.PacketHash (map snd ops)) ->
  Forall (fun op : option nat * bytes => Z.of_nat (length op.2) <= 65536) ops ->
  failing conn = [] -> output conn = [] ->
  exists w1 w2 cl,
    Route_all w0 ops = Some w1 /\
    handleConn_register w1 c peerID addr = Some w2 /\
    objs w2 !! c = Some cl /\
    RelayConnection.readLoop (concat (output (WriteLoop cl conn).2)) =
      Some (take Session.writeCh_cap (drop (length ops - N) (map snd ops)),
            EOFException).
Proof.
  intros HN Hb Hnd Hfit Hrel Hout.
  destruct (Route_all_distinct N ops w0 [] HN Hb Hnd) as (w1 & Hr & [Hh _]).
  cbn [app] in Hh.
  exists w1. unfold handleConn_register, AddClient, AddClient_replay,
    AddClient_register. cbn [theRouter buffer].
  rewrite (GetAll_holds N HN _ _ Hh).
  eexists _, _. split; [exact Hr|]. split; [reflexivity|]. cbn [objs].
  rewrite foldl_send_to_lookup, decide_True, lookup_insert_eq by reflexivity.
  split; [reflexivity|].
  rewrite WriteLoop_writes_queue_aux by exact Hrel. cbn [snd output].
  rewrite Hout. cbn [app].
  rewrite SendData_many_frames by reflexivity.
  cbn [Session.NewClient Session.writeCh app length].
  rewrite Nat.sub_0_r, length_map, map_map.
  cbn [Session.frameType Session.payload].
  unfold RelayConnection.readLoop.
  set (pkts := take Session.writeCh_cap (drop (length ops - N) (map snd ops))).
  change (map (fun x : bytes => WriteFrame_buf FrameData x) pkts)
    with (map (WriteFrame_buf FrameData) pkts).
  rewrite phone_readLoop_data; [reflexivity| |].
  - unfold pkts. apply Forall_take, Forall_drop.
    apply Forall_forall. intros p Hp.
    apply list_elem_of_In, in_map_iff in Hp as (op & <- & Hop).
    apply list_elem_of_In in Hop.
    rewrite Forall_forall in Hfit. now apply Hfit.
  - assert (length pkts
            <= length (concat (map (WriteFrame_buf FrameData) pkts)))%nat;
      [|lia].
    clear. induction pkts as [|p t IH]; cbn [map concat length]; [lia|].
    rewrite length_app, length_WriteFrame_buf. lia.
Qed.

End StoreAndForwardToThePhone.

(** *** The properties above, on the sample data *)

Section Runs.

Import Frame Net Handshake Dedup Auth Relay Loops Config.
Import Fixtures Scenario Crowd.

#[local] Existing Instance stub_ed25519.

Ltac by_run :=
  first [reflexivity | cbn; lia | vm_compute; lia | vm_compute; reflexivity].

Lemma PerformHandshake_sound_witness :
  PerformHandshake 64 (from_phone hello_ab 206) small_config ∅
    (Some (make 32)) = Some (inl [x61; x62], handshake_done) /\
  exists hello sol r,
    input (from_phone hello_ab 206)
    = WriteFrame_buf FrameHello hello
      ++ WriteFrame_buf FrameSolution sol ++ ping /\
    [x61; x62] = take 2 (drop 3 hello) /\
    Some (make 32) = Some r /\
    length sol = 8%nat /\
    PoW.VerifyPoW (copy (make 32) r) (Uint64 sol) 8 = Some true.
Proof.
  assert (PerformHandshake 64 (from_phone hello_ab 206) small_config ∅
            (Some (make 32)) = Some (inl [x61; x62], handshake_done)) as Hrun
    by (vm_compute; reflexivity).
  split; [exact Hrun|].
  destruct (PerformHandshake_sound 64 _ small_config ∅ _ _ _
              (or_intror eq_refl) Hrun)
    as (hello & sol & r & n & Hin & _ & Hn & Hfit & Hpeer & Hr & Hlen & Hpow & _).
  exists hello, sol, r. split; [exact Hin|].
  assert (n = 2%nat) as ->.
  { apply (f_equal length) in Hpeer. rewrite length_take, length_drop in Hpeer.
    cbn [length] in Hpeer. lia. }
  auto.
Defined.

Lemma PerformHandshake_complete_witness :
  PerformHandshake 32 (from_phone hello_ab_cert 206) small_config allowed_07
    (Some (make 32)) = Some (inl [x61; x62], handshake_done).
Proof.
  apply (PerformHandshake_complete 32 (from_phone hello_ab_cert 206)
           small_config allowed_07 hello_ab_cert (PutUint64 (make 8) 206)
           (make 32) ping 2);
    try reflexivity; try by_run; try (left; reflexivity).
  intros _. split; [cbn; lia|]. vm_compute. reflexivity.
Defined.

Lemma PerformHandshake_cert_hash_enforced_witness :
  (0 < base.size allowed_07)%nat /\
  exists e reason,
    PerformHandshake 64 (from_phone hello_ab 206) small_config allowed_07 None
    = Some (inr e,
            {| input := WriteFrame_buf FrameSolution (PutUint64 (make 8) 206)
                        ++ ping;
               output := [WriteFrame_buf FrameReject reason];
               failing := [] |}) /\
    e = ErrCertHashRequired [x61; x62].
Proof.
  assert (0 < base.size allowed_07)%nat as Hon
    by (unfold allowed_07; rewrite map_size_singleton; lia).
  split; [exact Hon|].
  assert (length hello_ab < 3 + 2 + 32)%nat as Hshort by by_run.
  destruct (PerformHandshake_cert_hash_enforced 64
              (from_phone hello_ab 206) small_config allowed_07 None hello_ab
              (WriteFrame_buf FrameSolution (PutUint64 (make 8) 206) ++ ping)
              2 (or_intror eq_refl) ltac:(by_run) ltac:(by_run)
              ltac:(by_run) eq_refl eq_refl eq_refl eq_refl
              ltac:(by_run) Hon (or_introl Hshort))
    as (e & reason & Hrun & [(_ & He & _)|(Hlen & _)]);
    [|cbn in Hlen; lia].
  exists e, reason. split; [exact Hrun | exact He].
Defined.

Lemma PerformHandshake_invalid_pow_witness :
  PerformHandshake 64 (from_phone hello_ab 205) small_config ∅
    (Some (make 32))
  = Some (inr (ErrInvalidPoW [x61; x62]),
          {| input := ping; output := [challenge_8; reject_pow];
             failing := [] |}).
Proof.
  apply (PerformHandshake_invalid_pow 64 (from_phone hello_ab 205)
           small_config ∅ hello_ab (PutUint64 (make 8) 205)
           (make 32) ping 2);
    try by_run; right; reflexivity.
Defined.

Lemma PerformHandshake_error_no_accept_witness :
  PerformHandshake 64 (from_phone hello_ab 205) small_config ∅
    (Some (make 32))
  = Some (inr (ErrInvalidPoW [x61; x62]),
          {| input := ping; output := [challenge_8; reject_pow];
             failing := [] |}) /\
  exists outs,
    [challenge_8; reject_pow] = [] ++ outs /\ accept ∉ outs.
Proof.
  assert (PerformHandshake 64 (from_phone hello_ab 205) small_config ∅
            (Some (make 32))
          = Some (inr (ErrInvalidPoW [x61; x62]),
                  {| input := ping; output := [challenge_8; reject_pow];
                     failing := [] |})) as Hrun
    by (vm_compute; reflexivity).
  split; [exact Hrun|].
  destruct (PerformHandshake_error_no_accept 64 _ small_config ∅ _ _ _ Hrun)
    as (outs & Hout & _ & Hno).
  exists outs. split; [exact Hout | exact Hno].
Defined.

Lemma world_seen_holds : Buffer.holds 3 [hello] (buffer (theRouter world_seen)).
Proof.
  repeat split. intros i p Hi _. destruct i as [|i]; [|discriminate Hi].
  injection Hi as <-. reflexivity.
Qed.

Lemma ReadLoop_replies_witness :
  exists w1 nc ng,
    ReadLoop 32 small_config always world_seen 7 (encode three_frames ++ [])
    = Some (w1, nc, ng) /\
    objs w1 !! 7%nat
    = Some (Session.Close
              (foldl reply (Session.NewClient hello []) three_frames)) /\
    Session.writeCh (foldl reply (Session.NewClient hello []) three_frames)
    = [{| Session.frameType := FramePong; Session.payload := [] |}].
Proof.
  destruct (ReadLoop_replies 32 small_config always world_seen 7 three_frames
              [] ErrReadHeader [] 3 [hello] (Session.NewClient hello [])
              (or_introl eq_refl) ltac:(by_run) ltac:(by_run)
              ltac:(repeat constructor; cbn; lia) eq_refl ltac:(lia)
              world_seen_holds eq_refl)
    as (w1 & nc & ng & Hrun & Hc).
  exists w1, nc, ng. split; [exact Hrun|]. split; [exact Hc|]. reflexivity.
Defined.

Lemma ReadLoop_returns_witness :
  exists w1 nc ng,
    ReadLoop 64 small_config always world_seen 7 (encode three_frames ++ [x10])
    = Some (w1, nc, ng) /\
    clients (theRouter w1) = {[ 7%nat ]} ∖ {[ 7%nat ]} /\
    exists cl1, objs w1 !! 7%nat = Some cl1 /\ Session.closed cl1 = true.
Proof.
  destruct (ReadLoop_returns small_config always world_seen 7
              (encode three_frames ++ [x10]) 3 [hello] ltac:(lia)
              world_seen_holds)
    as (w1 & nc & ng & Hrun & Hcl & Hclosed).
  exists w1, nc, ng. split; [exact Hrun|]. split; [exact Hcl|].
  exact (Hclosed (Session.NewClient hello []) eq_refl).
Defined.

Lemma ReadLoop_limiter_calls_witness :
  exists w1,
    ReadLoop 32 small_config every_other world_seen 7
      (encode (three_frames ++ three_frames ++ three_frames) ++ [x10])
    = Some (w1, 3%nat, 2%nat).
Proof.
  exact (ReadLoop_limiter_calls 32 small_config every_other world_seen 7
           (three_frames ++ three_frames ++ three_frames) [x10]
           ErrReadHeader [] 3 [hello] (or_introl eq_refl) ltac:(by_run)
           ltac:(by_run) ltac:(repeat constructor; by_run) eq_refl
           ltac:(lia) world_seen_holds).
Defined.

Lemma WriteLoop_writes_queue_witness :
  WriteLoop waiting reliable =
  ({| Session.peerID := [x61; x62]; Session.addr := [];
      Session.closed := false; Session.writeCh := [] |},
   {| input := [];
      output := [] ++ [WriteFrame_buf FrameData [x41];
                       WriteFrame_buf FramePong [];
                       WriteFrame_buf FrameData [x42]];
      failing := [] |}).
Proof. exact (WriteLoop_writes_queue waiting reliable eq_refl). Defined.

Lemma WriteLoop_write_error_witness :
  WriteLoop waiting breaking =
  ({| Session.peerID := [x61; x62]; Session.addr := [];
      Session.closed := true;
      Session.writeCh :=
        [{| Session.frameType := FrameData; Session.payload := [x42] |}] |},
   {| input := [];
      output := [] ++ [WriteFrame_buf FrameData [x41]];
      failing := [false] |}).
Proof.
  exact (WriteLoop_write_error waiting breaking 1 [false] eq_refl
           ltac:(by_run)).
Defined.

Lemma four_packets_distinct :
  NoDup (map PacketHash (map snd four_packets)).
Proof. apply (bool_decide_unpack _). vm_compute. exact I. Qed.

Lemma replay_reaches_the_wire_witness :
  exists w1 w2 cl,
    Route_all world_open four_packets = Some w1 /\
    handleConn_register w1 7 hello [] = Some w2 /\
    objs w2 !! 7%nat = Some cl /\
    output (WriteLoop cl reliable).2
    = [WriteFrame_buf FrameData [x42]; WriteFrame_buf FrameData [x43];
       WriteFrame_buf FrameData [x44]].
Proof.
  destruct (replay_reaches_the_wire 3 world_open four_packets 7 hello []
              reliable ltac:(lia) world_open_buffered four_packets_distinct
              eq_refl)
    as (w1 & w2 & cl & Hr & Hadd & Hc & Hwire).
  exists w1, w2, cl. split; [exact Hr|]. split; [exact Hadd|].
  split; [exact Hc|]. rewrite Hwire. reflexivity.
Defined.

Lemma Route_again_is_dropped_witness :
  exists w1,
    Route world_open (Some 7%nat, hello) = Some w1 /\
    Route w1 (None, hello) = Some w1 /\
    Route w1 (Some 8%nat, hello) = Some w1.
Proof.
  destruct (Route_new world_open (Some 7%nat, hello) 3 [] ltac:(lia)
              world_open_buffered ltac:(apply not_elem_of_nil))
    as (w1 & Hr & _).
  exists w1. split; [exact Hr|]. split.
  - exact (Route_again_is_dropped world_open (Some 7%nat, hello) w1 None Hr).
  - exact (Route_again_is_dropped world_open (Some 7%nat, hello) w1
             (Some 8%nat) Hr).
Defined.

Lemma world_seen_bounded : channels_bounded world_seen.
Proof.
  intros c cl. unfold world_seen. cbn [objs].
  intros Hc. apply lookup_singleton_Some in Hc as [_ <-]. cbn. lia.
Qed.

Lemma channel_capacity_is_kept_witness :
  channels_bounded world_seen /\
  (forall op w1, Route world_seen op = Some w1 -> channels_bounded w1) /\
  (forall c peerID addr w1,
     handleConn_register world_seen c peerID addr = Some w1 ->
     channels_bounded w1) /\
  (forall c stream w1 nc ng,
     ReadLoop 32 small_config always world_seen c stream = Some (w1, nc, ng) ->
     channels_bounded w1).
Proof.
  split; [exact world_seen_bounded|].
  exact (channel_capacity_is_kept 32 small_config always world_seen
           world_seen_bounded).
Defined.

Lemma RecvLoop_never_sends_witness :
  exists w1 trs,
    RecvLoop world_open inputs = Some (w1, trs) /\
    sent (theMesh w1) = [] /\ clients (theRouter w1) = ∅.
Proof.
  pose proof RecvLoop_sample_run as Hsample.
  destruct (RecvLoop world_open inputs) as [[w1 trs]|] eqn:Hrun;
    [|discriminate Hsample].
  exists w1, trs. split; [reflexivity|].
  exact (RecvLoop_never_sends inputs world_open w1 trs Hrun).
Defined.

Lemma mesh_round_trip_open_witness :
  exists dgram w1,
    sent (Send (link (relay x02 ∅)) hello) = [] ++ [dgram] /\
    RouteFromMesh world_open hello = Some w1 /\
    RecvLoop_iter world_open (Some dgram) =
      Some (w1, [EvVerify (repeat x02 32) hello (Sign (relay x02 ∅) hello);
                 EvRouteFromMesh hello]).
Proof.
  assert (Hex.EncodeToString (PublicKey (relay x02 ∅))
          ∉ revokedKeys this_relay) as Hnot.
  { unfold this_relay, relay. cbn [revokedKeys PublicKey].
    intros Hin. apply elem_of_singleton in Hin.
    apply EncodeToString_inj in Hin. discriminate Hin. }
  exact (@mesh_round_trip_open stub_ed25519 (link (relay x02 ∅)) (relay x02 ∅) world_open
           this_relay hello 3 [] eq_refl eq_refl eq_refl ltac:(by_run)
           ltac:(by_run) eq_refl eq_refl eq_refl ltac:(discriminate) Hnot
           ltac:(discriminate) ltac:(by_run) ltac:(lia)
           (proj1 world_open_buffered)).
Defined.

Lemma mesh_round_trip_ca_witness :
  exists dgram w1 b1,
    sent (Send (link (certified x02)) hello) = [] ++ [dgram] /\
    certCache b1 = {[Hex.EncodeToString (repeat x02 32)]} ∪ ∅ /\
    RouteFromMesh (with_auth world_ca b1) hello = Some w1 /\
    RecvLoop_iter world_ca (Some dgram) =
      Some (w1, [EvVerify (repeat x09 32) (repeat x02 32)
                   (Certificate (certified x02));
                 EvVerify (repeat x02 32) hello (Sign (certified x02) hello);
                 EvRouteFromMesh hello]).
Proof.
  assert (Hex.EncodeToString (PublicKey (certified x02))
          ∉ revokedKeys this_relay) as Hnot.
  { unfold this_relay, relay, certified. cbn [revokedKeys PublicKey].
    intros Hin. apply elem_of_singleton in Hin.
    apply EncodeToString_inj in Hin. discriminate Hin. }
  destruct (@mesh_round_trip_ca stub_ed25519 (link (certified x02)) (certified x02)
              world_ca _ (repeat x09 32) hello 3 [] eq_refl
              ltac:(by_run) eq_refl ltac:(by_run) ltac:(by_run) eq_refl
              eq_refl eq_refl eq_refl ltac:(by_run) ltac:(discriminate) Hnot
              ltac:(discriminate) ltac:(by_run) ltac:(lia)
              (proj1 world_open_buffered))
    as (dgram & w1 & Hsent & Hroute & Hrecv).
  exists dgram, w1. eexists. split; [exact Hsent|].
  split; [|split; [exact Hroute | exact Hrecv]]. reflexivity.
Defined.

Lemma NewRelayAuth_ca_key_witness :
  exists a,
    (NewRelayAuth [] ([x20] ++ Hex.EncodeToString (repeat x09 32) ++ [x0a])
       [] ∅ {| OS.generated := Some (repeat x05 32, repeat x05 64);
               OS.mkdir_ok := true; OS.write_ok := true; OS.now := 5 |}).1
    = inl a /\
    Auth.CAPubKey a = Some (repeat x09 32) /\ HasCA a = true.
Proof.
  eexists. split; [vm_compute; reflexivity|].
  apply (NewRelayAuth_ca_key [] [x20] [x0a] (repeat x09 32) [] ∅
           {| OS.generated := Some (repeat x05 32, repeat x05 64);
              OS.mkdir_ok := true; OS.write_ok := true; OS.now := 5 |});
    [reflexivity | repeat constructor | repeat constructor |].
  vm_compute. reflexivity.
Defined.

Lemma loadCRL_revokes_witness :
  loadCRL (relay x02 ∅) crl_files = relay x02 ∅ /\
  IsRevoked (loadCRL watching crl_files) (repeat xab 32) = true.
Proof.
  split.
  - apply (proj1 (loadCRL_revokes (relay x02 ∅) crl_files)).
    left. reflexivity.
  - apply (proj2 (loadCRL_revokes watching crl_files)
             {| OS.data := crl_content; OS.perm := 420; OS.modTime := 5 |}
             (repeat xab 32)).
    + discriminate.
    + reflexivity.
    + discriminate.
    + apply (bool_decide_unpack _). vm_compute. exact I.
    + discriminate.
    + exists ([x20] ++ concat (repeat [x41; x42] 32) ++ [x20]).
      split; [|vm_compute; reflexivity].
      apply list_elem_of_In. vm_compute. tauto.
Defined.

Lemma VerifyPoW_monotone_witness :
  PoW.VerifyPoW (make 32) 206 8 = Some true /\
  PoW.VerifyPoW (make 32) 206 3 = Some true.
Proof.
  assert (PoW.VerifyPoW (make 32) 206 8 = Some true) as Hsol
    by (vm_compute; reflexivity).
  split; [exact Hsol|].
  exact (VerifyPoW_monotone (make 32) 206 8 3 eq_refl ltac:(lia) ltac:(lia)
           Hsol).
Defined.

Lemma PoWDifficulty_flag_wraps_witness :
  Main.PoWDifficulty 256 = 0 /\
  PoW.VerifyPoW (make 32) 0 (Main.PoWDifficulty 256) = Some true.
Proof. exact (PoWDifficulty_flag_wraps 256 (make 32) 0 eq_refl). Defined.

Lemma AllowedCertHashes_spec_witness :
  Main.AllowedCertHashes (list_byte_of_string " AB12 ,,cd")
    !! list_byte_of_string "ab12" = Some true /\
  Main.AllowedCertHashes (list_byte_of_string " , ") !! [] <> Some false /\
  base.size (Main.AllowedCertHashes (list_byte_of_string " , ")) = 0%nat.
Proof.
  split; [|split].
  - apply (AllowedCertHashes_spec (list_byte_of_string " AB12 ,,cd")
             (list_byte_of_string "ab12")).
    + repeat constructor.
    + split; [discriminate|]. exists (list_byte_of_string " AB12 ").
      split; [|vm_compute; reflexivity].
      apply list_elem_of_In. vm_compute. tauto.
  - apply (AllowedCertHashes_spec (list_byte_of_string " , ") []).
    repeat constructor.
  - apply (AllowedCertHashes_spec (list_byte_of_string " , ") []).
    + repeat constructor.
    + intros item Hitem. apply list_elem_of_In in Hitem.
      vm_compute in Hitem. destruct Hitem as [<-|[<-|[]]]; reflexivity.
Defined.

Lemma phone_pow_agrees_witness :
  Phone.ProofOfWork.solve (make 32) 8 300 = Some (inl 206) /\
  PoW.VerifyPoW (make 32) (uint64 206) 8 = Some true /\
  exists b, PoW.VerifyPoW (make 32) (uint64 (-1)) 8 = Some b /\
            Phone.ProofOfWork.verify (make 32) (-1) 8 = inl b.
Proof.
  assert (Phone.ProofOfWork.solve (make 32) 8 300 = Some (inl 206)) as Hsolve
    by (vm_compute; reflexivity).
  destruct (phone_pow_agrees (make 32) 8 eq_refl ltac:(lia))
    as [Hverify Hsound].
  split; [exact Hsolve|]. split; [exact (Hsound 300%nat 206 Hsolve)|].
  exact (Hverify (-1)).
Defined.

Lemma handshake_phone_and_relay_witness :
  Phone.ProofOfWork.solve (copy (make 32) (make 32)) 8 300 = Some (inl 206) /\
  exists hello,
    Phone.RelayConnection.performHandshake [x61; x62] (Some cert_07)
      (concat [challenge_8; accept] ++ []) 300
    = Some ([WriteFrame_buf FrameHello hello;
             WriteFrame_buf FrameSolution (PutUint64 (make 8) (uint64 206))],
            [], Phone.RelayConnection.Accepted) /\
    PerformHandshake 32
      {| input := concat [WriteFrame_buf FrameHello hello;
                          WriteFrame_buf FrameSolution
                            (PutUint64 (make 8) (uint64 206))] ++ ping;
         output := []; failing := [] |}
      small_config allowed_07 (Some (make 32))
    = Some (inl [x61; x62],
            {| input := ping; output := [] ++ [challenge_8; accept];
               failing := [] |}).
Proof.
  assert (Phone.ProofOfWork.solve (copy (make 32) (make 32)) 8 300
          = Some (inl 206)) as Hsolve by (vm_compute; reflexivity).
  split; [exact Hsolve|].
  exact (handshake_phone_and_relay 32 small_config allowed_07 [x61; x62]
           (Some cert_07) (make 32) 206 300 [] ping []
           (or_introl eq_refl) ltac:(by_run) ltac:(by_run) ltac:(by_run)
           ltac:(by_run)
           ltac:(intros h [= <-]; reflexivity)
           ltac:(intros _; exists cert_07; split; reflexivity)
           ltac:(by_run) Hsolve).
Defined.

Lemma replay_reaches_the_phone_witness :
  exists w1 w2 cl,
    Route_all world_open four_packets = Some w1 /\
    handleConn_register w1 7 hello [] = Some w2 /\
    objs w2 !! 7%nat = Some cl /\
    Phone.RelayConnection.readLoop (concat (output (WriteLoop cl reliable).2))
    = Some ([[x42]; [x43]; [x44]], Phone.EOFException).
Proof.
  destruct (replay_reaches_the_phone 3 world_open four_packets 7 hello []
              reliable ltac:(lia) world_open_buffered four_packets_distinct
              ltac:(repeat constructor; by_run) eq_refl eq_refl)
    as (w1 & w2 & cl & Hr & Hadd & Hc & Hread).
  exists w1, w2, cl. split; [exact Hr|]. split; [exact Hadd|].
  split; [exact Hc|]. rewrite Hread. reflexivity.
Defined.

(** C4: the replay to a new session loses packets and does not come
    first.  With the default configuration (a buffer of 1000 packets), 65
    packets with distinct hashes are routed and all buffered; [AddClient]
    calls [SendData] for the 65 of them, and the channel of the session
    that registers, 64 places that nothing empties before [AddClient]
    returns, holds the 64 oldest: the most recent packet is dropped.  And
    as the lock is released between the registration and the replay, a
    packet [E] that is routed in between (here with a buffer of three
    packets that held [B], [C], [D]) is on the channel of the new session
    ahead of the replayed packets and once more among them. *)
Theorem AddClient_replay_defect :
  let pkts := map snd many_packets in
  (NoDup (map PacketHash pkts) /\
   (w1 ← Route_all world_default many_packets;
    w2 ← handleConn_register w1 7 hello [];
    cl ← objs w2 !! 7%nat;
    Some (Buffer.GetAll (buffer (theRouter w1)), Session.queued cl))
   = Some (Some pkts, take 64 pkts) /\
   length pkts = 65%nat) /\
  ((w1 ← Route_all world_open four_packets;
    w2 ← Route (AddClient_register (arriving w1) 7%nat) live_packet;
    w3 ← AddClient_replay w2 7%nat;
    cl ← objs w3 !! 7%nat;
    Some (Buffer.GetAll (buffer (theRouter w1)), Session.queued cl))
   = Some (Some [[x42]; [x43]; [x44]], [[x45]; [x43]; [x44]; [x45]])).
Proof.
  cbn zeta. split; [split; [|split]|].
  - apply (bool_decide_unpack _). vm_compute. exact I.
  - vm_compute. reflexivity.
  - reflexivity.
  - vm_compute. reflexivity.
Qed.

Lemma world_three_holds :
  Buffer.holds 3 [] (buffer (theRouter world_three)).
Proof. repeat split. intros i p Hi. discriminate Hi. Qed.

Lemma world_three_clients (c : nat) :
  c ∈ clients (theRouter world_three) <-> c = 7%nat \/ c = 8%nat \/ c = 9%nat.
Proof.
  change (clients (theRouter world_three))
    with ({[ 7%nat; 8%nat; 9%nat ]} : gset nat).
  rewrite !elem_of_union, !elem_of_singleton. tauto.
Qed.

Lemma Route_duplicate_or_fanout_witness :
  (PacketHash hello ∈ seen (dedup (theRouter world_seen)) /\
   RouteFromClient world_seen 7 hello = Some world_seen /\
   RouteFromMesh world_seen hello = Some world_seen) /\
  ((PacketHash hello ∉ seen (dedup (theRouter world_three))) /\
   exists w1,
     RouteFromClient world_three 7 hello = Some w1 /\
     Buffer.GetAll (buffer (theRouter w1)) = Some [hello] /\
     objs w1 !! 7%nat = Some (Session.NewClient [x61] []) /\
     objs w1 !! 8%nat =
       Some {| Session.peerID := [x62]; Session.addr := [];
               Session.closed := false;
               Session.writeCh :=
                 [{| Session.frameType := FrameData;
                     Session.payload := hello |}] |} /\
     objs w1 !! 9%nat = Some (Session.Close (Session.NewClient [x63] [])) /\
     objs w1 !! 10%nat = Some (Session.NewClient [x64] []) /\
     objs w1 !! 11%nat = None /\
     sent (theMesh w1) =
       [repeat x00 32 ++ ed25519_Sign (repeat x00 64) hello ++ hello]).
Proof.
  assert (PacketHash hello ∈ seen (dedup (theRouter world_seen))) as Hin
    by (change (PacketHash hello ∈ ({[ PacketHash hello ]} : gset bytes));
        apply elem_of_singleton; reflexivity).
  assert (PacketHash hello ∉ seen (dedup (theRouter world_three))) as Hout
    by apply not_elem_of_empty.
  split; [split; [exact Hin|]|split; [exact Hout|]].
  - exact (proj1 (Route_duplicate_or_fanout world_seen 7 hello) Hin).
  - destruct (proj2 (Route_duplicate_or_fanout world_three 7 hello) Hout
                3%nat [] ltac:(lia) world_three_holds)
      as (w1 & Hr & Hholds & _ & _ & Hobjs & _ & Hmesh).
    exists w1. split; [exact Hr|].
    split; [now rewrite (GetAll_holds 3 ltac:(lia) _ _ Hholds)|].
    rewrite (Hmesh this_relay eq_refl eq_refl eq_refl
               ltac:(vm_compute; reflexivity)).
    pose proof world_three_clients as Hset.
    rewrite !Hobjs.
    change (objs world_three !! 7%nat) with (Some (Session.NewClient [x61] [])).
    change (objs world_three !! 8%nat) with (Some (Session.NewClient [x62] [])).
    change (objs world_three !! 9%nat)
      with (Some (Session.Close (Session.NewClient [x63] []))).
    change (objs world_three !! 10%nat)
      with (Some (Session.NewClient [x64] [])).
    change (objs world_three !! 11%nat) with (@None Session.Client).
    cbn [sent theMesh world_three].
    rewrite (decide_False (P := 7%nat ∈ _ /\ _)) by (intros (_ & ? & _); lia).
    rewrite (decide_True (P := 8%nat ∈ _ /\ _))
      by (split; [apply Hset; auto | cbn; repeat split; auto; lia]).
    rewrite (decide_False (P := 9%nat ∈ _ /\ _))
      by (intros (_ & _ & ? & _); discriminate).
    rewrite (decide_False (P := 10%nat ∈ _ /\ _))
      by (intros (Hten & _); apply Hset in Hten; lia).
    do 5 (split; [reflexivity|]). vm_compute. reflexivity.
Defined.

End Runs.

(** *** float64: what the operations of [SpecFloat] give *)

Section Float64.

Import SpecFloat RateLimit.

(** The number of binary digits. *)
Lemma Zdigits2_log2 (m : Z) : 0 < m -> Zdigits2 m = Z.log2 m + 1.
Proof.
  destruct m as [|p|p]; try lia. intros _. cbn [Zdigits2].
  induction p as [p IH|p IH|]; cbn [digits2_pos]; try reflexivity.
  - rewrite Pos2Z.inj_succ, IH.
    change (Z.pos p~1) with (2 * Z.pos p + 1).
    rewrite Z.log2_succ_double by lia. lia.
  - rewrite Pos2Z.inj_succ, IH.
    change (Z.pos p~0) with (2 * Z.pos p).
    rewrite Z.log2_double by lia. lia.
Qed.

Lemma Zdigits2_nonneg (m : Z) : 0 <= Zdigits2 m.
Proof. destruct m; cbn; lia. Qed.

Lemma Zdigits2_pos (m : Z) : 0 < m -> 0 < Zdigits2 m.
Proof. destruct m; cbn; lia. Qed.

Lemma Zdigits2_spec (m : Z) :
  0 < m -> 2 ^ (Zdigits2 m - 1) <= m < 2 ^ Zdigits2 m.
Proof.
  intros Hm. rewrite Zdigits2_log2 by exact Hm.
  replace (Z.log2 m + 1 - 1) with (Z.log2 m) by lia.
  replace (Z.log2 m + 1) with (Z.succ (Z.log2 m)) by lia.
  apply Z.log2_spec, Hm.
Qed.

Lemma Zdigits2_unique (m k : Z) :
  0 < k -> 2 ^ (k - 1) <= m < 2 ^ k -> Zdigits2 m = k.
Proof.
  intros Hk Hm.
  assert (0 < m) as Hpos by (pose proof (Z.pow_pos_nonneg 2 (k - 1)); lia).
  rewrite Zdigits2_log2 by exact Hpos.
  rewrite (Z.log2_unique m (k - 1)); [lia|lia|].
  replace (Z.succ (k - 1)) with k by lia. exact Hm.
Qed.

Lemma Zdigits2_mul_pow2 (m n : Z) :
  0 < m -> 0 <= n -> Zdigits2 (m * 2 ^ n) = Zdigits2 m + n.
Proof.
  intros Hm Hn.
  assert (0 < 2 ^ n) by (apply Z.pow_pos_nonneg; lia).
  rewrite !Zdigits2_log2 by nia.
  rewrite Z.log2_mul_pow2 by lia. lia.
Qed.

Lemma Zdigits2_div_pow2 (m n : Z) :
  0 <= m -> 0 <= n -> Zdigits2 (m / 2 ^ n) = Z.max (Zdigits2 m - n) 0.
Proof.
  intros Hm Hn.
  assert (0 < 2 ^ n) as Hp by (apply Z.pow_pos_nonneg; lia).
  destruct (Z.eq_dec m 0) as [->|Hne].
  { rewrite Z.div_0_l by lia. cbn. lia. }
  pose proof (Zdigits2_spec m ltac:(lia)) as [Hlo Hhi].
  destruct (Z_lt_le_dec n (Zdigits2 m)) as [Hlt|Hge].
  - rewrite (Zdigits2_unique (m / 2 ^ n) (Zdigits2 m - n)); [lia|lia|].
    split.
    + apply Z.div_le_lower_bound; [lia|].
      rewrite <- Z.pow_add_r by lia.
      replace (n + (Zdigits2 m - n - 1)) with (Zdigits2 m - 1) by lia.
      exact Hlo.
    + apply Z.div_lt_upper_bound; [lia|].
      rewrite <- Z.pow_add_r by lia.
      replace (n + (Zdigits2 m - n)) with (Zdigits2 m) by lia.
      exact Hhi.
  - rewrite Z.div_small; [cbn; lia|].
    split; [lia|].
    apply Z.lt_le_trans with (1 := Hhi).
    apply Z.pow_le_mono_r; lia.
Qed.

Lemma Zdigits2_le (a b : Z) : 0 <= a <= b -> Zdigits2 a <= Zdigits2 b.
Proof.
  intros [Ha Hab]. destruct (Z.eq_dec a 0) as [->|Hne].
  { apply Zdigits2_nonneg. }
  rewrite !Zdigits2_log2 by lia.
  pose proof (Z.log2_le_mono a b Hab). lia.
Qed.

Lemma Zdigits2_succ (m : Z) :
  0 <= m ->
  Zdigits2 (m + 1) = Zdigits2 m \/
  (Zdigits2 (m + 1) = Zdigits2 m + 1 /\ m + 1 = 2 ^ Zdigits2 m).
Proof.
  intros Hm. destruct (Z.eq_dec m 0) as [->|Hne].
  { right. cbn. split; reflexivity. }
  pose proof (Zdigits2_spec m ltac:(lia)) as [Hlo Hhi].
  destruct (Z.eq_dec (m + 1) (2 ^ Zdigits2 m)) as [Heq|Hneq].
  - right. split; [|exact Heq].
    apply Zdigits2_unique; [pose proof (Zdigits2_pos m); lia|].
    replace (Zdigits2 m + 1 - 1) with (Zdigits2 m) by lia.
    rewrite Z.pow_add_r by (pose proof (Zdigits2_nonneg m); lia).
    lia.
  - left. apply Zdigits2_unique; [pose proof (Zdigits2_pos m); lia|]. lia.
Qed.


(** Shifting to the right divides the mantissa by a power of two. *)
Lemma shr_1_m mrs : 0 <= shr_m mrs -> shr_m (shr_1 mrs) = shr_m mrs / 2.
Proof.
  destruct mrs as [m r s]. cbn [shr_m]. intros Hm.
  destruct m as [|[p|p|]|p]; cbn [shr_1 shr_m].
  - reflexivity.
  - rewrite (Pos2Z.inj_xI p). apply Z.div_unique with 1; lia.
  - rewrite (Pos2Z.inj_xO p). apply Z.div_unique with 0; lia.
  - reflexivity.
  - pose proof (Pos2Z.neg_is_neg p). lia.
Qed.

Lemma iter_shr_1_m p : forall mrs,
  0 <= shr_m mrs ->
  shr_m (iter_pos shr_1 p mrs) = shr_m mrs / 2 ^ Z.pos p.
Proof.
  assert (forall a b c, 0 < b -> 0 < c -> a / b / c = a / (b * c)) as Hdd
    by (intros; apply Z.div_div; lia).
  induction p as [p IH|p IH|]; intros mrs Hm; cbn [iter_pos].
  - assert (0 < 2 ^ Z.pos p) by (apply Z.pow_pos_nonneg; lia).
    assert (0 <= shr_m (shr_1 mrs))
      by (rewrite shr_1_m by exact Hm; apply Z.div_pos; lia).
    assert (0 <= shr_m (iter_pos shr_1 p (shr_1 mrs)))
      by (rewrite IH by assumption; apply Z.div_pos; lia).
    rewrite !IH, shr_1_m by assumption.
    rewrite !Hdd by lia. f_equal.
    change (Z.pos p~1) with (2 * Z.pos p + 1).
    rewrite Z.pow_add_r, Z.pow_mul_r, Z.pow_2_r by lia.
    change (2 ^ 2) with 4. change (2 ^ 1) with 2.
    rewrite <- Z.pow_2_r. rewrite Z.pow_mul_l. change (2 ^ 2) with 4.
    replace (4 ^ Z.pos p) with (2 ^ Z.pos p * 2 ^ Z.pos p); [lia|].
    rewrite <- Z.pow_mul_l. reflexivity.
  - assert (0 < 2 ^ Z.pos p) by (apply Z.pow_pos_nonneg; lia).
    assert (0 <= shr_m (iter_pos shr_1 p mrs))
      by (rewrite IH by assumption; apply Z.div_pos; lia).
    rewrite !IH by assumption.
    rewrite Hdd by lia. f_equal.
    change (Z.pos p~0) with (2 * Z.pos p).
    replace (2 * Z.pos p) with (Z.pos p + Z.pos p) by lia.
    now rewrite Z.pow_add_r by lia.
  - now apply shr_1_m.
Qed.

Lemma shr_m_spec mrs e n :
  0 <= shr_m mrs -> 0 <= n ->
  shr_m (shr mrs e n).1 = shr_m mrs / 2 ^ n /\ (shr mrs e n).2 = e + n.
Proof.
  intros Hm Hn. destruct n as [|p|p]; try lia; cbn [shr fst snd].
  - rewrite Z.div_1_r. split; lia.
  - split; [now apply iter_shr_1_m | reflexivity].
Qed.





(** The exponent a number of a given magnitude gets. *)
Lemma fexp64 (e : Z) : fexp prec emax e = Z.max (e - 53) (-1074).
Proof. reflexivity. Qed.

Lemma fexp_mono (a b : Z) : a <= b -> fexp prec emax a <= fexp prec emax b.
Proof. rewrite !fexp64. lia. Qed.

Lemma bounded_iff (m : positive) (e : Z) :
  bounded prec emax m e = true <->
  fexp prec emax (Zdigits2 (Z.pos m) + e) = e /\ e <= 971.
Proof.
  unfold bounded, canonical_mantissa. cbn [Zdigits2].
  rewrite andb_true_iff, Z.eqb_eq, Z.leb_le. reflexivity.
Qed.

(** What [shr_fexp] gives when it has nothing to shift to the left. *)
Lemma shr_fexp_spec (m e : Z) (l : location) :
  0 <= m -> e <= fexp prec emax (Zdigits2 m + e) ->
  let r := shr_fexp prec emax m e l in
  shr_m r.1 = m / 2 ^ (r.2 - e) /\ e <= r.2 /\
  r.2 = fexp prec emax (Zdigits2 m + e) /\
  0 <= shr_m r.1 /\
  (0 < shr_m r.1 -> fexp prec emax (Zdigits2 (shr_m r.1) + r.2) = r.2) /\
  r.2 <= fexp prec emax (Zdigits2 (shr_m r.1) + r.2).
Proof.
  intros Hm He r. unfold r, shr_fexp.
  set (n := fexp prec emax (Zdigits2 m + e) - e).
  assert (0 <= n) as Hn by (unfold n; lia).
  assert (shr_m (shr_record_of_loc m l) = m) as Hrec
    by (destruct l as [|[| |]]; reflexivity).
  destruct (shr_m_spec (shr_record_of_loc m l) e n) as [Hm1 He1];
    [rewrite Hrec; exact Hm | exact Hn |].
  rewrite Hrec in Hm1. rewrite He1, Hm1.
  replace (e + n - e) with n by lia.
  assert (0 < 2 ^ n) by (apply Z.pow_pos_nonneg; lia).
  assert (0 <= m / 2 ^ n) as Hq by (apply Z.div_pos; lia).
  pose proof (Zdigits2_div_pow2 m n Hm Hn) as Hd.
  pose proof (Zdigits2_nonneg m) as Hdm.
  repeat split; try lia.
  - intros Hpos. pose proof (Zdigits2_pos _ Hpos). rewrite Hd.
    replace (Z.max (Zdigits2 m - n) 0 + (e + n)) with (Zdigits2 m + e) by lia.
    unfold n. lia.
  - rewrite Hd. unfold n. rewrite !fexp64 in *. lia.
Qed.

Lemma round_nearest_even_range (m : Z) (l : location) :
  m <= round_nearest_even m l <= m + 1.
Proof.
  destruct l as [|[| |]]; cbn [round_nearest_even]; try lia.
  destruct (Z.even m); lia.
Qed.

(** Rounding gives a float64. *)
Lemma binary_round_aux_valid (sx : bool) (mx ex : Z) (lx : location) :
  0 <= mx -> ex <= fexp prec emax (Zdigits2 mx + ex) ->
  is_float64 (binary_round_aux prec emax sx mx ex lx).
Proof.
  intros Hm He. unfold is_float64, binary_round_aux.
  pose proof (shr_fexp_spec mx ex lx Hm He) as H1. cbv zeta in H1.
  destruct (shr_fexp prec emax mx ex lx) as [mrs1 e1]. cbn [fst snd] in H1.
  destruct H1 as (_ & _ & _ & Hm1 & _ & Hle1).
  pose proof (round_nearest_even_range (shr_m mrs1) (loc_of_shr_record mrs1))
    as Hround.
  set (m2 := round_nearest_even (shr_m mrs1) (loc_of_shr_record mrs1)) in *.
  assert (e1 <= fexp prec emax (Zdigits2 m2 + e1)) as He2.
  { apply Z.le_trans with (1 := Hle1). apply fexp_mono.
    pose proof (Zdigits2_le (shr_m mrs1) m2). lia. }
  pose proof (shr_fexp_spec m2 e1 loc_Exact ltac:(lia) He2) as H2.
  cbv zeta in H2.
  destruct (shr_fexp prec emax m2 e1 loc_Exact) as [mrs2 e2].
  cbn [fst snd] in H2. destruct H2 as (_ & _ & _ & Hm3 & Hcan & _).
  destruct (shr_m mrs2) as [|m3|m3] eqn:Hm3e; [reflexivity| |reflexivity].
  destruct (Z.leb_spec e2 (emax - prec)) as [Hfit|Hbig]; [|reflexivity].
  cbn [valid_binary]. apply bounded_iff.
  split; [apply Hcan; lia | exact Hfit].
Qed.

Lemma shl_align_spec (mx : positive) (ex ex' : Z) :
  let r := shl_align mx ex ex' in
  Z.pos r.1 = Z.pos mx * 2 ^ (ex - r.2) /\ r.2 = Z.min ex ex'.
Proof.
  unfold shl_align. destruct (ex' - ex) as [|d|d] eqn:Hd; cbn [fst snd].
  - replace (ex - ex) with 0 by lia. split; lia.
  - replace (ex - ex) with 0 by lia. split; lia.
  - replace (ex - ex') with (Z.pos d) by lia. split; [|lia].
    change (Pos.iter xO mx d) with (Zpower.shift_pos d mx).
    rewrite Zpower.shift_pos_correct. rewrite Z.mul_comm. reflexivity.
Qed.

Lemma binary_round_valid (sx : bool) (mx : positive) (ex : Z) :
  is_float64 (binary_round prec emax sx mx ex).
Proof.
  unfold binary_round.
  pose proof (shl_align_spec mx ex
                (fexp prec emax (Z.pos (digits2_pos mx) + ex))) as Hal.
  cbv zeta in Hal.
  destruct (shl_align mx ex _) as [mz ez]. cbn [fst snd] in Hal.
  destruct Hal as [Hmz Hez].
  apply binary_round_aux_valid; [lia|].
  rewrite Hmz, Zdigits2_mul_pow2 by lia.
  replace (Zdigits2 (Z.pos mx) + (ex - ez) + ez)
    with (Z.pos (digits2_pos mx) + ex) by (cbn [Zdigits2]; lia).
  lia.
Qed.

Lemma binary_normalize_valid (m e : Z) (szero : bool) :
  is_float64 (binary_normalize prec emax m e szero).
Proof.
  destruct m; cbn [binary_normalize];
    [reflexivity | apply binary_round_valid ..].
Qed.



Lemma SFsub_valid (x y : spec_float) :
  is_float64 x -> is_float64 y -> is_float64 (SFsub prec emax x y).
Proof.
  intros Hx Hy.
  destruct x as [sx|sx| |sx mx ex], y as [sy|sy| |sy my ey];
    cbn [SFsub]; try assumption; try reflexivity;
    try (now destruct sx, sy).
  apply binary_normalize_valid.
Qed.

















End Float64.

(** *** The token bucket *)

Section TokenBucketFacts.

Import SpecFloat RateLimit.

Variable rate : spec_float.
Variable burst : Z.
Hypothesis rate_float64 : is_float64 rate.
Hypothesis burst_range : 0 <= burst < 2 ^ 53.















End TokenBucketFacts.

Section TokenBucketBound.

Import SpecFloat QArith_base RateLimit Buckets.
Local Open Scope Z_scope.









End TokenBucketBound.
